(** * Secret Angel bot: the assignment engine and its conversation handler

    A shallow embedding of [src/bot.js], [src/security.js] and
    [src/rateLimit.js].

    - JavaScript strings are [string]: a sequence of code units, here the
      code units below 256 (Latin-1), on which [trim], [toLowerCase],
      [split] and [===] act as written out in [Module JS].
    - JavaScript numbers that hold lengths, indices and counts are [Z] or
      [nat]; arrays are lists, read with stdpp's lookup.
    - [crypto.randomInt] is a draw from an explicit random source threaded
      through the code that calls it.
    - A thrown [Error] is the [Throw] case of [result]. *)

From Stdlib Require Import ZArith List String Ascii Lia.
From stdpp Require Import base list strings pretty gmap.

Local Open Scope string_scope.
Local Open Scope list_scope.
Local Open Scope Z_scope.

(** ** Results of code that may throw *)

Inductive result (A : Type) : Type :=
| Ok (a : A)
| Throw (message : string).
Arguments Ok {A} a.
Arguments Throw {A} message.

(** ** The random source

    [crypto.randomInt(min, max)] returns an integer in [[min, max)].  The
    source is a tape of raw draws and a cursor; every behaviour of
    [randomInt] is the behaviour of some tape. *)

Record Rng : Type := mkRng { tape : nat → nat; cursor : nat }.

Definition randomInt (min max : nat) (g : Rng) : nat * Rng :=
  ((min + tape g (cursor g) mod (max - min))%nat,
   mkRng (tape g) (S (cursor g))).

(** ** JavaScript string primitives *)

Module JS.

(** White space and line terminators that [String.prototype.trim] strips:
    TAB, LF, VT, FF, CR, SPACE and NBSP. *)
Definition is_whitespace (c : ascii) : bool :=
  let n := nat_of_ascii c in
  ((9 <=? n) && (n <=? 13) || (n =? 32) || (n =? 160))%nat.

Fixpoint trimStart (s : string) : string :=
  match s with
  | EmptyString => EmptyString
  | String c s' => if is_whitespace c then trimStart s' else s
  end.

Fixpoint trimEnd (s : string) : string :=
  match s with
  | EmptyString => EmptyString
  | String c s' =>
      let t := trimEnd s' in
      if is_whitespace c && String.eqb t "" then EmptyString else String c t
  end.

Definition trim (s : string) : string := trimEnd (trimStart s).

(** [toLowerCase] on one code unit: A-Z, and the Latin-1 capitals
    U+00C0-U+00DE without the multiplication sign U+00D7. *)
Definition lower_char (c : ascii) : ascii :=
  let n := nat_of_ascii c in
  if ((65 <=? n) && (n <=? 90)
      || (192 <=? n) && (n <=? 222) && negb (n =? 215))%nat
  then ascii_of_nat (n + 32) else c.

Fixpoint toLowerCase (s : string) : string :=
  match s with
  | EmptyString => EmptyString
  | String c s' => String (lower_char c) (toLowerCase s')
  end.

(** [s.split(sep)] for a one-character separator: never empty, and the
    empty string splits into one empty piece. *)
Fixpoint split (sep : ascii) (s : string) : list string :=
  match s with
  | EmptyString => [EmptyString]
  | String c s' =>
      if Ascii.eqb c sep then EmptyString :: split sep s'
      else match split sep s' with
           | piece :: pieces => String c piece :: pieces
           | [] => [String c EmptyString]
           end
  end.

Definition startsWith (s : string) (c : ascii) : bool :=
  match s with
  | String c' _ => Ascii.eqb c' c
  | EmptyString => false
  end.

(** [s.length] *)
Definition length (s : string) : Z := Z.of_nat (String.length s).

(** [array.includes(x)] on an array of strings *)
Definition includes (array : list string) (x : string) : bool :=
  existsb (String.eqb x) array.

Definition newline : ascii := ascii_of_nat 10.
Definition double_quote : ascii := ascii_of_nat 34.

(** [s.replace(/c/g, by)] for a one-character pattern. *)
Fixpoint replaceAll (c : ascii) (by' : string) (s : string) : string :=
  match s with
  | EmptyString => EmptyString
  | String c' s' =>
      if Ascii.eqb c' c then (by' ++ replaceAll c by' s')%string
      else String c' (replaceAll c by' s')
  end.

(** [s.substring(0, n)] for [0 <= n]. *)
Fixpoint take_string (n : nat) (s : string) : string :=
  match n, s with
  | S n', String c s' => String c (take_string n' s')
  | _, _ => EmptyString
  end.

(** The regular-expression classes [\w] and [\s]. *)
Definition is_word (c : ascii) : bool :=
  let n := nat_of_ascii c in
  ((48 <=? n) && (n <=? 57) || (65 <=? n) && (n <=? 90)
   || (97 <=? n) && (n <=? 122) || (n =? 95))%nat.

Fixpoint all_chars (f : ascii → bool) (s : string) : bool :=
  match s with
  | EmptyString => true
  | String c s' => f c && all_chars f s'
  end.

Definition digit_of (c : ascii) : option Z :=
  let n := nat_of_ascii c in
  if ((48 <=? n) && (n <=? 57))%nat then Some (Z.of_nat (n - 48)) else None.

(** The longest run of decimal digits at the head of [s]; [None] when
    there is none ([NaN]). *)
Fixpoint parse_digits (s : string) (acc : option Z) : option Z :=
  match s with
  | EmptyString => acc
  | String c s' =>
      match digit_of c with
      | Some d => parse_digits s' (Some (10 * default 0 acc + d))
      | None => acc
      end
  end.

(** [parseInt(input, 10)]: leading white space, an optional sign, digits;
    what follows the digits is ignored.  [None] is [NaN], also for an input
    that is not a string.  Integers are exact (no rounding to a double). *)
Definition parseInt (input : option string) : option Z :=
  match input with
  | None => None
  | Some s =>
      match trimStart s with
      | String "-" s' => Z.opp <$> parse_digits s' None
      | String "+" s' => parse_digits s' None
      | s' => parse_digits s' None
      end
  end.

End JS.

(** ** Input validation (security.js) *)

Module Security.

Definition MAX_NAME_LENGTH : Z := 100.
Definition MAX_WISHLIST_LENGTH : Z := 1000.
Definition MAX_RESTRICTIONS_INPUT_LENGTH : Z := 5000.

(** [sanitizeInput] (security.js 15-27), on a string. *)
Definition sanitizeInput (input : string) : string :=
  JS.trim
    (JS.replaceAll "/" "&#x2F;"
       (JS.replaceAll "'" "&#x27;"
          (JS.replaceAll JS.double_quote "&quot;"
             (JS.replaceAll ">" "&gt;"
                (JS.replaceAll "<" "&lt;" input))))).

(** The character class of [/^[\w\s\-']+$/u]. *)
Definition name_char (c : ascii) : bool :=
  JS.is_word c || JS.is_whitespace c || Ascii.eqb c "-" || Ascii.eqb c "'".

(** [validateName] (security.js 34-52); the argument is [None] when the
    message has no text. *)
Definition validateName (name : option string) : option string :=
  match name with
  | None => None
  | Some name =>
      if String.eqb name "" then None
      else
        let sanitizedName := sanitizeInput (JS.trim name) in
        if (JS.length sanitizedName =? 0) || (JS.length sanitizedName >? MAX_NAME_LENGTH)
        then None
        else if negb (JS.all_chars name_char sanitizedName) then None
        else Some sanitizedName
  end.

(** [validateWishlist] (security.js 59-71) *)
Definition validateWishlist (wishlist : option string) : string :=
  match wishlist with
  | None => ""
  | Some wishlist =>
      if String.eqb wishlist "" then ""
      else
        let sanitizedWishlist := sanitizeInput (JS.trim wishlist) in
        if JS.length sanitizedWishlist >? MAX_WISHLIST_LENGTH
        then JS.take_string (Z.to_nat MAX_WISHLIST_LENGTH) sanitizedWishlist
        else sanitizedWishlist
  end.

(** [validateNumber] (security.js 80-88); [max] defaults to 1000 when the
    caller passes [undefined]. *)
Definition validateNumber (input : option string) (min : Z) (max : option Z)
  : option Z :=
  match JS.parseInt input with
  | None => None
  | Some num =>
      if (num <? min) || (num >? default 1000 max) then None else Some num
  end.

(** The body of [for (const line of lines)] (security.js 114-136); [None]
    is [return null]. *)
Fixpoint validate_lines (lines : list string) (validParticipants : list string)
         (restrictions : list (list string)) : option (list (list string)) :=
  match lines with
  | [] => Some restrictions
  | line :: rest =>
      let trimmedLine := JS.trim line in
      if String.eqb trimmedLine "" then
        validate_lines rest validParticipants restrictions
      else
        let pair' := JS.trim <$> JS.split "," trimmedLine in
        if negb (length pair' =? 2)%nat
           || existsb (λ name, String.eqb name "") pair' then None
        else
          match pair' !! 0%nat, pair' !! 1%nat with
          | Some name0, Some name1 =>
              if negb (JS.includes validParticipants name0)
                 || negb (JS.includes validParticipants name1) then None
              else if String.eqb name0 name1 then None
              else validate_lines rest validParticipants (restrictions ++ [pair'])
          | _, _ => None
          end
  end.

(** [validateRestrictionsInput] (security.js 96-142).  The input is [None]
    when it is not a string; [None] as a result is [null]. *)
Definition validateRestrictionsInput (input : option string)
           (validParticipants : list string) : option (list (list string)) :=
  match input with
  | None => Some []
  | Some input =>
      if String.eqb input "" then Some []
      else if JS.length input >? MAX_RESTRICTIONS_INPUT_LENGTH then None
      else
        let trimmedInput := JS.trim input in
        if String.eqb (JS.toLowerCase trimmedInput) "none"
           || String.eqb trimmedInput "" then Some []
        else validate_lines (JS.split JS.newline trimmedInput) validParticipants []
  end.

End Security.

(** ** Rate limiting (rateLimit.js) *)

Module RateLimit.

Record UserData : Type := mkUserData { count : Z; resetTime : Z }.

Definition RATE_LIMIT_WINDOW : Z := 60 * 1000.
Definition RATE_LIMIT_MAX_REQUESTS : Z := 10.

(** [isRateLimited] (rateLimit.js 17-40); [now] is [Date.now()], and the
    key [user:<id>] is the id. *)
Definition isRateLimited (now userId : Z) (rateLimitStore : gmap Z UserData)
  : bool * gmap Z UserData :=
  match rateLimitStore !! userId with
  | Some userData =>
      if resetTime userData <=? now then
        (false, <[userId := mkUserData 1 (now + RATE_LIMIT_WINDOW)]> rateLimitStore)
      else
        let userData := mkUserData (count userData + 1) (resetTime userData) in
        (count userData >? RATE_LIMIT_MAX_REQUESTS,
         <[userId := userData]> rateLimitStore)
  | None =>
      (false, <[userId := mkUserData 1 (now + RATE_LIMIT_WINDOW)]> rateLimitStore)
  end.

(** [cleanupRateLimitStore] (rateLimit.js 45-53), run every five minutes:
    the entries whose window is over at [now] are deleted. *)
Definition cleanupRateLimitStore (now : Z) (rateLimitStore : gmap Z UserData)
  : gmap Z UserData :=
  filter (λ entry, ¬ (resetTime entry.2 ≤ now)) rateLimitStore.

End RateLimit.

(** ** The relational store

    The four tables of bot.js 75-108 behind one connection, with the
    statements the bot issues.  [begun] holds the tables as they were at
    [BEGIN] while a transaction is open: [ROLLBACK] puts them back,
    [COMMIT] forgets them.  [TRUNCATE ... RESTART IDENTITY] and the
    identity counters it resets are inside the transaction.

    Any statement may fail: [faults] says which, by the number of the
    statement on this connection (a constraint violation, a lost
    connection, ...).  A failed statement changes no table.  [ROLLBACK]
    raises no error of its own, so a [ROLLBACK] that reports a failure is a
    lost connection, and the server ends the session's transaction all the
    same: the tables are back as they were at [BEGIN]. *)

Module Store.

Record ParticipantRow : Type :=
  mkParticipant { id : Z; name : string; wishlist : string }.
Record GroupRow : Type :=
  mkGroup { group_id : Z; group_name : string }.
Record MemberRow : Type :=
  mkMember { membership_id : Z; member_group_id : Z; participant_id : Z }.
Record AssignmentRow : Type :=
  mkAssignment { assignment_id : Z; assignment_group_id : Z;
                 giver_participant_id : Z; receiver_participant_id : Z }.

Record Tables : Type := mkTables {
  tg_participants : list ParticipantRow;
  tg_groups : list GroupRow;
  tg_group_members : list MemberRow;
  tg_assignments : list AssignmentRow;
  (** the SERIAL counters: the key of the next row of each table *)
  next_participant : Z;
  next_group : Z;
  next_membership : Z;
  next_assignment : Z
}.

Inductive Statement : Type :=
| BEGIN
| COMMIT
| ROLLBACK
| TRUNCATE_groups        (* tg_groups, tg_group_members, tg_assignments *)
| TRUNCATE_all          (* the same and tg_participants *)
| INSERT_group (group_name : string)                    (* RETURNING group_id *)
| INSERT_member (group_id participant_id : Z)
| INSERT_assignment (group_id giver_id receiver_id : Z)
| UPSERT_participant (name wishlist : string)
| SELECT_assignment (giver_name : string)
| SELECT_participant_exists (name : string)
| SELECT_participants_by_id.

(** [result.rows] *)
Inductive Rows : Type :=
| NoRows
| GroupIdRows (group_id : Z)
| ReceiverRows (rows : list (string * string))   (* receiver_name, receiver_wishlist *)
| OneRows (rows : list unit)
| ParticipantRows (rows : list (Z * string)).    (* id, name *)

Record Db : Type := mkDb {
  tables : Tables;
  begun : option Tables;
  faults : nat → bool;
  log : list (Statement * bool)   (* statements issued, with their success *)
}.

Definition truncate_groups (t : Tables) : Tables :=
  mkTables (tg_participants t) [] [] [] (next_participant t) 1 1 1.

Definition truncate_all (t : Tables) : Tables :=
  mkTables [] [] [] [] 1 1 1 1.

Definition insert_group (group_name : string) (t : Tables) : Tables :=
  mkTables (tg_participants t)
           (tg_groups t ++ [mkGroup (next_group t) group_name])
           (tg_group_members t) (tg_assignments t)
           (next_participant t) (next_group t + 1)
           (next_membership t) (next_assignment t).

Definition insert_member (group_id participant_id : Z) (t : Tables) : Tables :=
  mkTables (tg_participants t) (tg_groups t)
           (tg_group_members t
              ++ [mkMember (next_membership t) group_id participant_id])
           (tg_assignments t)
           (next_participant t) (next_group t)
           (next_membership t + 1) (next_assignment t).

Definition insert_assignment (group_id giver_id receiver_id : Z) (t : Tables)
  : Tables :=
  mkTables (tg_participants t) (tg_groups t) (tg_group_members t)
           (tg_assignments t
              ++ [mkAssignment (next_assignment t) group_id giver_id receiver_id])
           (next_participant t) (next_group t)
           (next_membership t) (next_assignment t + 1).

(** [ON CONFLICT (name) DO UPDATE SET wishlist = EXCLUDED.wishlist] *)
Fixpoint set_wishlist (name' wishlist' : string) (rows : list ParticipantRow)
  : list ParticipantRow :=
  match rows with
  | [] => []
  | row :: rest =>
      (if String.eqb (name row) name'
       then mkParticipant (id row) (name row) wishlist' else row)
      :: set_wishlist name' wishlist' rest
  end.

Definition has_name (name' : string) (rows : list ParticipantRow) : bool :=
  existsb (λ row, String.eqb (name row) name') rows.

(** The proposed row takes its key from the counter before the conflict is
    looked for, so the counter moves either way. *)
Definition upsert_participant (name' wishlist' : string) (t : Tables) : Tables :=
  mkTables (if has_name name' (tg_participants t)
            then set_wishlist name' wishlist' (tg_participants t)
            else tg_participants t
                   ++ [mkParticipant (next_participant t) name' wishlist'])
           (tg_groups t) (tg_group_members t) (tg_assignments t)
           (next_participant t + 1) (next_group t)
           (next_membership t) (next_assignment t).

Definition find_participant (id' : Z) (rows : list ParticipantRow)
  : option ParticipantRow :=
  List.find (λ row, id row =? id') rows.

(** The join of bot.js 570-578: receivers of the givers whose name matches
    without regard to case. *)
Definition select_assignment (giver_name : string) (t : Tables)
  : list (string * string) :=
  omap (λ a,
          match find_participant (giver_participant_id a) (tg_participants t),
                find_participant (receiver_participant_id a) (tg_participants t)
          with
          | Some giver, Some receiver =>
              if String.eqb (JS.toLowerCase (name giver)) (JS.toLowerCase giver_name)
              then Some (name receiver, wishlist receiver) else None
          | _, _ => None
          end)
       (tg_assignments t).

Definition select_participant_exists (name' : string) (t : Tables) : list unit :=
  omap (λ row,
          if String.eqb (JS.toLowerCase (name row)) (JS.toLowerCase name')
          then Some () else None)
       (tg_participants t).

(** What a statement that succeeds does and returns. *)
Definition run (q : Statement) (db : Db) : Rows * Tables * option Tables :=
  let t := tables db in
  match q with
  | BEGIN =>
      (NoRows, t, match begun db with Some t0 => Some t0 | None => Some t end)
  | COMMIT => (NoRows, t, None)
  | ROLLBACK => (NoRows, default t (begun db), None)
  | TRUNCATE_groups => (NoRows, truncate_groups t, begun db)
  | TRUNCATE_all => (NoRows, truncate_all t, begun db)
  | INSERT_group group_name =>
      (GroupIdRows (next_group t), insert_group group_name t, begun db)
  | INSERT_member g p => (NoRows, insert_member g p t, begun db)
  | INSERT_assignment g a b => (NoRows, insert_assignment g a b t, begun db)
  | UPSERT_participant n w => (NoRows, upsert_participant n w t, begun db)
  | SELECT_assignment n => (ReceiverRows (select_assignment n t), t, begun db)
  | SELECT_participant_exists n =>
      (OneRows (select_participant_exists n t), t, begun db)
  | SELECT_participants_by_id =>
      (ParticipantRows ((λ row, (id row, name row)) <$> tg_participants t),
       t, begun db)
  end.

Definition store_error : string := "store error".

(** [client.query(q)] *)
Definition query (q : Statement) (db : Db) : result Rows * Db :=
  if faults db (length (log db)) then
    match q with
    | ROLLBACK =>
        (Throw store_error,
         mkDb (default (tables db) (begun db)) None (faults db)
              (log db ++ [(q, false)]))
    | _ =>
        (Throw store_error,
         mkDb (tables db) (begun db) (faults db) (log db ++ [(q, false)]))
    end
  else
    let '(rows, t, b) := run q db in
    (Ok rows, mkDb t b (faults db) (log db ++ [(q, true)])).

End Store.

Module Bot.

(** ** [shuffle] (bot.js 203-208) *)

(** [[array[i], array[j]] = [array[j], array[i]]]: both reads happen before
    both writes.  The indices are in range wherever [shuffle] calls it. *)
Definition swap {A} (array : list A) (i j : nat) : list A :=
  match array !! i, array !! j with
  | Some x, Some y => <[j := x]> (<[i := y]> array)
  | _, _ => array
  end.

(** The loop [for (let i = array.length - 1; i > 0; i--)], entered at [i]. *)
Fixpoint shuffle_from {A} (i : nat) (array : list A) (g : Rng) : list A * Rng :=
  match i with
  | O => (array, g)
  | S i' =>
      let (j, g') := randomInt 0 (i + 1) g in
      shuffle_from i' (swap array i j) g'
  end.

Definition shuffle {A} (array : list A) (g : Rng) : list A * Rng :=
  shuffle_from (length array - 1) array g.

(** ** [assignParticipantsToGroups] (bot.js 216-251) *)

(** [Array.prototype.slice(start, end)] for [0 <= start <= end]; the result
    is clamped to the array. *)
Definition slice {A} (array : list A) (startIndex endIndex : Z) : list A :=
  take (Z.to_nat endIndex - Z.to_nat startIndex) (drop (Z.to_nat startIndex) array).

Definition err_too_few_groups : string :=
  "Number of groups must be at least 1.".
Definition err_too_many_groups : string :=
  "Number of groups cannot exceed the number of participants.".

Section Grouping.
Variable participantsLength : Z.
Variable shuffledParticipants : list string.
Variable baseParticipantsPerGroup remainder : Z.

(** The loop [for (let i = 0; i < numGroups; i++)] with [todo] iterations
    left, at index [i]. *)
Fixpoint slice_groups (todo : nat) (i startIndex : Z)
         (groups : list (list string)) : list (list string) :=
  match todo with
  | O => groups
  | S todo' =>
      let groupSize := baseParticipantsPerGroup + (if i <? remainder then 1 else 0) in
      let groupSize :=
        if (groupSize =? 0) && (participantsLength >? 0) then 1 else groupSize in
      let group := slice shuffledParticipants startIndex (startIndex + groupSize) in
      let groups := if (0 <? length group)%nat then groups ++ [group] else groups in
      slice_groups todo' (i + 1) (startIndex + groupSize) groups
  end.
End Grouping.

Definition nonEmpty {A} (g : list A) : bool := (0 <? length g)%nat.

Definition assignParticipantsToGroups (participants : list string) (numGroups : Z)
           (g : Rng) : result (list (list string)) * Rng :=
  let P := Z.of_nat (length participants) in
  if (P =? 0) then (Ok [], g)
  else if numGroups <? 1 then (Throw err_too_few_groups, g)
  else if numGroups >? P then (Throw err_too_many_groups, g)
  else
    let (shuffledParticipants, g') := shuffle participants g in
    let baseParticipantsPerGroup := P / numGroups in
    let remainder := Z.rem P numGroups in
    let groups :=
      slice_groups P shuffledParticipants baseParticipantsPerGroup remainder
                   (Z.to_nat numGroups) 0 0 [] in
    (Ok (List.filter nonEmpty groups), g').

(** ** [isRestricted] (bot.js 260-271) *)

Fixpoint isRestricted (giver receiver : string) (restrictions : list (list string)) : bool :=
  match restrictions with
  | [] => false
  | pair' :: rest =>
      match pair' with
      | [p0; p1] =>
          if (String.eqb p0 giver && String.eqb p1 receiver)
             || (String.eqb p0 receiver && String.eqb p1 giver)
          then true
          else isRestricted giver receiver rest
      | _ => isRestricted giver receiver rest
      end
  end.

(** ** [assignSecretAngels] (bot.js 283-333) *)

Record Match : Type := mkMatch { giver : string; receiver : string }.

Definition maxRetries : nat := 100.

Section Matching.
Variable restrictions : list (list string).
Variable n : nat.
Variable shuffledGroup : list string.

(** The loop [for (let i = 0; i < n; i++)] with [todo] iterations left;
    [None] is [isValid = false] at the [break]. *)
Fixpoint potential_matches (todo i : nat) (potentialMatches : list Match)
  : option (list Match) :=
  match todo with
  | O => Some potentialMatches
  | S todo' =>
      match shuffledGroup !! i, shuffledGroup !! ((i + 1) mod n)%nat with
      | Some giver, Some receiver =>
          if String.eqb giver receiver then None
          else if isRestricted giver receiver restrictions then None
          else potential_matches todo' (S i)
                 (potentialMatches ++ [mkMatch giver receiver])
      | _, _ => None
      end
  end.
End Matching.

(** [group.join(', ')] *)
Fixpoint join (sep : string) (l : list string) : string :=
  match l with
  | [] => ""
  | [x] => x
  | x :: rest => (x ++ sep ++ join sep rest)%string
  end.

Definition err_no_assignment (group : list string) : string :=
  ("Could not find a valid assignment for group [" ++ join ", " group
   ++ "] respecting restrictions after 100 attempts. Please review restrictions or participants.")%string.

(** The loop [while (attempts < maxRetries)] with [maxRetries - attempts]
    iterations left. *)
Fixpoint attempt_loop (left : nat) (group : list string)
         (restrictions : list (list string)) (g : Rng) : result (list Match) * Rng :=
  match left with
  | O => (Throw (err_no_assignment group), g)
  | S left' =>
      let (shuffledGroup, g') := shuffle group g in
      match potential_matches restrictions (length group) shuffledGroup
              (length group) 0 [] with
      | Some potentialMatches => (Ok potentialMatches, g')
      | None => attempt_loop left' group restrictions g'
      end
  end.

Definition assignSecretAngels (group : list string) (restrictions : list (list string))
           (g : Rng) : result (list Match) * Rng :=
  if (length group <? 2)%nat then (Ok [], g)
  else attempt_loop maxRetries group restrictions g.

End Bot.

(** ** The message handler (bot.js 493-876)

    One inbound message is handled to its end before the next one; what
    the bot sends is recorded in [sent], with a constructor of [Message]
    for each message template of the source.  Logging is left out, and so
    are the command handlers registered with [bot.onText] (bot.js 346-488),
    which run beside this handler on the messages that match them. *)

Module Handler.

(** An entry of [userState]: a JavaScript object whose fields are set as
    the conversation goes on. *)
Record StateData : Type := mkStateData {
  state : string;
  name : option string;
  participantCount : option Z;
  participants : option (list (Z * string));   (* rows {id, name} *)
  numGroups : option Z
}.

Definition set_state_name (state' name' : string) (sd : StateData) : StateData :=
  mkStateData state' (Some name') (participantCount sd) (participants sd) (numGroups sd).
Definition set_state_numGroups (state' : string) (n : Z) (sd : StateData) : StateData :=
  mkStateData state' (name sd) (participantCount sd) (participants sd) (Some n).

(** A line of [assignmentsSummary]. *)
Inductive SummaryLine : Type :=
| GroupSkipped (groupName : string) (members : nat)
| GroupHeader (groupName : string) (members : nat)
| PairLine (giver receiver : string).

Inductive Message : Type :=
| TooQuickly
| InvalidName
| AskWishlist (name : string)
| RegisterError
| Registered (name : string) (wishlistSaved : bool)
| YourAssignment (name receiverName receiverWishlist : string)
| NoAssignmentYet (name : string)
| NotRegistered (name : string)
| LookupError
| ClearNotAdmin
| Cleared
| ClearFailed
| ClearCancelled
| NumGroupsNotAdmin
| InvalidNumGroups (participantCount : option Z)
| AskRestrictions (numGroups : Z)
| RestrictionsNotAdmin
| InvalidRestrictions
| Processing (numGroups : Z) (restrictionPairs : nat)
| MatchingFailed (groupNumber : Z) (groupNames : list string) (error : string)
| MatchingEmpty (groupNumber : Z)
| UnmappedParticipant (name : string)
| UnmappedAssignment
| GroupsCreated (groups : nat) (totalAssignments : Z) (summary : list SummaryLine)
| UnexpectedError (error : string)
| NotPositiveNumber
| TooManyGroups (numGroups : Z) (participantCount : option Z)
| CreatingGroups (numGroups : Z)
| GroupingNotImplemented
| GroupCreationError (error : string).

Record Msg : Type := mkMsg { chat_id : Z; from_id : Z; text : option string }.

Record World : Type := mkWorld {
  userState : gmap Z StateData;
  rateLimitStore : gmap Z RateLimit.UserData;
  db : Store.Db;
  rng : Rng;
  sent : list (Z * Message)
}.

(** *** Code with effects: a state and exception monad over [World] *)

Definition M (A : Type) : Type := World → result A * World.

#[global] Instance M_ret : MRet M := λ A a w, (Ok a, w).
#[global] Instance M_bind : MBind M := λ A B f m w,
  match m w with
  | (Ok a, w') => f a w'
  | (Throw e, w') => (Throw e, w')
  end.

Definition throw {A} (e : string) : M A := λ w, (Throw e, w).

(** [try { body } catch (error) { handler }] *)
Definition try_catch {A} (body : M A) (handler : string → M A) : M A := λ w,
  match body w with
  | (Ok a, w') => (Ok a, w')
  | (Throw e, w') => handler e w'
  end.

(** A call whose failure is handed to a callback as [err]. *)
Definition attempt {A} (body : M A) : M (result A) := λ w,
  match body w with
  | (r, w') => (Ok r, w')
  end.

Definition sendMessage (chatId : Z) (message : Message) : M unit := λ w,
  (Ok (), mkWorld (userState w) (rateLimitStore w) (db w) (rng w)
                  (sent w ++ [(chatId, message)])).

Definition get_state (chatId : Z) : M (option StateData) := λ w,
  (Ok (userState w !! chatId), w).

Definition put_state (chatId : Z) (sd : StateData) : M unit := λ w,
  (Ok (), mkWorld (<[chatId := sd]> (userState w)) (rateLimitStore w) (db w)
                  (rng w) (sent w)).

(** [delete userState[chatId]] *)
Definition delete_state (chatId : Z) : M unit := λ w,
  (Ok (), mkWorld (delete chatId (userState w)) (rateLimitStore w) (db w)
                  (rng w) (sent w)).

(** [await client.query(q)] *)
Definition query (q : Store.Statement) : M Store.Rows := λ w,
  match Store.query q (db w) with
  | (r, db') => (r, mkWorld (userState w) (rateLimitStore w) db' (rng w) (sent w))
  end.

(** A call that draws from the random source. *)
Definition draw {A} (f : Rng → A * Rng) : M A := λ w,
  match f (rng w) with
  | (a, g') => (Ok a, mkWorld (userState w) (rateLimitStore w) (db w) g' (sent w))
  end.

Definition isRateLimited (now userId : Z) : M bool := λ w,
  match RateLimit.isRateLimited now userId (rateLimitStore w) with
  | (limited, store') =>
      (Ok limited, mkWorld (userState w) store' (db w) (rng w) (sent w))
  end.

(** A field that the bot has set by the time it reads it.  The model does
    not follow JavaScript into an entry that lacks it: the handler ends
    there with an error. *)
Definition field {A} (what : string) (o : option A) : M A :=
  match o with
  | Some a => mret a
  | None => throw ("undefined " +:+ what)
  end.

Definition type_error : string := "TypeError".

(** The order in which the [else if] chain of bot.js 522-874 tests
    [state]; the last test repeats the fifth. *)
Inductive Branch : Type :=
| BranchName
| BranchWishlist
| BranchNameForAssignment
| BranchClearConfirmation
| BranchNumGroups
| BranchRestrictions
| BranchNumGroupsAgain
| BranchNone.

Definition branch_of (state : string) : Branch :=
  if String.eqb state "awaiting_name" then BranchName
  else if String.eqb state "awaiting_wishlist" then BranchWishlist
  else if String.eqb state "awaiting_name_for_assignment" then BranchNameForAssignment
  else if String.eqb state "awaiting_clear_confirmation" then BranchClearConfirmation
  else if String.eqb state "awaiting_num_groups" then BranchNumGroups
  else if String.eqb state "awaiting_restrictions" then BranchRestrictions
  else if String.eqb state "awaiting_num_groups" then BranchNumGroupsAgain
  else BranchNone.

(** [new Map(participants.map(p => [p.name, p.id]))]: a later row replaces
    an earlier one of the same name. *)
Definition participant_map (participants : list (Z * string)) : gmap string Z :=
  foldl (λ m p, <[p.2 := p.1]> m) ∅ participants.

Definition group_label (i : Z) : string := "Secret Angel Group " +:+ pretty (i + 1).

(** The local variables of the group loop that outlive an iteration. *)
Record Progress : Type := mkProgress {
  assignmentsSummary : list SummaryLine;
  totalAssignments : Z;
  allGroupsProcessedSuccessfully : bool
}.

Definition failed (p : Progress) : Progress :=
  mkProgress (assignmentsSummary p) (totalAssignments p) false.
Definition add_line (l : SummaryLine) (p : Progress) : Progress :=
  mkProgress (assignmentsSummary p ++ [l]) (totalAssignments p)
             (allGroupsProcessedSuccessfully p).
Definition add_assignment (l : SummaryLine) (p : Progress) : Progress :=
  mkProgress (assignmentsSummary p ++ [l]) (totalAssignments p + 1)
             (allGroupsProcessedSuccessfully p).

Section Orchestration.
Variable chatId : Z.
Variable participantMap : gmap string Z.
Variable restrictions : list (list string).

(** [for (const name of groupNames)] (bot.js 725-735); [false] is the
    [break] with [allGroupsProcessedSuccessfully = false]. *)
Fixpoint insert_members (groupId : Z) (groupNames : list string) : M bool :=
  match groupNames with
  | [] => mret true
  | name :: rest =>
      match participantMap !! name with
      | None =>
          _ ← query Store.ROLLBACK;
          _ ← sendMessage chatId (UnmappedParticipant name);
          mret false
      | Some participantId =>
          _ ← query (Store.INSERT_member groupId participantId);
          insert_members groupId rest
      end
  end.

(** [for (const match of matches)] (bot.js 739-752) *)
Fixpoint insert_assignments (groupId : Z) (matches : list Bot.Match)
         (p : Progress) : M Progress :=
  match matches with
  | [] => mret p
  | m :: rest =>
      match participantMap !! Bot.giver m, participantMap !! Bot.receiver m with
      | Some giverId, Some receiverId =>
          _ ← query (Store.INSERT_assignment groupId giverId receiverId);
          insert_assignments groupId rest
            (add_assignment (PairLine (Bot.giver m) (Bot.receiver m)) p)
      | _, _ =>
          _ ← query Store.ROLLBACK;
          _ ← sendMessage chatId UnmappedAssignment;
          mret (failed p)
      end
  end.

(** [for (let i = 0; i < createdGroupsByName.length; i++)]
    (bot.js 683-755), at index [i] with [groups] left. *)
Fixpoint process_groups (groups : list (list string)) (i : Z) (p : Progress)
  : M Progress :=
  match groups with
  | [] => mret p
  | groupNames :: rest =>
      let groupName := group_label i in
      if (length groupNames <? 2)%nat then
        process_groups rest (i + 1)
          (add_line (GroupSkipped groupName (length groupNames)) p)
      else
        let p := add_line (GroupHeader groupName (length groupNames)) p in
        r ← draw (Bot.assignSecretAngels groupNames restrictions);
        match r with
        | Throw matchError =>
            _ ← query Store.ROLLBACK;
            _ ← sendMessage chatId (MatchingFailed (i + 1) groupNames matchError);
            mret (failed p)
        | Ok matches =>
            if (length matches =? 0)%nat && (2 <=? length groupNames)%nat then
              _ ← query Store.ROLLBACK;
              _ ← sendMessage chatId (MatchingEmpty (i + 1));
              mret (failed p)
            else
              rows ← query (Store.INSERT_group groupName);
              groupId ← match rows with
                        | Store.GroupIdRows groupId => mret groupId
                        | _ => throw type_error
                        end;
              members_ok ← insert_members groupId groupNames;
              if negb members_ok then mret (failed p)
              else
                p ← insert_assignments groupId matches p;
                if negb (allGroupsProcessedSuccessfully p) then mret p
                else process_groups rest (i + 1) p
        end
  end.
End Orchestration.

(** The [try] block of bot.js 670-767. *)
Definition create_groups_try (chatId : Z) (participantNames : list string)
           (participantMap : gmap string Z) (numGroups : Z)
           (restrictions : list (list string)) : M unit :=
  _ ← query Store.BEGIN;
  _ ← query Store.TRUNCATE_groups;
  r ← draw (Bot.assignParticipantsToGroups participantNames numGroups);
  createdGroupsByName ← match r with
                        | Ok groups => mret groups
                        | Throw e => throw e
                        end;
  p ← process_groups chatId participantMap restrictions createdGroupsByName 0
        (mkProgress [] 0 true);
  if allGroupsProcessedSuccessfully p then
    _ ← query Store.COMMIT;
    sendMessage chatId
      (GroupsCreated (length createdGroupsByName) (totalAssignments p)
                     (assignmentsSummary p))
  else mret ().

(** Group creation and assignment, bot.js 669-776: the [try], its [catch]
    and the final [delete]. *)
Definition create_groups (chatId : Z) (participantNames : list string)
           (participantMap : gmap string Z) (numGroups : Z)
           (restrictions : list (list string)) : M unit :=
  _ ← try_catch
        (create_groups_try chatId participantNames participantMap numGroups
                           restrictions)
        (λ error,
           _ ← try_catch (_ ← query Store.ROLLBACK; mret ()) (λ rbError, mret ());
           sendMessage chatId (UnexpectedError error));
  delete_state chatId.

Section OnMessage.
(** [parseInt(adminIdString || '0', 10)]; [None] is [NaN]. *)
Variable ADMIN_USER_ID : option Z.

Definition isAdmin (userId : Z) : bool :=
  match ADMIN_USER_ID with
  | None => false
  | Some adminId => if adminId =? 0 then false else userId =? adminId
  end.

Definition on_awaiting_name (chatId : Z) (text : option string)
           (stateData : StateData) : M unit :=
  match Security.validateName text with
  | None => sendMessage chatId InvalidName
  | Some sanitizedName =>
      _ ← put_state chatId (set_state_name "awaiting_wishlist" sanitizedName stateData);
      sendMessage chatId (AskWishlist sanitizedName)
  end.

(** bot.js 534-557.  [text.toLowerCase()] throws when the message has no
    text.  The query reports to a callback, which clears the state. *)
Definition on_awaiting_wishlist (chatId : Z) (text : option string)
           (stateData : StateData) : M unit :=
  name ← field "name" (name stateData);
  text' ← match text with
          | Some t => mret t
          | None => throw type_error
          end;
  let sanitizedWishlist :=
    if negb (String.eqb (JS.toLowerCase text') "skip")
    then Security.validateWishlist text else "" in
  err ← attempt (query (Store.UPSERT_participant name sanitizedWishlist));
  _ ← match err with
      | Throw _ => sendMessage chatId RegisterError
      | Ok _ =>
          sendMessage chatId
            (Registered name (negb (String.eqb sanitizedWishlist "")))
      end;
  delete_state chatId.

Definition on_awaiting_name_for_assignment (chatId : Z) (text : option string)
  : M unit :=
  match Security.validateName text with
  | None => sendMessage chatId InvalidName
  | Some sanitizedName =>
      _ ← try_catch
            (result ← query (Store.SELECT_assignment sanitizedName);
             match result with
             | Store.ReceiverRows ((receiverName, receiverWishlist) :: _) =>
                 sendMessage chatId
                   (YourAssignment sanitizedName receiverName
                      (if String.eqb receiverWishlist ""
                       then "No wishlist provided." else receiverWishlist))
             | _ =>
                 participantCheck ← query (Store.SELECT_participant_exists sanitizedName);
                 match participantCheck with
                 | Store.OneRows (_ :: _) =>
                     sendMessage chatId (NoAssignmentYet sanitizedName)
                 | _ => sendMessage chatId (NotRegistered sanitizedName)
                 end
             end)
            (λ error, sendMessage chatId LookupError);
      delete_state chatId
  end.

Definition on_awaiting_clear_confirmation (chatId userId : Z)
           (text : option string) : M unit :=
  if negb (isAdmin userId) then
    _ ← sendMessage chatId ClearNotAdmin;
    delete_state chatId
  else
    _ ← (if match text with
            | Some t => negb (String.eqb t "") && String.eqb (JS.toLowerCase t) "yes"
            | None => false
            end
         then
           try_catch
             (_ ← query Store.TRUNCATE_all; sendMessage chatId Cleared)
             (λ error, sendMessage chatId ClearFailed)
         else sendMessage chatId ClearCancelled);
    delete_state chatId.

Definition on_awaiting_num_groups (chatId userId : Z) (text : option string)
           (stateData : StateData) : M unit :=
  if negb (isAdmin userId) then
    _ ← sendMessage chatId NumGroupsNotAdmin;
    delete_state chatId
  else
    match Security.validateNumber text 1 (participantCount stateData) with
    | None => sendMessage chatId (InvalidNumGroups (participantCount stateData))
    | Some numGroups =>
        _ ← put_state chatId
              (set_state_numGroups "awaiting_restrictions" numGroups stateData);
        sendMessage chatId (AskRestrictions numGroups)
    end.

Definition on_awaiting_restrictions (chatId userId : Z) (text : option string)
           (stateData : StateData) : M unit :=
  if negb (isAdmin userId) then
    _ ← sendMessage chatId RestrictionsNotAdmin;
    delete_state chatId
  else
    participants ← field "participants" (participants stateData);
    let participantNames := snd <$> participants in
    let participantMap := participant_map participants in
    numGroups ← field "numGroups" (numGroups stateData);
    match Security.validateRestrictionsInput text participantNames with
    | None => sendMessage chatId InvalidRestrictions
    | Some restrictions =>
        _ ← sendMessage chatId (Processing numGroups (length restrictions));
        _ ← delete_state chatId;
        create_groups chatId participantNames participantMap numGroups restrictions
    end.

(** The second [awaiting_num_groups] branch, bot.js 777-874, up to the
    [return] that precedes its unfinished part. *)
Definition on_awaiting_num_groups_again (chatId userId : Z)
           (text : option string) (stateData : StateData) : M unit :=
  if negb (isAdmin userId) then
    _ ← sendMessage chatId NumGroupsNotAdmin;
    delete_state chatId
  else
    text' ← match text with
            | Some t => mret t
            | None => throw type_error
            end;
    match JS.parseInt (Some (JS.trim text')) with
    | None => sendMessage chatId NotPositiveNumber
    | Some numGroups =>
        if numGroups <=? 0 then sendMessage chatId NotPositiveNumber
        else if match participantCount stateData with
                | Some participantCount => numGroups >? participantCount
                | None => false
                end
        then sendMessage chatId (TooManyGroups numGroups (participantCount stateData))
        else
          _ ← sendMessage chatId (CreatingGroups numGroups);
          _ ← delete_state chatId;
          try_catch
            (_ ← query Store.SELECT_participants_by_id;
             _ ← sendMessage chatId GroupingNotImplemented;
             _ ← query Store.ROLLBACK;
             mret ())
            (λ error,
               _ ← query Store.ROLLBACK;
               sendMessage chatId (GroupCreationError error))
    end.

(** The [else if] chain of bot.js 522-874, with the body of its last
    branch as [again]. *)
Definition dispatch (again : Z → Z → option string → StateData → M unit)
           (chatId userId : Z) (text : option string) (stateData : StateData)
  : M unit :=
  match branch_of (state stateData) with
  | BranchName => on_awaiting_name chatId text stateData
  | BranchWishlist => on_awaiting_wishlist chatId text stateData
  | BranchNameForAssignment => on_awaiting_name_for_assignment chatId text
  | BranchClearConfirmation => on_awaiting_clear_confirmation chatId userId text
  | BranchNumGroups => on_awaiting_num_groups chatId userId text stateData
  | BranchRestrictions => on_awaiting_restrictions chatId userId text stateData
  | BranchNumGroupsAgain => again chatId userId text stateData
  | BranchNone => mret ()
  end.

(** [bot.on('message', ...)] (bot.js 493-876); [now] is the time at which
    the rate limiter reads the clock. *)
Definition on_message_with (again : Z → Z → option string → StateData → M unit)
           (now : Z) (msg : Msg) : M unit :=
  let chatId := chat_id msg in
  let text := text msg in
  let userId := from_id msg in
  limited ← isRateLimited now userId;
  if (limited : bool) then sendMessage chatId TooQuickly
  else if match text with
          | Some t => JS.startsWith t "/"
          | None => false
          end
  then
    entry ← get_state chatId;
    match entry with
    | Some _ => delete_state chatId
    | None => mret ()
    end
  else
    entry ← get_state chatId;
    match entry with
    | None => mret ()
    | Some stateData => dispatch again chatId userId text stateData
    end.

Definition on_message : Z → Msg → M unit :=
  on_message_with on_awaiting_num_groups_again.
End OnMessage.

End Handler.

(** * Handlers that share the connection

    Every handler issues its statements on the one [client] of bot.js 65.
    A handler runs without interruption until it waits for a statement
    ([await client.query], or a query that reports to a callback); while
    it waits, the handlers of other messages run and issue statements of
    their own on the same connection.  The connection executes the
    statements in the order in which they were issued. *)

Module Async.
Import Handler.

(** A handler in progress: finished, about to do something that does not
    wait, or about to issue a statement and wait for its result. *)
Inductive Task (A : Type) : Type :=
| Ret (r : result A)
| Act {B : Type} (m : M B) (k : result B → Task A)
| Await (q : Store.Statement) (k : result Store.Rows → Task A).
Arguments Ret {A} r.
Arguments Act {A B} m k.
Arguments Await {A} q k.

Fixpoint bind {A B} (t : Task A) (f : A → Task B) : Task B :=
  match t with
  | Ret (Ok a) => f a
  | Ret (Throw e) => Ret (Throw e)
  | Act m k => Act m (λ r, bind (k r) f)
  | Await q k => Await q (λ r, bind (k r) f)
  end.

#[global] Instance Task_ret : MRet Task := λ A a, Ret (Ok a).
#[global] Instance Task_bind : MBind Task := λ A B f t, bind t f.

Definition raise {A} (e : string) : Task A := Ret (Throw e).

(** [try { body } catch (error) { handler }] *)
Fixpoint try_catch {A} (body : Task A) (handler : string → Task A) : Task A :=
  match body with
  | Ret (Ok a) => Ret (Ok a)
  | Ret (Throw e) => handler e
  | Act m k => Act m (λ r, try_catch (k r) handler)
  | Await q k => Await q (λ r, try_catch (k r) handler)
  end.

(** A call whose failure is handed to a callback as [err]. *)
Fixpoint attempt {A} (body : Task A) : Task (result A) :=
  match body with
  | Ret r => Ret (Ok r)
  | Act m k => Act m (λ r, attempt (k r))
  | Await q k => Await q (λ r, attempt (k r))
  end.

(** Code that does not wait: sending, drawing, reading and writing the
    conversation state. *)
Definition act {B} (m : M B) : Task B := Act m Ret.

(** [await client.query(q)] *)
Definition await (q : Store.Statement) : Task Store.Rows := Await q Ret.

Definition field {A} (what : string) (o : option A) : Task A :=
  match o with
  | Some a => mret a
  | None => raise ("undefined " +:+ what)
  end.

(** The handler when nothing else uses the connection meanwhile. *)
Fixpoint run {A} (t : Task A) (w : World) : result A * World :=
  match t with
  | Ret r => (r, w)
  | Act m k => let '(r, w') := m w in run (k r) w'
  | Await q k => let '(r, w') := query q w in run (k r) w'
  end.

(** One turn of a handler: it goes on until it has issued its next
    statement, which the connection executes behind those issued before
    it, or until it ends.  What is left is the handler as it will go on
    once the result is there. *)
Fixpoint turn {A} (t : Task A) (w : World) : Task A * World :=
  match t with
  | Ret r => (Ret r, w)
  | Act m k => let '(r, w') := m w in turn (k r) w'
  | Await q k => let '(r, w') := query q w in (k r, w')
  end.

Definition finished {A} (t : Task A) : bool :=
  match t with
  | Ret _ => true
  | _ => false
  end.

(** What happens next in the process: a message arrives and its handler
    starts, or the result of the oldest outstanding statement arrives and
    the handler that waits for it goes on. *)
Inductive Event : Type :=
| Arrival (handler : Task unit)
| Completion.

(** The handlers that wait, the one whose statement was issued first at
    the head. *)
Definition Waiting : Type := list (Task unit).

Definition settle (t : Task unit) (w : World) (others : Waiting) : Waiting * World :=
  match turn t w with
  | (t', w') => (if finished t' then others else others ++ [t'], w')
  end.

Definition step (e : Event) (c : Waiting * World) : Waiting * World :=
  match e, c with
  | Arrival t, (waiting, w) => settle t w waiting
  | Completion, (t :: waiting, w) => settle t w waiting
  | Completion, ([], w) => ([], w)
  end.

Definition steps (events : list Event) (c : Waiting * World) : Waiting * World :=
  foldl (λ c e, step e c) c events.

(** ** The handlers of [bot.on('message')], statement by statement *)

Section Orchestration.
Variable chatId : Z.
Variable participantMap : gmap string Z.
Variable restrictions : list (list string).

Fixpoint insert_members (groupId : Z) (groupNames : list string) : Task bool :=
  match groupNames with
  | [] => mret true
  | name :: rest =>
      match participantMap !! name with
      | None =>
          _ ← await Store.ROLLBACK;
          _ ← act (sendMessage chatId (UnmappedParticipant name));
          mret false
      | Some participantId =>
          _ ← await (Store.INSERT_member groupId participantId);
          insert_members groupId rest
      end
  end.

Fixpoint insert_assignments (groupId : Z) (matches : list Bot.Match)
         (p : Progress) : Task Progress :=
  match matches with
  | [] => mret p
  | m :: rest =>
      match participantMap !! Bot.giver m, participantMap !! Bot.receiver m with
      | Some giverId, Some receiverId =>
          _ ← await (Store.INSERT_assignment groupId giverId receiverId);
          insert_assignments groupId rest
            (add_assignment (PairLine (Bot.giver m) (Bot.receiver m)) p)
      | _, _ =>
          _ ← await Store.ROLLBACK;
          _ ← act (sendMessage chatId UnmappedAssignment);
          mret (failed p)
      end
  end.

Fixpoint process_groups (groups : list (list string)) (i : Z) (p : Progress)
  : Task Progress :=
  match groups with
  | [] => mret p
  | groupNames :: rest =>
      let groupName := group_label i in
      if (length groupNames <? 2)%nat then
        process_groups rest (i + 1)
          (add_line (GroupSkipped groupName (length groupNames)) p)
      else
        let p := add_line (GroupHeader groupName (length groupNames)) p in
        r ← act (draw (Bot.assignSecretAngels groupNames restrictions));
        match r with
        | Throw matchError =>
            _ ← await Store.ROLLBACK;
            _ ← act (sendMessage chatId (MatchingFailed (i + 1) groupNames matchError));
            mret (failed p)
        | Ok matches =>
            if (length matches =? 0)%nat && (2 <=? length groupNames)%nat then
              _ ← await Store.ROLLBACK;
              _ ← act (sendMessage chatId (MatchingEmpty (i + 1)));
              mret (failed p)
            else
              rows ← await (Store.INSERT_group groupName);
              groupId ← match rows with
                        | Store.GroupIdRows groupId => mret groupId
                        | _ => raise type_error
                        end;
              members_ok ← insert_members groupId groupNames;
              if negb members_ok then mret (failed p)
              else
                p ← insert_assignments groupId matches p;
                if negb (allGroupsProcessedSuccessfully p) then mret p
                else process_groups rest (i + 1) p
        end
  end.
End Orchestration.

Definition create_groups_try (chatId : Z) (participantNames : list string)
           (participantMap : gmap string Z) (numGroups : Z)
           (restrictions : list (list string)) : Task unit :=
  _ ← await Store.BEGIN;
  _ ← await Store.TRUNCATE_groups;
  r ← act (draw (Bot.assignParticipantsToGroups participantNames numGroups));
  createdGroupsByName ← match r with
                        | Ok groups => mret groups
                        | Throw e => raise e
                        end;
  p ← process_groups chatId participantMap restrictions createdGroupsByName 0
        (mkProgress [] 0 true);
  if allGroupsProcessedSuccessfully p then
    _ ← await Store.COMMIT;
    act (sendMessage chatId
           (GroupsCreated (length createdGroupsByName) (totalAssignments p)
                          (assignmentsSummary p)))
  else mret ().

Definition create_groups (chatId : Z) (participantNames : list string)
           (participantMap : gmap string Z) (numGroups : Z)
           (restrictions : list (list string)) : Task unit :=
  _ ← try_catch
        (create_groups_try chatId participantNames participantMap numGroups
                           restrictions)
        (λ error,
           _ ← try_catch (_ ← await Store.ROLLBACK; mret ()) (λ rbError, mret ());
           act (sendMessage chatId (UnexpectedError error)));
  act (delete_state chatId).

Section OnMessage.
Variable ADMIN_USER_ID : option Z.

Definition on_awaiting_wishlist (chatId : Z) (text : option string)
           (stateData : StateData) : Task unit :=
  name ← field "name" (name stateData);
  text' ← match text with
          | Some t => mret t
          | None => raise type_error
          end;
  let sanitizedWishlist :=
    if negb (String.eqb (JS.toLowerCase text') "skip")
    then Security.validateWishlist text else "" in
  err ← attempt (await (Store.UPSERT_participant name sanitizedWishlist));
  _ ← match err with
      | Throw _ => act (sendMessage chatId RegisterError)
      | Ok _ =>
          act (sendMessage chatId
                 (Registered name (negb (String.eqb sanitizedWishlist ""))))
      end;
  act (delete_state chatId).

Definition on_awaiting_name_for_assignment (chatId : Z) (text : option string)
  : Task unit :=
  match Security.validateName text with
  | None => act (sendMessage chatId InvalidName)
  | Some sanitizedName =>
      _ ← try_catch
            (result ← await (Store.SELECT_assignment sanitizedName);
             match result with
             | Store.ReceiverRows ((receiverName, receiverWishlist) :: _) =>
                 act (sendMessage chatId
                        (YourAssignment sanitizedName receiverName
                           (if String.eqb receiverWishlist ""
                            then "No wishlist provided." else receiverWishlist)))
             | _ =>
                 participantCheck ← await (Store.SELECT_participant_exists sanitizedName);
                 match participantCheck with
                 | Store.OneRows (_ :: _) =>
                     act (sendMessage chatId (NoAssignmentYet sanitizedName))
                 | _ => act (sendMessage chatId (NotRegistered sanitizedName))
                 end
             end)
            (λ error, act (sendMessage chatId LookupError));
      act (delete_state chatId)
  end.

Definition on_awaiting_clear_confirmation (chatId userId : Z)
           (text : option string) : Task unit :=
  if negb (isAdmin ADMIN_USER_ID userId) then
    _ ← act (sendMessage chatId ClearNotAdmin);
    act (delete_state chatId)
  else
    _ ← (if match text with
            | Some t => negb (String.eqb t "") && String.eqb (JS.toLowerCase t) "yes"
            | None => false
            end
         then
           try_catch
             (_ ← await Store.TRUNCATE_all; act (sendMessage chatId Cleared))
             (λ error, act (sendMessage chatId ClearFailed))
         else act (sendMessage chatId ClearCancelled));
    act (delete_state chatId).

Definition on_awaiting_restrictions (chatId userId : Z) (text : option string)
           (stateData : StateData) : Task unit :=
  if negb (isAdmin ADMIN_USER_ID userId) then
    _ ← act (sendMessage chatId RestrictionsNotAdmin);
    act (delete_state chatId)
  else
    participants ← field "participants" (participants stateData);
    let participantNames := snd <$> participants in
    let participantMap := participant_map participants in
    numGroups ← field "numGroups" (numGroups stateData);
    match Security.validateRestrictionsInput text participantNames with
    | None => act (sendMessage chatId InvalidRestrictions)
    | Some restrictions =>
        _ ← act (sendMessage chatId (Processing numGroups (length restrictions)));
        _ ← act (delete_state chatId);
        create_groups chatId participantNames participantMap numGroups restrictions
    end.

Definition on_awaiting_num_groups_again (chatId userId : Z)
           (text : option string) (stateData : StateData) : Task unit :=
  if negb (isAdmin ADMIN_USER_ID userId) then
    _ ← act (sendMessage chatId NumGroupsNotAdmin);
    act (delete_state chatId)
  else
    text' ← match text with
            | Some t => mret t
            | None => raise type_error
            end;
    match JS.parseInt (Some (JS.trim text')) with
    | None => act (sendMessage chatId NotPositiveNumber)
    | Some numGroups =>
        if numGroups <=? 0 then act (sendMessage chatId NotPositiveNumber)
        else if match participantCount stateData with
                | Some participantCount => numGroups >? participantCount
                | None => false
                end
        then act (sendMessage chatId (TooManyGroups numGroups (participantCount stateData)))
        else
          _ ← act (sendMessage chatId (CreatingGroups numGroups));
          _ ← act (delete_state chatId);
          try_catch
            (_ ← await Store.SELECT_participants_by_id;
             _ ← act (sendMessage chatId GroupingNotImplemented);
             _ ← await Store.ROLLBACK;
             mret ())
            (λ error,
               _ ← await Store.ROLLBACK;
               act (sendMessage chatId (GroupCreationError error)))
    end.

(** The [else if] chain; the branches that never wait are those of
    [Handler]. *)
Definition dispatch (chatId userId : Z) (text : option string)
           (stateData : StateData) : Task unit :=
  match branch_of (state stateData) with
  | BranchName => act (Handler.on_awaiting_name chatId text stateData)
  | BranchWishlist => on_awaiting_wishlist chatId text stateData
  | BranchNameForAssignment => on_awaiting_name_for_assignment chatId text
  | BranchClearConfirmation => on_awaiting_clear_confirmation chatId userId text
  | BranchNumGroups =>
      act (Handler.on_awaiting_num_groups ADMIN_USER_ID chatId userId text stateData)
  | BranchRestrictions => on_awaiting_restrictions chatId userId text stateData
  | BranchNumGroupsAgain => on_awaiting_num_groups_again chatId userId text stateData
  | BranchNone => mret ()
  end.

(** [bot.on('message', ...)] (bot.js 493-876) *)
Definition on_message (now : Z) (msg : Msg) : Task unit :=
  let chatId := chat_id msg in
  let text := text msg in
  let userId := from_id msg in
  limited ← act (isRateLimited now userId);
  if (limited : bool) then act (sendMessage chatId TooQuickly)
  else if match text with
          | Some t => JS.startsWith t "/"
          | None => false
          end
  then
    entry ← act (get_state chatId);
    match entry with
    | Some _ => act (delete_state chatId)
    | None => mret ()
    end
  else
    entry ← act (get_state chatId);
    match entry with
    | None => mret ()
    | Some stateData => dispatch chatId userId text stateData
    end.
End OnMessage.

End Async.

(** * Properties of restriction parsing *)

Module SecurityFacts.
Import Security.

(** The lines that carry a pair: the trimmed input, split at line breaks,
    each line trimmed, blank lines dropped. *)
Definition pair_lines (input : string) : list string :=
  filter (λ line, line ≠ "") (JS.trim <$> JS.split JS.newline (JS.trim input)).

(** The comma-separated pieces of a line, each trimmed. *)
Definition names_of (line : string) : list string :=
  JS.trim <$> JS.split "," line.

(** [line] yields the restriction [pair']: two non-empty trimmed names,
    both on the roster, not the same name. *)
Definition yields (roster : list string) (line : string) (pair' : list string) : Prop :=
  ∃ a b, names_of line = [a; b] ∧ pair' = [a; b] ∧
         a ≠ "" ∧ b ≠ "" ∧ a ∈ roster ∧ b ∈ roster ∧ a ≠ b.

(** The three ways a line is rejected. *)
Definition malformed (line : string) : Prop :=
  ¬ ∃ a b, names_of line = [a; b] ∧ a ≠ "" ∧ b ≠ "".
Definition unknown_name (roster : list string) (line : string) : Prop :=
  ∃ a b, names_of line = [a; b] ∧ (a ∉ roster ∨ b ∉ roster).
Definition self_pair (line : string) : Prop :=
  ∃ a, names_of line = [a; a].

Definition rejected (roster : list string) (line : string) : Prop :=
  malformed line ∨ unknown_name roster line ∨ self_pair line.

Lemma includes_spec (l : list string) (x : string) :
  JS.includes l x = true ↔ x ∈ l.
Proof.
  unfold JS.includes. rewrite existsb_exists. split.
  - intros (y & Hy & Heq). apply String.eqb_eq in Heq. subst.
    by apply list_elem_of_In.
  - intros Hx. exists x. split; [by apply list_elem_of_In|apply String.eqb_refl].
Qed.

Lemma yields_not_rejected roster line pair' :
  yields roster line pair' → ¬ rejected roster line.
Proof.
  intros (a & b & Hn & -> & Ha & Hb & Hra & Hrb & Hab) [Hm|[Hu|Hs]].
  - apply Hm. by exists a, b.
  - destruct Hu as (a' & b' & Hn' & Hu). rewrite Hn in Hn'. simplify_eq. tauto.
  - destruct Hs as (a' & Hn'). rewrite Hn in Hn'. simplify_eq.
Qed.

Lemma yields_functional roster line p q :
  yields roster line p → yields roster line q → p = q.
Proof.
  intros (a & b & Hn & -> & _) (a' & b' & Hn' & -> & _). congruence.
Qed.

(** What the checks on one non-blank line amount to. *)
Lemma validate_lines_step roster line rest acc :
  JS.trim line ≠ "" →
  (yields roster (JS.trim line) (names_of (JS.trim line)) ∧
   validate_lines (line :: rest) roster acc
   = validate_lines rest roster (acc ++ [names_of (JS.trim line)]))
  ∨ (rejected roster (JS.trim line) ∧
     validate_lines (line :: rest) roster acc = None).
Proof.
  intros Hnb. cbn [validate_lines].
  destruct (String.eqb_spec (JS.trim line) "") as [?|_]; [done|].
  fold (names_of (JS.trim line)).
  destruct (names_of (JS.trim line)) as [|a [|b [|c l]]] eqn:Hn;
    try (right; split; [left; intros (?&?&?&_); congruence|done]).
  cbn [length Nat.eqb negb orb existsb lookup list_lookup].
  destruct (String.eqb_spec a "") as [->|Ha].
  { right. split; [|done]. left. intros (?&?&?&?&?). congruence. }
  destruct (String.eqb_spec b "") as [->|Hb].
  { right. split; [|done]. left. intros (?&?&?&?&?). congruence. }
  cbn [orb].
  destruct (JS.includes roster a) eqn:Hia; cbn [negb orb].
  2:{ right. split; [|done]. right. left. exists a, b. split; [done|]. left.
      rewrite <-includes_spec. congruence. }
  destruct (JS.includes roster b) eqn:Hib; cbn [negb].
  2:{ right. split; [|done]. right. left. exists a, b. split; [done|]. right.
      rewrite <-includes_spec. congruence. }
  destruct (String.eqb_spec a b) as [->|Hab].
  { right. split; [|done]. right. right. by exists b. }
  left. split; [|done].
  exists a, b. apply includes_spec in Hia, Hib. by split_and!.
Qed.

Lemma validate_lines_spec roster lines acc :
  (∀ res, validate_lines lines roster acc = Some res ↔
     ∃ pairs, res = acc ++ pairs ∧
       Forall2 (yields roster) (filter (λ l, l ≠ "") (JS.trim <$> lines)) pairs)
  ∧ (validate_lines lines roster acc = None ↔
     Exists (rejected roster) (filter (λ l, l ≠ "") (JS.trim <$> lines))).
Proof.
  revert acc. induction lines as [|line rest IH]; intros acc.
  { simpl. split.
    - intros res. split.
      + intros [= <-]. exists []. by rewrite app_nil_r.
      + intros (pairs & -> & Hf). inversion Hf. by rewrite app_nil_r.
    - split; [done|]. intros H. inversion H. }
  rewrite fmap_cons, filter_cons.
  destruct (decide (JS.trim line ≠ "")) as [Hnb|Hb].
  - destruct (validate_lines_step roster line rest acc Hnb)
      as [[Hy ->]|[Hrej ->]].
    + destruct (IH (acc ++ [names_of (JS.trim line)])) as [IHs IHn]. split.
      * intros res. rewrite IHs. split.
        -- intros (pairs & -> & Hf). exists (names_of (JS.trim line) :: pairs).
           split; [by rewrite <-app_assoc|by constructor].
        -- intros (pairs & -> & Hf). inversion Hf as [|? p ? ps Hp Hps]; subst.
           exists ps. split; [|done].
           rewrite (yields_functional _ _ _ _ Hp Hy). by rewrite <-app_assoc.
      * rewrite IHn, Exists_cons. split; [tauto|].
        intros [Hr|?]; [|done]. by destruct (yields_not_rejected _ _ _ Hy).
    + split.
      * intros res. split; [done|].
        intros (pairs & _ & Hf). inversion Hf as [|? p ? ps Hp Hps]; subst.
        by destruct (yields_not_rejected _ _ _ Hp).
      * rewrite Exists_cons. tauto.
  - assert (JS.trim line = "") as He by (by destruct (decide (JS.trim line = ""))).
    cbn [validate_lines]. rewrite He. simpl. apply IH.
Qed.

(** *** The primitives and validators on small inputs *)

Example split_keeps_empty_pieces : JS.split "," "a,,b," = ["a"; ""; "b"; ""].
Proof. reflexivity. Qed.

Example trim_both_ends :
  JS.trim (String JS.newline "  a b  ") = "a b".
Proof. reflexivity. Qed.

Example parseInt_prefix :
  JS.parseInt (Some " 3abc") = Some 3 ∧ JS.parseInt (Some "-5") = Some (-5) ∧
  JS.parseInt (Some "abc") = None ∧ JS.parseInt None = None.
Proof. by split_and!. Qed.

Example validateNumber_range :
  validateNumber (Some "3") 1 (Some 5) = Some 3 ∧
  validateNumber (Some "6") 1 (Some 5) = None ∧
  validateNumber (Some "0") 1 (Some 5) = None.
Proof. by split_and!. Qed.

Example validateName_cases :
  validateName (Some "  Mary-Jane ") = Some "Mary-Jane" ∧
  validateName (Some "<b>") = None ∧
  validateName (Some "   ") = None ∧
  validateName None = None.
Proof. by split_and!. Qed.

Example validateWishlist_escapes :
  validateWishlist (Some " socks <3 ") = "socks &lt;3".
Proof. reflexivity. Qed.

Example restrictions_two_lines :
  validateRestrictionsInput
    (Some ("Alice, Bob" ++ String JS.newline "Carol, Dave")%string)
    ["Alice"; "Bob"; "Carol"; "Dave"]
  = Some [["Alice"; "Bob"]; ["Carol"; "Dave"]].
Proof. reflexivity. Qed.

Example restrictions_unknown_name :
  validateRestrictionsInput
    (Some ("Alice, Bob" ++ String JS.newline "Carol, Zed")%string)
    ["Alice"; "Bob"; "Carol"; "Dave"]
  = None.
Proof. reflexivity. Qed.

Example restrictions_none_token :
  validateRestrictionsInput (Some "  NoNe ") ["Alice"; "Bob"] = Some [] ∧
  validateRestrictionsInput None ["Alice"; "Bob"] = Some [].
Proof. by split_and!. Qed.

(** [n] copies of [s], one after the other. *)
Fixpoint repeat_string (n : nat) (s : string) : string :=
  match n with
  | O => EmptyString
  | S n' => (s ++ repeat_string n' s)%string
  end.

Lemma lower_char_letter (c : ascii) (n : nat) :
  (97 ≤ n ≤ 122)%nat → JS.lower_char c = ascii_of_nat n →
  c = ascii_of_nat n ∨ c = ascii_of_nat (n - 32).
Proof.
  intros Hn Hc. unfold JS.lower_char in Hc.
  pose proof (nat_ascii_bounded c) as Hb.
  remember (nat_of_ascii c) as m eqn:Hm.
  assert (c = ascii_of_nat m) as Hcm by (by rewrite Hm, ascii_nat_embedding).
  destruct ((65 <=? m) && (m <=? 90)
            || (192 <=? m) && (m <=? 222) && negb (m =? 215))%nat eqn:E.
  - right. rewrite Hcm. f_equal.
    assert (m + 32 < 256)%nat.
    { apply orb_true_iff in E as [E|E].
      - apply andb_true_iff in E as [_ E]. apply Nat.leb_le in E. lia.
      - apply andb_true_iff in E as [E _]. apply andb_true_iff in E as [_ E].
        apply Nat.leb_le in E. lia. }
    apply (f_equal nat_of_ascii) in Hc.
    rewrite !nat_ascii_embedding in Hc by lia. lia.
  - by left.
Qed.

(** The strings whose lowercase form is the token: the sixteen spellings
    of n-o-n-e in upper and lower case. *)
Lemma toLowerCase_none (t : string) :
  JS.toLowerCase t = "none" ↔
  ∃ c1 c2 c3 c4,
    t = String c1 (String c2 (String c3 (String c4 EmptyString))) ∧
    (c1 = "n" ∨ c1 = "N")%char ∧ (c2 = "o" ∨ c2 = "O")%char ∧
    (c3 = "n" ∨ c3 = "N")%char ∧ (c4 = "e" ∨ c4 = "E")%char.
Proof.
  split.
  - destruct t as [|c1 [|c2 [|c3 [|c4 [|c5 t]]]]]; try discriminate.
    simpl. intros [= H1 H2 H3 H4].
    exists c1, c2, c3, c4. split; [done|].
    split_and!.
    + apply (lower_char_letter c1 110); [lia|done].
    + apply (lower_char_letter c2 111); [lia|done].
    + apply (lower_char_letter c3 110); [lia|done].
    + apply (lower_char_letter c4 101); [lia|done].
  - intros (c1 & c2 & c3 & c4 & -> & [->| ->] & [->| ->] & [->| ->] & [->| ->]);
      reflexivity.
Qed.

(** An input of 5001 spaces is blank, and is rejected for its length. *)
Lemma validateRestrictionsInput_long_blank_rejected :
  let input := repeat_string (Z.to_nat 5001) " " in
  JS.trim input = "" ∧
  validateRestrictionsInput (Some input) ["Alice"; "Bob"] = None.
Proof. split; vm_compute; reflexivity. Qed.

(** C6, as the code has it. For an input of at most 5000 characters:
    the token none in any letter case and the blank input give the empty
    restriction list; any other input gives exactly the pairs of trimmed
    names of its non-blank lines, in order, when every such line splits at
    its comma into two non-empty trimmed names that are on the roster and
    differ, and is rejected as a whole as soon as one line is malformed,
    names somebody not on the roster or pairs a name with itself. *)
Theorem validateRestrictionsInput_spec roster input :
  JS.length input ≤ MAX_RESTRICTIONS_INPUT_LENGTH →
  (JS.toLowerCase (JS.trim input) = "none" ∨ JS.trim input = "" →
   validateRestrictionsInput (Some input) roster = Some [])
  ∧ (JS.toLowerCase (JS.trim input) ≠ "none" → JS.trim input ≠ "" →
     (∀ pairs, validateRestrictionsInput (Some input) roster = Some pairs ↔
        Forall2 (yields roster) (pair_lines input) pairs)
     ∧ (validateRestrictionsInput (Some input) roster = None ↔
        Exists (rejected roster) (pair_lines input))).
Proof.
  intros Hlen. unfold validateRestrictionsInput.
  destruct (String.eqb_spec input "") as [->|Hne].
  { split; [done|]. intros _ Ht. by destruct Ht. }
  destruct (Z.gtb_spec (JS.length input) MAX_RESTRICTIONS_INPUT_LENGTH) as [?|_];
    [lia|].
  destruct (String.eqb_spec (JS.toLowerCase (JS.trim input)) "none") as [Hn|Hn];
    [split; [done|by intros []]|].
  destruct (String.eqb_spec (JS.trim input) "") as [Hb|Hb];
    [split; [done|by intros _ []]|].
  cbn [orb]. split; [intros [?|?]; done|]. intros _ _.
  destruct (validate_lines_spec roster (JS.split JS.newline (JS.trim input)) [])
    as [Hs Hnone].
  split; [|exact Hnone].
  intros pairs. rewrite Hs. split.
  - by intros (? & -> & ?).
  - intros ?. by exists pairs.
Qed.

Lemma validateRestrictionsInput_spec_witness :
  let roster := ["Alice"; "Bob"; "Carol"; "Dave"] in
  let input := ("Alice, Bob" ++ String JS.newline " Carol ,Dave ")%string in
  validateRestrictionsInput (Some input) roster
  = Some [["Alice"; "Bob"]; ["Carol"; "Dave"]] ∧
  (JS.toLowerCase (JS.trim input) = "none" ∨ JS.trim input = "" →
   validateRestrictionsInput (Some input) roster = Some [])
  ∧ (JS.toLowerCase (JS.trim input) ≠ "none" → JS.trim input ≠ "" →
     (∀ pairs, validateRestrictionsInput (Some input) roster = Some pairs ↔
        Forall2 (yields roster) (pair_lines input) pairs)
     ∧ (validateRestrictionsInput (Some input) roster = None ↔
        Exists (rejected roster) (pair_lines input))).
Proof.
  intros roster input. split; [vm_compute; reflexivity|].
  apply (validateRestrictionsInput_spec roster input).
  vm_compute. discriminate.
Defined.

(** C10. Every input longer than 5000 characters is rejected, whatever its
    lines are: the length is checked before the input is trimmed or split. *)
Theorem validateRestrictionsInput_length_cap roster input :
  JS.length input > MAX_RESTRICTIONS_INPUT_LENGTH →
  validateRestrictionsInput (Some input) roster = None.
Proof.
  intros Hlen. unfold validateRestrictionsInput.
  destruct (String.eqb_spec input "") as [->|_].
  { unfold JS.length, MAX_RESTRICTIONS_INPUT_LENGTH in Hlen. simpl in Hlen. lia. }
  destruct (Z.gtb_spec (JS.length input) MAX_RESTRICTIONS_INPUT_LENGTH); [done|lia].
Qed.

(** 400 well-formed lines (4400 characters) are accepted; 500 of the same
    lines (5500 characters) are not. *)
Lemma validateRestrictionsInput_length_cap_witness :
  let roster := ["Alice"; "Bob"] in
  let line := String.append "Alice, Bob" (String JS.newline EmptyString) in
  validateRestrictionsInput (Some (repeat_string 400 line)) roster
  = Some (replicate 400 ["Alice"; "Bob"]) ∧
  JS.length (repeat_string 500 line) > MAX_RESTRICTIONS_INPUT_LENGTH ∧
  validateRestrictionsInput (Some (repeat_string 500 line)) roster = None.
Proof.
  intros roster line. split; [vm_compute; reflexivity|].
  split; [vm_compute; reflexivity|].
  apply (validateRestrictionsInput_length_cap roster (repeat_string 500 line)).
  vm_compute. reflexivity.
Defined.

End SecurityFacts.


(** * Properties of the matching and grouping functions *)

Module BotFacts.
Import Bot.

(** ** [shuffle] permutes its argument *)

Lemma swap_perm {A} (l : list A) (i j : nat) : swap l i j ≡ₚ l.
Proof.
  unfold swap.
  destruct (l !! i) as [x|] eqn:Hi; [|done].
  destruct (l !! j) as [y|] eqn:Hj; [|done].
  by apply Permutation_insert_swap.
Qed.

Lemma shuffle_from_perm {A} (i : nat) (l : list A) (g : Rng) :
  (shuffle_from i l g).1 ≡ₚ l.
Proof.
  revert l g. induction i as [|i IH]; intros l g; simpl; [done|].
  rewrite IH. apply swap_perm.
Qed.

Lemma shuffle_perm {A} (l : list A) (g : Rng) : (shuffle l g).1 ≡ₚ l.
Proof. apply shuffle_from_perm. Qed.

Lemma shuffle_length {A} (l : list A) (g : Rng) : length (shuffle l g).1 = length l.
Proof. by rewrite shuffle_perm. Qed.

Lemma shuffle_from_cursor {A} (i : nat) (l : list A) (g : Rng) :
  cursor (shuffle_from i l g).2 = (cursor g + i)%nat.
Proof.
  revert l g. induction i as [|i IH]; intros l g; simpl; [lia|].
  rewrite IH. simpl. lia.
Qed.

Lemma shuffle_cursor {A} (l : list A) (g : Rng) :
  cursor (shuffle l g).2 = (cursor g + (length l - 1))%nat.
Proof. apply shuffle_from_cursor. Qed.

(** ** What [isRestricted] decides *)

Lemma isRestricted_spec (a b : string) (restrictions : list (list string)) :
  isRestricted a b restrictions = true ↔
  [a; b] ∈ restrictions ∨ [b; a] ∈ restrictions.
Proof.
  induction restrictions as [|p rest IH]; simpl.
  { split; [done|]. intros [H|H]; inversion H. }
  rewrite !elem_of_cons.
  destruct p as [|p0 [|p1 [|p2 p]]];
    try (rewrite IH; split; [tauto|intros [[H|H]|[H|H]]; try discriminate H; tauto]).
  destruct (String.eqb p0 a && String.eqb p1 b
            || String.eqb p0 b && String.eqb p1 a) eqn:E.
  - split; [intros _|done].
    apply orb_true_iff in E as [E|E]; apply andb_true_iff in E as [E1 E2];
      apply String.eqb_eq in E1, E2; subst; auto.
  - rewrite IH. apply orb_false_iff in E as [E1 E2].
    split; [tauto|].
    intros [[H|H]|[H|H]]; auto; exfalso; simplify_eq.
    + by rewrite !String.eqb_refl in E1.
    + by rewrite !String.eqb_refl in E2.
Qed.

Lemma isRestricted_false (a b : string) (restrictions : list (list string)) :
  isRestricted a b restrictions = false ↔
  ([a; b] ∉ restrictions) ∧ ([b; a] ∉ restrictions).
Proof.
  rewrite <-not_true_iff_false, isRestricted_spec. tauto.
Qed.

(** ** The cyclic arrangement read off a shuffled group *)

(** The receiver of position [i] is the member at position [(i + 1) mod n]. *)
Definition successors {A} (l : list A) : list A := drop 1 l ++ take 1 l.

Definition cycle_pairs (l : list string) : list Match :=
  zip_with mkMatch l (successors l).

(** A pair that passes both checks of the inner loop. *)
Definition allowedb (restrictions : list (list string)) (m : Match) : bool :=
  negb (String.eqb (giver m) (receiver m))
  && negb (isRestricted (giver m) (receiver m) restrictions).

Definition allowed (restrictions : list (list string)) (m : Match) : Prop :=
  (giver m ≠ receiver m) ∧
  ([giver m; receiver m] ∉ restrictions) ∧ ([receiver m; giver m] ∉ restrictions).

Lemma allowedb_spec restrictions m :
  allowedb restrictions m = true ↔ allowed restrictions m.
Proof.
  unfold allowedb, allowed.
  rewrite andb_true_iff, !negb_true_iff, isRestricted_false.
  rewrite <-not_true_iff_false, String.eqb_eq. tauto.
Qed.

Lemma successors_length {A} (l : list A) : length (successors l) = length l.
Proof.
  unfold successors. rewrite length_app, length_drop, length_take. lia.
Qed.

Lemma successors_perm {A} (l : list A) : successors l ≡ₚ l.
Proof.
  unfold successors. rewrite Permutation_app_comm. by rewrite take_drop.
Qed.

Lemma successors_lookup {A} (l : list A) (i : nat) :
  (i < length l)%nat →
  successors l !! i = l !! ((i + 1) mod length l)%nat.
Proof.
  intros Hi. unfold successors.
  destruct (decide (i + 1 < length l)%nat) as [Hlt|Hge].
  - rewrite lookup_app_l by (rewrite length_drop; lia).
    rewrite lookup_drop, Nat.mod_small by lia. f_equal. lia.
  - assert (i + 1 = length l)%nat as Heq by lia.
    rewrite lookup_app_r by (rewrite length_drop; lia).
    rewrite length_drop, Heq, Nat.Div0.mod_same.
    replace (i - (length l - 1))%nat with O by lia.
    destruct l; [simpl in Hi; lia|done].
Qed.

Lemma cycle_pairs_length l : length (cycle_pairs l) = length l.
Proof.
  unfold cycle_pairs. rewrite length_zip_with, successors_length. lia.
Qed.

Lemma cycle_pairs_givers l : giver <$> cycle_pairs l = l.
Proof.
  unfold cycle_pairs.
  rewrite fmap_zip_with_l; [done|done|]. by rewrite successors_length.
Qed.

Lemma cycle_pairs_receivers l : receiver <$> cycle_pairs l = successors l.
Proof.
  unfold cycle_pairs.
  rewrite fmap_zip_with_r; [done|done|]. by rewrite successors_length.
Qed.

Lemma cycle_pairs_lookup l i x y :
  l !! i = Some x → l !! ((i + 1) mod length l)%nat = Some y →
  cycle_pairs l !! i = Some (mkMatch x y).
Proof.
  intros Hx Hy. unfold cycle_pairs.
  rewrite lookup_zip_with, Hx. simpl.
  rewrite successors_lookup by eauto using lookup_lt_Some. by rewrite Hy.
Qed.

(** The inner loop either collects the remaining pairs of the cycle or
    stops at the first pair that is not allowed. *)
Lemma potential_matches_eq restrictions l todo i acc :
  (i + todo = length l)%nat →
  potential_matches restrictions (length l) l todo i acc =
  if forallb (allowedb restrictions) (drop i (cycle_pairs l))
  then Some (acc ++ drop i (cycle_pairs l)) else None.
Proof.
  revert i acc. induction todo as [|todo IH]; intros i acc Hi; simpl.
  - rewrite drop_ge by (rewrite cycle_pairs_length; lia).
    simpl. by rewrite app_nil_r.
  - destruct (lookup_lt_is_Some_2 l i) as [x Hx]; [lia|].
    destruct (lookup_lt_is_Some_2 l ((i + 1) mod length l)%nat) as [y Hy].
    { apply Nat.mod_upper_bound. lia. }
    rewrite Hx, Hy.
    rewrite (drop_S _ _ _ (cycle_pairs_lookup _ _ _ _ Hx Hy)). simpl.
    unfold allowedb at 1. simpl.
    destruct (String.eqb x y); [done|].
    destruct (isRestricted x y restrictions); [done|]. simpl.
    rewrite IH by lia. by rewrite <-app_assoc.
Qed.

Lemma potential_matches_all restrictions l :
  potential_matches restrictions (length l) l (length l) 0 [] =
  if forallb (allowedb restrictions) (cycle_pairs l)
  then Some (cycle_pairs l) else None.
Proof. by rewrite potential_matches_eq. Qed.

(** ** Grouping *)

Lemma filter_nonEmpty_id {A} (groups : list (list A)) :
  Forall (λ grp, (0 < length grp)%nat) groups →
  List.filter nonEmpty groups = groups.
Proof.
  induction 1 as [|grp groups Hpos _ IH]; simpl; [done|].
  unfold nonEmpty at 1. destruct (Nat.ltb_spec 0 (length grp)); [|lia].
  by rewrite IH.
Qed.

(** Size of slice [i]: the first [remainder] slices get one member more. *)
Definition slice_size (base remainder i : Z) : Z :=
  base + (if i <? remainder then 1 else 0).

Lemma slice_groups_spec (sh : list string) (P base remainder : Z) :
  Z.of_nat (length sh) = P → 1 ≤ base → 0 ≤ remainder →
  ∀ (todo : nat) (i startIndex : Z) (groups : list (list string)),
    0 ≤ i → (i + Z.of_nat todo) * base + remainder = P →
    remainder ≤ i + Z.of_nat todo →
    startIndex = i * base + Z.min i remainder →
    ∃ new,
      slice_groups P sh base remainder todo i startIndex groups = groups ++ new ∧
      length new = todo ∧
      concat new = drop (Z.to_nat startIndex) sh ∧
      ∀ (k : nat) grp, new !! k = Some grp →
        Z.of_nat (length grp) = slice_size base remainder (i + Z.of_nat k).
Proof.
  intros HP Hbase Hrem todo.
  induction todo as [|todo IH]; intros i startIndex groups Hi Htot Hle Hstart.
  - exists []. simpl. rewrite app_nil_r. split_and!; try done.
    rewrite drop_ge; [done|]. lia.
  - cbn [slice_groups].
    fold (slice_size base remainder i).
    set (groupSize := slice_size base remainder i).
    assert (1 ≤ groupSize ∧
            startIndex + groupSize = (i + 1) * base + Z.min (i + 1) remainder)
      as [Hsize Hnext].
    { unfold groupSize, slice_size. destruct (Z.ltb_spec i remainder); lia. }
    assert (startIndex + groupSize ≤ P) as Hfit by nia.
    destruct (Z.eqb_spec groupSize 0) as [?|_]; [lia|]. cbn [andb].
    set (group := slice sh startIndex (startIndex + groupSize)).
    assert (Z.of_nat (length group) = groupSize) as Hglen.
    { unfold group, slice. rewrite length_take_le; [lia|].
      rewrite length_drop. lia. }
    destruct (Nat.ltb_spec 0 (length group)) as [_|?]; [|lia].
    destruct (IH (i + 1) (startIndex + groupSize) (groups ++ [group]))
      as (new & Heq & Hlen & Hcat & Hsizes); [lia|lia|lia|done|].
    exists (group :: new). split_and!.
    + rewrite Heq. by rewrite <-app_assoc.
    + simpl. by rewrite Hlen.
    + simpl. rewrite Hcat. unfold group, slice.
      replace (Z.to_nat (startIndex + groupSize))
        with (Z.to_nat startIndex + Z.to_nat groupSize)%nat by lia.
      rewrite <-drop_drop.
      replace (Z.to_nat startIndex + Z.to_nat groupSize - Z.to_nat startIndex)%nat
        with (Z.to_nat groupSize) by lia.
      apply take_drop.
    + intros [|k] grp Hk; simpl in Hk.
      * injection Hk as <-. rewrite Hglen. unfold groupSize. f_equal. lia.
      * rewrite (Hsizes k grp Hk). f_equal. lia.
Qed.

(** C3. For a list of P > 0 participants and 1 <= N <= P,
    [assignParticipantsToGroups] returns exactly N groups; their
    concatenation is a permutation of the input; group [i] has
    floor(P/N) + 1 members when i < P mod N and floor(P/N) members
    otherwise, so the larger groups come first; the sizes sum to P. *)
Theorem assignParticipantsToGroups_partition participants numGroups g :
  0 < Z.of_nat (length participants) →
  1 ≤ numGroups ≤ Z.of_nat (length participants) →
  ∃ groups g',
    assignParticipantsToGroups participants numGroups g = (Ok groups, g') ∧
    Z.of_nat (length groups) = numGroups ∧
    concat groups ≡ₚ participants ∧
    (∀ (i : nat) grp, groups !! i = Some grp →
       Z.of_nat (length grp) =
       Z.of_nat (length participants) / numGroups
       + (if Z.of_nat i <? Z.of_nat (length participants) mod numGroups
          then 1 else 0)) ∧
    sum_list (length <$> groups) = length participants.
Proof.
  intros HP HN. unfold assignParticipantsToGroups.
  set (P := Z.of_nat (length participants)) in *.
  destruct (Z.eqb_spec P 0) as [?|_]; [lia|].
  destruct (Z.ltb_spec numGroups 1) as [?|_]; [lia|].
  destruct (Z.gtb_spec numGroups P) as [?|_]; [lia|].
  destruct (shuffle participants g) as [sh g'] eqn:Hs.
  assert (sh ≡ₚ participants) as Hperm.
  { pose proof (shuffle_perm participants g) as H. by rewrite Hs in H. }
  rewrite Z.rem_mod_nonneg by lia.
  pose proof (Z.div_mod P numGroups ltac:(lia)) as Hdm.
  pose proof (Z.mod_pos_bound P numGroups ltac:(lia)) as Hmod.
  assert (1 ≤ P / numGroups) as Hbase.
  { apply Z.div_le_lower_bound; lia. }
  destruct (slice_groups_spec sh P (P / numGroups) (P mod numGroups)
              ltac:(unfold P; by rewrite Hperm) Hbase ltac:(lia)
              (Z.to_nat numGroups) 0 0 [])
    as (new & Heq & Hlen & Hcat & Hsizes); [lia|lia|lia|lia|].
  rewrite Heq, app_nil_l. simpl in Hcat. rewrite drop_0 in Hcat.
  assert (Forall (λ grp, (0 < length grp)%nat) new) as Hpos.
  { apply Forall_lookup. intros k grp Hk. apply Hsizes in Hk.
    unfold slice_size in Hk. destruct (_ <? _); lia. }
  rewrite (filter_nonEmpty_id _ Hpos).
  exists new, g'. split_and!.
  - done.
  - lia.
  - by rewrite Hcat.
  - intros i grp Hi. by rewrite (Hsizes i grp Hi).
  - rewrite <-length_concat, Hcat. by rewrite Hperm.
Qed.

Lemma assignParticipantsToGroups_partition_witness :
  let participants := ["Alice"; "Bob"; "Carol"; "Dave"; "Erin"] in
  assignParticipantsToGroups participants 2 (mkRng (λ _, O) O)
  = (Ok [["Bob"; "Carol"; "Dave"]; ["Erin"; "Alice"]], mkRng (λ _, O) 4) ∧
  ∃ groups g',
    assignParticipantsToGroups participants 2 (mkRng (λ _, O) O) = (Ok groups, g') ∧
    Z.of_nat (length groups) = 2 ∧
    concat groups ≡ₚ participants ∧
    (∀ (i : nat) grp, groups !! i = Some grp →
       Z.of_nat (length grp) =
       Z.of_nat (length participants) / 2
       + (if Z.of_nat i <? Z.of_nat (length participants) mod 2
          then 1 else 0)) ∧
    sum_list (length <$> groups) = length participants.
Proof.
  intros participants. split; [vm_compute; reflexivity|].
  apply (assignParticipantsToGroups_partition participants 2 (mkRng (λ _, O) O)).
  - simpl. lia.
  - simpl. lia.
Defined.

(** The two errors that reject a group count. *)
Definition InvalidGroupCount (r : result (list (list string))) : Prop :=
  r = Throw err_too_few_groups ∨ r = Throw err_too_many_groups.

(** C5. [assignParticipantsToGroups] fails, and then with one of the two
    group-count errors, exactly when the list is non-empty and N < 1 or
    N > P; on the empty list it returns no groups for every N. *)
Theorem assignParticipantsToGroups_errors participants numGroups g :
  (InvalidGroupCount (assignParticipantsToGroups participants numGroups g).1
   ↔ 0 < Z.of_nat (length participants)
     ∧ (numGroups < 1 ∨ numGroups > Z.of_nat (length participants)))
  ∧ ((∃ groups, (assignParticipantsToGroups participants numGroups g).1 = Ok groups)
     ∨ InvalidGroupCount (assignParticipantsToGroups participants numGroups g).1)
  ∧ assignParticipantsToGroups [] numGroups g = (Ok [], g).
Proof.
  split_and!; [| |done]; unfold assignParticipantsToGroups, InvalidGroupCount;
    destruct (Z.eqb_spec (Z.of_nat (length participants)) 0) as [H0|H0];
    destruct (Z.ltb_spec numGroups 1) as [H1|H1];
    destruct (Z.gtb_spec numGroups (Z.of_nat (length participants))) as [H2|H2];
    try destruct (shuffle participants g) as [sh g'];
    cbn [fst]; try (left; by eexists); try (right; by auto);
    (split; [intros [?|?]; (discriminate || lia) | intros [? ?]; try lia; auto]).
Qed.

(** ** The retry loop, attempt by attempt *)

(** The random source as the [k]-th attempt finds it, and the arrangement
    that attempt shuffles the group into. *)
Fixpoint rng_at (group : list string) (g : Rng) (k : nat) : Rng :=
  match k with
  | O => g
  | S k' => rng_at group (shuffle group g).2 k'
  end.

Definition attempt (group : list string) (g : Rng) (k : nat) : list string :=
  (shuffle group (rng_at group g k)).1.

Definition accepted (restrictions : list (list string)) (l : list string) : Prop :=
  Forall (allowed restrictions) (cycle_pairs l).

Lemma accepted_forallb restrictions l :
  forallb (allowedb restrictions) (cycle_pairs l) = true ↔ accepted restrictions l.
Proof.
  unfold accepted. rewrite forallb_forall, Forall_forall.
  split; intros H m Hm; apply allowedb_spec, H; by apply list_elem_of_In.
Qed.

Lemma attempt_perm group g k : attempt group g k ≡ₚ group.
Proof. apply shuffle_perm. Qed.

Lemma rng_at_cursor group g k :
  cursor (rng_at group g k) = (cursor g + k * (length group - 1))%nat.
Proof.
  revert g. induction k as [|k IH]; intros g; simpl; [lia|].
  rewrite IH, shuffle_cursor. lia.
Qed.

(** How the loop ends: at the first accepted attempt, or after [left]
    rejected ones. *)
Inductive loop_end (group : list string) (restrictions : list (list string))
          (g : Rng) (left : nat) : result (list Match) * Rng → Prop :=
| loop_found k :
    (k < left)%nat →
    (∀ j, (j < k)%nat → ¬ accepted restrictions (attempt group g j)) →
    accepted restrictions (attempt group g k) →
    loop_end group restrictions g left
             (Ok (cycle_pairs (attempt group g k)), rng_at group g (S k))
| loop_exhausted :
    (∀ j, (j < left)%nat → ¬ accepted restrictions (attempt group g j)) →
    loop_end group restrictions g left
             (Throw (err_no_assignment group), rng_at group g left).

Lemma attempt_loop_end group restrictions left g :
  loop_end group restrictions g left (attempt_loop left group restrictions g).
Proof.
  revert g. induction left as [|left IH]; intros g; simpl.
  { apply loop_exhausted. intros j Hj. lia. }
  destruct (shuffle group g) as [sg g'] eqn:Hs.
  assert (length sg = length group) as Hlen.
  { by rewrite <-(shuffle_length group g), Hs. }
  rewrite <-Hlen, potential_matches_all.
  destruct (forallb _ _) eqn:Hall.
  - replace sg with (attempt group g 0) by (unfold attempt; simpl; by rewrite Hs).
    replace g' with (rng_at group g 1) by (simpl; by rewrite Hs).
    apply loop_found; [lia|intros j Hj; lia|].
    apply accepted_forallb. unfold attempt. simpl. by rewrite Hs.
  - assert (¬ accepted restrictions (attempt group g 0)) as Hrej.
    { rewrite <-accepted_forallb. unfold attempt. simpl. rewrite Hs. simpl.
      by rewrite Hall. }
    assert (∀ j, attempt group g (S j) = attempt group g' j) as Hshift.
    { intros j. unfold attempt. simpl. by rewrite Hs. }
    assert (∀ j, rng_at group g (S j) = rng_at group g' j) as Hshift'.
    { intros j. simpl. by rewrite Hs. }
    destruct (IH g') as [k Hk Hbefore Hacc|Hnone].
    + rewrite <-Hshift, <-Hshift'. apply loop_found; [lia| |by rewrite Hshift].
      intros [|j] Hj; [done|]. rewrite Hshift. apply Hbefore. lia.
    + rewrite <-Hshift'. apply loop_exhausted.
      intros [|j] Hj; [done|]. rewrite Hshift. apply Hnone. lia.
Qed.

(** An accepted arrangement is a fixed-point-free assignment over the group
    that avoids every restricted pair. *)
Lemma accepted_assignment group restrictions l :
  l ≡ₚ group → accepted restrictions l →
  length (cycle_pairs l) = length group ∧
  giver <$> cycle_pairs l ≡ₚ group ∧
  receiver <$> cycle_pairs l ≡ₚ group ∧
  Forall (allowed restrictions) (cycle_pairs l).
Proof.
  intros Hp Hacc. split_and!; [|by rewrite cycle_pairs_givers| |done].
  - by rewrite cycle_pairs_length, Hp.
  - by rewrite cycle_pairs_receivers, successors_perm.
Qed.

(** C1. For a group of n >= 2 distinct names and any restriction set, a
    normal return of [assignSecretAngels] is a list of exactly n pairs; the
    givers are the group members, each once, and so are the receivers; no
    pair has giver = receiver, and no pair is in the restriction set in
    either orientation. *)
Theorem assignSecretAngels_sound group restrictions g ms g' :
  NoDup group → (2 ≤ length group)%nat →
  assignSecretAngels group restrictions g = (Ok ms, g') →
  length ms = length group ∧
  giver <$> ms ≡ₚ group ∧ NoDup (giver <$> ms) ∧
  receiver <$> ms ≡ₚ group ∧ NoDup (receiver <$> ms) ∧
  Forall (λ m, giver m ≠ receiver m) ms ∧
  Forall (λ m, ([giver m; receiver m] ∉ restrictions)
               ∧ ([receiver m; giver m] ∉ restrictions)) ms.
Proof.
  intros Hnd Hlen Hrun. unfold assignSecretAngels in Hrun.
  destruct (Nat.ltb_spec (length group) 2) as [?|_]; [lia|].
  pose proof (attempt_loop_end group restrictions maxRetries g) as Hend.
  rewrite Hrun in Hend. inversion Hend as [k Hk Hbefore Hacc Heq|]; subst.
  destruct (accepted_assignment group restrictions _ (attempt_perm group g k) Hacc)
    as (Hl & Hg & Hr & Hall).
  split_and!; try done.
  - by rewrite Hg.
  - by rewrite Hr.
  - eapply Forall_impl; [exact Hall|]. by intros m (? & _).
  - eapply Forall_impl; [exact Hall|]. by intros m (_ & ?).
Qed.

Lemma assignSecretAngels_sound_witness :
  let group := ["Alice"; "Bob"; "Carol"; "Dave"] in
  let restrictions := [["Alice"; "Carol"]] in
  let ms := [mkMatch "Bob" "Carol"; mkMatch "Carol" "Dave";
             mkMatch "Dave" "Alice"; mkMatch "Alice" "Bob"] in
  length ms = length group ∧
  giver <$> ms ≡ₚ group ∧ NoDup (giver <$> ms) ∧
  receiver <$> ms ≡ₚ group ∧ NoDup (receiver <$> ms) ∧
  Forall (λ m, giver m ≠ receiver m) ms ∧
  Forall (λ m, ([giver m; receiver m] ∉ restrictions)
               ∧ ([receiver m; giver m] ∉ restrictions)) ms.
Proof.
  intros group restrictions ms.
  apply (assignSecretAngels_sound group restrictions (mkRng (λ _, O) O) ms
           (mkRng (λ _, O) 3)).
  - apply (bool_decide_unpack _). vm_compute. exact I.
  - simpl. lia.
  - vm_compute. reflexivity.
Defined.

(** ** The retry bound *)

(** Some cyclic arrangement of the group passes both checks: the
    restriction set does not rule out every rotation. *)
Definition feasible (group : list string) (restrictions : list (list string)) : Prop :=
  ∃ l, l ≡ₚ group ∧ accepted restrictions l.

(** With the restriction (Alice, Bob) the arrangement Alice, Carol, Bob,
    Dave is allowed, yet a random source that draws 0 every time shuffles
    the group into Bob, Carol, Dave, Alice at each of the 100 attempts, and
    that arrangement ends with the pair (Alice, Bob). *)
Lemma assignSecretAngels_may_exhaust_retries :
  let group := ["Alice"; "Bob"; "Carol"; "Dave"] in
  let restrictions := [["Alice"; "Bob"]] in
  (2 ≤ length group)%nat ∧
  feasible group restrictions ∧
  (assignSecretAngels group restrictions (mkRng (λ _, O) O)).1
  = Throw (err_no_assignment group).
Proof.
  intros group restrictions. split; [simpl; lia|]. split.
  - exists ["Alice"; "Carol"; "Bob"; "Dave"]. split.
    + apply (bool_decide_unpack _). vm_compute. exact I.
    + apply accepted_forallb. vm_compute. reflexivity.
  - vm_compute. reflexivity.
Qed.

(** C4, as the code has it. For a group of size >= 2, any restriction set
    and any random draws, [assignSecretAngels] stops after at most 100
    attempts, each consuming one shuffle.  It returns at the first attempt
    whose cyclic arrangement is accepted, and what it returns is then a
    permutation of the group with no fixed point and no restricted pair; it
    fails, with the error that names the group, exactly when all 100
    arrangements it drew were rejected.  So an accepted arrangement among
    the 100 drawn, not the mere existence of one, is what makes it succeed. *)
Theorem assignSecretAngels_retry_bound group restrictions g :
  (2 ≤ length group)%nat →
  ∃ attempts : nat,
    (1 ≤ attempts ≤ maxRetries)%nat ∧
    cursor (assignSecretAngels group restrictions g).2
    = (cursor g + attempts * (length group - 1))%nat ∧
    (∀ j, (j < attempts - 1)%nat → ¬ accepted restrictions (attempt group g j)) ∧
    match (assignSecretAngels group restrictions g).1 with
    | Ok ms =>
        accepted restrictions (attempt group g (attempts - 1)) ∧
        ms = cycle_pairs (attempt group g (attempts - 1)) ∧
        length ms = length group ∧
        giver <$> ms ≡ₚ group ∧ receiver <$> ms ≡ₚ group ∧
        Forall (allowed restrictions) ms
    | Throw message =>
        attempts = maxRetries ∧
        ¬ accepted restrictions (attempt group g (attempts - 1)) ∧
        message = err_no_assignment group
    end.
Proof.
  intros Hlen. unfold assignSecretAngels.
  destruct (Nat.ltb_spec (length group) 2) as [?|_]; [lia|].
  destruct (attempt_loop_end group restrictions maxRetries g)
    as [k Hk Hbefore Hacc|Hnone].
  - exists (S k). cbn [fst snd]. replace (S k - 1)%nat with k by lia.
    split; [lia|]. split; [|split; [done|]].
    + rewrite rng_at_cursor. lia.
    + destruct (accepted_assignment group restrictions _
                  (attempt_perm group g k) Hacc) as (?&?&?&?).
      by split_and!.
  - exists maxRetries. cbn [fst snd].
    split; [unfold maxRetries; lia|]. split; [|split_and!; try done].
    + rewrite rng_at_cursor. lia.
    + intros j Hj. apply Hnone. unfold maxRetries in *. lia.
    + apply Hnone. unfold maxRetries. lia.
Qed.

Lemma assignSecretAngels_retry_bound_witness :
  let group := ["Alice"; "Bob"; "Carol"; "Dave"] in
  let restrictions := [["Alice"; "Bob"]] in
  let g := mkRng (λ k, k) O in
  (2 ≤ length group)%nat ∧
  assignSecretAngels group restrictions g
  = (Ok [mkMatch "Alice" "Carol"; mkMatch "Carol" "Bob";
         mkMatch "Bob" "Dave"; mkMatch "Dave" "Alice"], mkRng (λ k, k) 6) ∧
  ∃ attempts : nat,
    (1 ≤ attempts ≤ maxRetries)%nat ∧
    cursor (assignSecretAngels group restrictions g).2
    = (cursor g + attempts * (length group - 1))%nat ∧
    (∀ j, (j < attempts - 1)%nat → ¬ accepted restrictions (attempt group g j)) ∧
    match (assignSecretAngels group restrictions g).1 with
    | Ok ms =>
        accepted restrictions (attempt group g (attempts - 1)) ∧
        ms = cycle_pairs (attempt group g (attempts - 1)) ∧
        length ms = length group ∧
        giver <$> ms ≡ₚ group ∧ receiver <$> ms ≡ₚ group ∧
        Forall (allowed restrictions) ms
    | Throw message =>
        attempts = maxRetries ∧
        ¬ accepted restrictions (attempt group g (attempts - 1)) ∧
        message = err_no_assignment group
    end.
Proof.
  intros group restrictions g.
  split; [simpl; lia|]. split; [vm_compute; reflexivity|].
  apply (assignSecretAngels_retry_bound group restrictions g). simpl. lia.
Defined.

(** ** What the two functions return, for their caller *)

Lemma assignSecretAngels_Throw group restrictions g e :
  (assignSecretAngels group restrictions g).1 = Throw e →
  e = err_no_assignment group.
Proof.
  unfold assignSecretAngels. destruct (length group <? 2)%nat; [done|].
  destruct (attempt_loop_end group restrictions maxRetries g)
    as [k Hk Hbefore Hacc|Hrej]; [done|]. cbn. congruence.
Qed.

Lemma assignSecretAngels_Ok group restrictions g ms :
  (2 ≤ length group)%nat →
  (assignSecretAngels group restrictions g).1 = Ok ms →
  length ms = length group ∧
  Forall (λ m, giver m ∈ group ∧ receiver m ∈ group ∧ giver m ≠ receiver m) ms.
Proof.
  intros Hlen. unfold assignSecretAngels.
  destruct (Nat.ltb_spec (length group) 2) as [?|_]; [lia|].
  destruct (attempt_loop_end group restrictions maxRetries g)
    as [k Hk Hbefore Hacc|Hrej]; [|done].
  cbn. intros [= <-].
  destruct (accepted_assignment group restrictions _ (attempt_perm group g k) Hacc)
    as (Hl & Hg & Hr & Hall).
  split; [done|]. apply Forall_forall. intros m Hm. split_and!.
  - rewrite <-Hg. apply list_elem_of_fmap. by exists m.
  - rewrite <-Hr. apply list_elem_of_fmap. by exists m.
  - rewrite Forall_forall in Hall. by destruct (Hall m Hm).
Qed.

End BotFacts.


(** * Properties of the message handler *)

Module HandlerFacts.
Import Handler.

(** ** The duplicate branch *)

Lemma branch_of_never_again (state : string) :
  branch_of state ≠ BranchNumGroupsAgain.
Proof.
  unfold branch_of. repeat case_match; congruence.
Qed.

(** C9. The second [awaiting_num_groups] branch never runs: the chain
    selects it for no state, the first branch takes the state
    awaiting_num_groups, and whatever stands in the second branch the
    handler does the same for every message and every world. *)
Theorem second_num_groups_branch_dead :
  (∀ state, branch_of state ∈
      [BranchName; BranchWishlist; BranchNameForAssignment;
       BranchClearConfirmation; BranchNumGroups; BranchRestrictions; BranchNone])
  ∧ branch_of "awaiting_num_groups" = BranchNumGroups
  ∧ ∀ ADMIN_USER_ID again now msg w,
      on_message_with ADMIN_USER_ID again now msg w
      = on_message ADMIN_USER_ID now msg w.
Proof.
  split_and!.
  - intros state. pose proof (branch_of_never_again state) as H.
    destruct (branch_of state); set_solver.
  - reflexivity.
  - intros admin again now msg w. unfold on_message, on_message_with.
    unfold mbind, M_bind.
    destruct (isRateLimited now (from_id msg) w) as [[limited|e] w1]; [|done].
    destruct limited; [done|].
    destruct (match text msg with Some t => JS.startsWith t "/" | None => false end);
      [done|].
    destruct (get_state (chat_id msg) w1) as [[[sd|]|e] w2]; try done.
    unfold dispatch. pose proof (branch_of_never_again (state sd)) as H.
    by destruct (branch_of (state sd)).
Qed.

(** ** Commands sent while a state is active *)

(** The rate limiter's verdict on a message, and its store afterwards. *)
Definition limited (now : Z) (msg : Msg) (w : World) : bool :=
  (RateLimit.isRateLimited now (from_id msg) (rateLimitStore w)).1.

Definition passes_limiter (now : Z) (msg : Msg) (w : World) : Prop :=
  limited now msg w = false.

Definition counted (now : Z) (msg : Msg) (w : World) : gmap Z RateLimit.UserData :=
  (RateLimit.isRateLimited now (from_id msg) (rateLimitStore w)).2.

(** Why admission by the rate limiter is a premise below: the eleventh
    message of a user within the minute, here the unknown command /foo
    sent while the chat is in awaiting_restrictions, is refused before the
    handler looks at its text.  It is answered with the rate-limit notice
    and the handler does nothing else. *)
Lemma rate_limited_command_keeps_state :
  let entry := mkStateData "awaiting_restrictions" None (Some 2)
                 (Some [(1, "Alice"); (2, "Bob")]) (Some 1) in
  let w := mkWorld {[ 5 := entry ]}
                   {[ 7 := RateLimit.mkUserData 10 60000 ]}
                   (Store.mkDb (Store.mkTables [] [] [] [] 1 1 1 1) None (λ _, false) [])
                   (mkRng (λ _, O) O) [] in
  let msg := mkMsg 5 7 (Some "/foo") in
  let w' := (on_message (Some 7) 1000 msg w).2 in
  userState w !! 5 = Some entry ∧
  JS.startsWith "/foo" "/" = true ∧
  userState w' !! 5 = Some entry ∧
  sent w' = [(5, TooQuickly)].
Proof. vm_compute. done. Qed.

(** C7. A message that the rate limiter admits and whose text starts
    with / is given to no state branch, whatever state the chat's entry
    holds: the handler removes the entry and does nothing else (it sends
    nothing, issues no statement and draws nothing), leaving the message
    to the command handlers. *)
Theorem command_never_state_input ADMIN_USER_ID now msg w t :
  passes_limiter now msg w →
  text msg = Some t → JS.startsWith t "/" = true →
  on_message ADMIN_USER_ID now msg w
  = (Ok (),
     mkWorld (delete (chat_id msg) (userState w)) (counted now msg w)
             (db w) (rng w) (sent w)) ∧
  userState (on_message ADMIN_USER_ID now msg w).2 !! chat_id msg = None.
Proof.
  intros Hadm Ht Hslash.
  assert (on_message ADMIN_USER_ID now msg w
          = (Ok (),
             mkWorld (delete (chat_id msg) (userState w)) (counted now msg w)
                     (db w) (rng w) (sent w))) as Heq.
  { unfold on_message, on_message_with, mbind, M_bind, isRateLimited.
    unfold passes_limiter, limited in Hadm. unfold counted.
    destruct (RateLimit.isRateLimited now (from_id msg) (rateLimitStore w))
      as [lim store']. cbn [fst snd] in *. subst lim.
    rewrite Ht, Hslash. unfold get_state. cbn [userState fst snd].
    destruct (userState w !! chat_id msg) as [sd|] eqn:Hsd; [done|].
    unfold mret, M_ret. by rewrite delete_id. }
  split; [exact Heq|]. rewrite Heq. cbn. apply lookup_delete_eq.
Qed.

Lemma command_never_state_input_witness :
  let entry := mkStateData "awaiting_restrictions" None (Some 2)
                 (Some [(1, "Alice"); (2, "Bob")]) (Some 1) in
  let w := mkWorld {[ 5 := entry ]} {[ 7 := RateLimit.mkUserData 4 60000 ]}
                   (Store.mkDb (Store.mkTables [] [] [] [] 1 1 1 1) None (λ _, false) [])
                   (mkRng (λ _, O) O) [] in
  let msg := mkMsg 5 7 (Some "/foo") in
  userState w !! 5 = Some entry ∧
  on_message (Some 7) 1000 msg w
  = (Ok (),
     mkWorld (delete (chat_id msg) (userState w)) (counted 1000 msg w)
             (db w) (rng w) (sent w)) ∧
  userState (on_message (Some 7) 1000 msg w).2 !! chat_id msg = None.
Proof.
  intros entry w msg. split; [vm_compute; reflexivity|].
  apply (command_never_state_input (Some 7) 1000 msg w "/foo");
    [vm_compute; reflexivity|reflexivity|reflexivity].
Defined.

(** ** Registration: the reply to the wishlist prompt *)

Lemma has_name_spec (n : string) (rows : list Store.ParticipantRow) :
  Store.has_name n rows = true ↔ n ∈ Store.name <$> rows.
Proof.
  unfold Store.has_name. rewrite existsb_exists, list_elem_of_fmap. split.
  - intros (row & Hin & Heq). apply String.eqb_eq in Heq.
    exists row. split; [done|by apply list_elem_of_In].
  - intros (row & -> & Hin). exists row.
    split; [by apply list_elem_of_In|apply String.eqb_refl].
Qed.

(** Updating on conflict keeps every row in its place with its key and
    its name, and rewrites the wishlist of the rows of that name only. *)
Lemma set_wishlist_rows (n wl : string) (rows : list Store.ParticipantRow) :
  length (Store.set_wishlist n wl rows) = length rows ∧
  Store.id <$> Store.set_wishlist n wl rows = Store.id <$> rows ∧
  Store.name <$> Store.set_wishlist n wl rows = Store.name <$> rows ∧
  Store.wishlist <$> Store.set_wishlist n wl rows
  = (λ row, if String.eqb (Store.name row) n then wl else Store.wishlist row) <$> rows.
Proof.
  induction rows as [|row rows (IH1 & IH2 & IH3 & IH4)]; [done|].
  cbn [Store.set_wishlist length fmap list_fmap].
  fold (fmap (M:=list) Store.id). fold (fmap (M:=list) Store.name).
  fold (fmap (M:=list) Store.wishlist).
  fold (fmap (M:=list)
          (λ row, if String.eqb (Store.name row) n then wl else Store.wishlist row)).
  rewrite IH1, IH2, IH3, IH4.
  by destruct (String.eqb (Store.name row) n).
Qed.

(** The wishlist that a reply stores. *)
Definition stored_wishlist (t : string) : string :=
  if String.eqb (JS.toLowerCase t) "skip" then ""
  else Security.validateWishlist (Some t).

(** Sanitizing, said without the code's helpers: every character that
    could open markup or a path is replaced by its entity, the others
    stay. *)
Definition entity (c : ascii) : string :=
  if Ascii.eqb c "<" then "&lt;"
  else if Ascii.eqb c ">" then "&gt;"
  else if Ascii.eqb c JS.double_quote then "&quot;"
  else if Ascii.eqb c "'" then "&#x27;"
  else if Ascii.eqb c "/" then "&#x2F;"
  else String c "".

Fixpoint escaped (s : string) : string :=
  match s with
  | EmptyString => EmptyString
  | String c rest => (entity c ++ escaped rest)%string
  end.

(** The sanitized wishlist text of a reply: trimmed, escaped, and cut
    after 1000 characters. *)
Definition sanitized_wishlist (t : string) : string :=
  JS.take_string 1000 (JS.trim (escaped (JS.trim t))).

Lemma string_append_assoc (s1 s2 s3 : string) :
  ((s1 ++ s2) ++ s3)%string = (s1 ++ (s2 ++ s3))%string.
Proof.
  induction s1 as [|c s1 IH]; [done|].
  change (String c ((s1 ++ s2) ++ s3)%string = String c (s1 ++ (s2 ++ s3))%string).
  by rewrite IH.
Qed.

Lemma replaceAll_app c by' s1 s2 :
  JS.replaceAll c by' (s1 ++ s2)%string
  = (JS.replaceAll c by' s1 ++ JS.replaceAll c by' s2)%string.
Proof.
  induction s1 as [|c1 s1 IH]; [done|].
  change (String c1 s1 ++ s2)%string with (String c1 (s1 ++ s2)%string).
  cbn [JS.replaceAll]. rewrite IH. destruct (Ascii.eqb c1 c); [|done].
  by rewrite string_append_assoc.
Qed.

(** The chain of five replacements is the character-wise escape: no
    entity holds a character that a later replacement looks for. *)
Lemma replace_chain_escaped (s : string) :
  JS.replaceAll "/" "&#x2F;"
    (JS.replaceAll "'" "&#x27;"
       (JS.replaceAll JS.double_quote "&quot;"
          (JS.replaceAll ">" "&gt;"
             (JS.replaceAll "<" "&lt;" s))))
  = escaped s.
Proof.
  induction s as [|c s IH]; [done|].
  cbn [escaped JS.replaceAll]. unfold entity.
  destruct (Ascii.eqb_spec c "<") as [->|H1].
  { rewrite !replaceAll_app, IH. done. }
  cbn [JS.replaceAll]. destruct (Ascii.eqb_spec c ">") as [->|H2].
  { rewrite !replaceAll_app, IH. done. }
  cbn [JS.replaceAll]. destruct (Ascii.eqb_spec c JS.double_quote) as [->|H3].
  { rewrite !replaceAll_app, IH. done. }
  cbn [JS.replaceAll]. destruct (Ascii.eqb_spec c "'") as [->|H4].
  { rewrite !replaceAll_app, IH. done. }
  cbn [JS.replaceAll]. destruct (Ascii.eqb_spec c "/") as [->|H5].
  { by rewrite IH. }
  by rewrite IH.
Qed.

Lemma take_string_all (n : nat) (s : string) :
  (String.length s ≤ n)%nat → JS.take_string n s = s.
Proof.
  revert n. induction s as [|c s IH]; intros [|n] Hn; cbn in *; try done; [lia|].
  rewrite IH; [done|lia].
Qed.

Lemma take_string_length (n : nat) (s : string) :
  (n < String.length s)%nat → String.length (JS.take_string n s) = n.
Proof.
  revert n. induction s as [|c s IH]; intros [|n] Hn; cbn in *; try done; [lia|].
  rewrite IH; [done|lia].
Qed.

Lemma validateWishlist_sanitized (t : string) :
  Security.validateWishlist (Some t) = sanitized_wishlist t.
Proof.
  unfold Security.validateWishlist, sanitized_wishlist, Security.sanitizeInput.
  destruct (String.eqb_spec t "") as [->|_]; [done|].
  rewrite replace_chain_escaped. cbv zeta.
  unfold JS.length, Security.MAX_WISHLIST_LENGTH.
  destruct (Z.gtb_spec (Z.of_nat (String.length (JS.trim (escaped (JS.trim t)))))
              1000) as [Hlong|Hshort].
  - done.
  - rewrite take_string_all; [done|lia].
Qed.

(** C8. In awaiting_wishlist, a reply whose lowercase form is skip stores
    the empty wishlist and any other reply its sanitized text, under the
    name captured before.  When no row has that name a row is added with
    the next key; otherwise the table keeps its rows, keys and names and
    only the wishlist of that name is overwritten.  The other tables stay
    as they are, and the chat's entry is removed whether the statement
    succeeded or failed. *)
Theorem wishlist_reply_upserts ADMIN_USER_ID now msg w t entry n :
  passes_limiter now msg w →
  text msg = Some t → JS.startsWith t "/" = false →
  userState w !! chat_id msg = Some entry →
  state entry = "awaiting_wishlist" → name entry = Some n →
  let rows := Store.tg_participants (Store.tables (db w)) in
  let w' := (on_message ADMIN_USER_ID now msg w).2 in
  let rows' := Store.tg_participants (Store.tables (db w')) in
  let wishlist :=
    if String.eqb (JS.toLowerCase t) "skip" then "" else sanitized_wishlist t in
  (on_message ADMIN_USER_ID now msg w).1 = Ok () ∧
  userState w' = delete (chat_id msg) (userState w) ∧
  Store.tg_groups (Store.tables (db w')) = Store.tg_groups (Store.tables (db w)) ∧
  Store.tg_group_members (Store.tables (db w'))
  = Store.tg_group_members (Store.tables (db w)) ∧
  Store.tg_assignments (Store.tables (db w'))
  = Store.tg_assignments (Store.tables (db w)) ∧
  if Store.faults (db w) (length (Store.log (db w))) then
    rows' = rows ∧ sent w' = sent w ++ [(chat_id msg, RegisterError)]
  else
    sent w' = sent w ++ [(chat_id msg, Registered n (negb (String.eqb wishlist "")))] ∧
    (n ∉ Store.name <$> rows →
     rows' = rows ++ [Store.mkParticipant
                        (Store.next_participant (Store.tables (db w))) n wishlist]) ∧
    (n ∈ Store.name <$> rows →
     length rows' = length rows ∧
     Store.id <$> rows' = Store.id <$> rows ∧
     Store.name <$> rows' = Store.name <$> rows ∧
     Store.wishlist <$> rows'
     = (λ row, if String.eqb (Store.name row) n
               then wishlist else Store.wishlist row) <$> rows).
Proof.
  intros Hadm Ht Hslash Hentry Hstate Hname rows w' rows' wishlist.
  assert (wishlist = stored_wishlist t) as Hw.
  { unfold wishlist, stored_wishlist. by rewrite validateWishlist_sanitized. }
  clearbody wishlist. subst wishlist. subst w' rows'.
  unfold on_message, on_message_with, mbind, M_bind, isRateLimited.
  unfold passes_limiter, limited in Hadm.
  destruct (RateLimit.isRateLimited now (from_id msg) (rateLimitStore w))
    as [lim store']. simpl in Hadm. subst lim.
  rewrite Ht, Hslash. unfold get_state. cbn [userState fst snd].
  rewrite Hentry. unfold dispatch. rewrite Hstate. cbn [branch_of String.eqb].
  change (branch_of "awaiting_wishlist") with BranchWishlist. cbv iota.
  unfold on_awaiting_wishlist, mbind, M_bind, field. rewrite Hname.
  unfold mret, M_ret, attempt, query, Store.query. cbn [db].
  fold (stored_wishlist t).
  replace (if negb (String.eqb (JS.toLowerCase t) "skip")
           then Security.validateWishlist (Some t) else "")
    with (stored_wishlist t)
    by (unfold stored_wishlist; by destruct (String.eqb (JS.toLowerCase t) "skip")).
  destruct (Store.faults (db w) (length (Store.log (db w)))) eqn:Hfault.
  - cbn. by split_and!.
  - cbn. split_and!; try done.
    + intros Hnew. subst rows.
      destruct (Store.has_name n _) eqn:Hhas; [|done].
      by apply has_name_spec in Hhas.
    + intros Hold. subst rows. apply has_name_spec in Hold. rewrite Hold.
      apply set_wishlist_rows.
Qed.

(** Zoe is new and her reply needs escaping; Alice is registered and her
    wishlist is replaced. *)
Lemma wishlist_reply_upserts_witness :
  let table := [Store.mkParticipant 1 "Alice" ""; Store.mkParticipant 2 "Bob" "tea"] in
  let world name :=
    mkWorld {[ 5 := mkStateData "awaiting_wishlist" (Some name) None None None ]}
            {[ 7 := RateLimit.mkUserData 3 60000 ]}
            (Store.mkDb (Store.mkTables table [] [] [] 3 1 1 1) None (λ _, false) [])
            (mkRng (λ _, O) O) [] in
  let msg := mkMsg 5 7 (Some " <3 tea & 'socks' ") in
  let zoe := (on_message (Some 1) 1000 msg (world "Zoe")).2 in
  let alice := (on_message (Some 1) 1000 msg (world "Alice")).2 in
  Store.tg_participants (Store.tables (db zoe))
  = table ++ [Store.mkParticipant 3 "Zoe" "&lt;3 tea & &#x27;socks&#x27;"] ∧
  Store.tg_participants (Store.tables (db alice))
  = [Store.mkParticipant 1 "Alice" "&lt;3 tea & &#x27;socks&#x27;";
     Store.mkParticipant 2 "Bob" "tea"] ∧
  (on_message (Some 1) 1000 msg (world "Zoe")).1 = Ok () ∧
  userState zoe = delete (chat_id msg) (userState (world "Zoe")).
Proof.
  intros table world msg zoe alice.
  split; [vm_compute; reflexivity|]. split; [vm_compute; reflexivity|].
  pose proof (wishlist_reply_upserts (Some 1) 1000 msg (world "Zoe")
                " <3 tea & 'socks' "
                (mkStateData "awaiting_wishlist" (Some "Zoe") None None None)
                "Zoe") as H.
  destruct H as (H1 & H2 & _).
  - vm_compute. reflexivity.
  - reflexivity.
  - reflexivity.
  - vm_compute. reflexivity.
  - reflexivity.
  - reflexivity.
  - split; [exact H1|exact H2].
Defined.

(** A message without text in awaiting_wishlist: [text.toLowerCase()]
    throws, nothing is stored and the entry stays. *)
Example wishlist_reply_without_text :
  let entry := mkStateData "awaiting_wishlist" (Some "Alice") None None None in
  let w := mkWorld {[ 5 := entry ]} ∅
             (Store.mkDb (Store.mkTables [] [] [] [] 1 1 1 1) None (λ _, false) [])
             (mkRng (λ _, O) O) [] in
  let run := on_message (Some 1) 1000 (mkMsg 5 7 None) w in
  run.1 = Throw type_error ∧ userState run.2 !! 5 = Some entry ∧
  Store.log (db run.2) = [].
Proof. vm_compute. by split_and!. Qed.

(** ** Group creation is all or nothing *)

(** What [m] guarantees from a world in [P]: [Q] on a normal return, [E]
    on an exception. *)
Definition hoare {A} (P : World → Prop) (m : M A)
           (Q : A → World → Prop) (E : World → Prop) : Prop :=
  ∀ w, P w →
    match m w with
    | (Ok a, w') => Q a w'
    | (Throw _, w') => E w'
    end.

Lemma hoare_ret {A} (a : A) (Q : A → World → Prop) E : hoare (Q a) (mret a) Q E.
Proof. intros w Hw. exact Hw. Qed.

Lemma hoare_throw {A} (e : string) (Q : A → World → Prop) (E : World → Prop) :
  hoare E (throw e) Q E.
Proof. intros w Hw. exact Hw. Qed.

Lemma hoare_bind {A B} P (m : M A) (f : A → M B) Q R E :
  hoare P m Q E → (∀ a, hoare (Q a) (f a) R E) → hoare P (m ≫= f) R E.
Proof.
  intros Hm Hf w Hw. specialize (Hm w Hw). unfold mbind, M_bind.
  destruct (m w) as [[a|e] w']; [|done]. by apply Hf.
Qed.

Lemma hoare_weaken {A} (P P' : World → Prop) (m : M A)
      (Q Q' : A → World → Prop) (E E' : World → Prop) :
  hoare P' m Q' E' → (∀ w, P w → P' w) → (∀ a w, Q' a w → Q a w) →
  (∀ w, E' w → E w) → hoare P m Q E.
Proof.
  intros Hm HP HQ HE w Hw. specialize (Hm w (HP w Hw)).
  destruct (m w) as [[a|e] w']; auto.
Qed.

Lemma hoare_try_catch {A} P (body : M A) (handler : string → M A) Q E1 E2 :
  hoare P body Q E1 → (∀ e, hoare E1 (handler e) Q E2) →
  hoare P (try_catch body handler) Q E2.
Proof.
  intros Hb Hh w Hw. specialize (Hb w Hw). unfold try_catch.
  destruct (body w) as [[a|e] w']; [done|]. by apply Hh.
Qed.

(** The messages that report a run that saved nothing. *)
Definition failure_notice (m : Message) : Prop :=
  match m with
  | MatchingFailed _ _ _ | MatchingEmpty _ | UnmappedParticipant _
  | UnmappedAssignment | UnexpectedError _ => True
  | _ => False
  end.

(** A statement other than the three that open and close a transaction. *)
Definition data_statement (q : Store.Statement) : Prop :=
  match q with
  | Store.BEGIN | Store.COMMIT | Store.ROLLBACK => False
  | _ => True
  end.

Section Run.
Variable chatId : Z.
(** The world in which the run starts. *)
Variable w0 : World.

(** The statements issued since the run started. *)
Definition issued (w : World) (new : list (Store.Statement * bool)) : Prop :=
  Store.log (db w) = Store.log (db w0) ++ new.

(** Inside the transaction, no fault so far, nothing sent. *)
Definition clean (w : World) : Prop :=
  ∃ new, issued w new ∧ Forall (λ e, e.2 = true) new ∧
         ((Store.COMMIT, true) ∉ new) ∧
         Store.begun (db w) = Some (Store.tables (db w0)) ∧
         sent w = sent w0.

(** An exception is on its way to the outer [catch]. *)
Definition broken (w : World) : Prop :=
  ∃ new, issued w new ∧ ((Store.COMMIT, true) ∉ new) ∧
         (Store.begun (db w) = Some (Store.tables (db w0))
          ∨ (Store.begun (db w) = None
             ∧ Store.tables (db w) = Store.tables (db w0))) ∧
         sent w = sent w0.

(** The transaction has been rolled back; nothing is sent yet. *)
Definition rolled (w : World) : Prop :=
  ∃ new, issued w new ∧ ((Store.COMMIT, true) ∉ new) ∧
         (∃ ok, (Store.ROLLBACK, ok) ∈ new) ∧
         Store.begun (db w) = None ∧
         Store.tables (db w) = Store.tables (db w0) ∧
         sent w = sent w0.

(** Rolled back and reported. *)
Definition undone (w : World) : Prop :=
  ∃ new, issued w new ∧ ((Store.COMMIT, true) ∉ new) ∧
         (∃ ok, (Store.ROLLBACK, ok) ∈ new) ∧
         Store.begun (db w) = None ∧
         Store.tables (db w) = Store.tables (db w0) ∧
         ∃ m, failure_notice m ∧ sent w = sent w0 ++ [(chatId, m)].

(** Committed and reported. *)
Definition saved (w : World) : Prop :=
  ∃ new, issued w new ∧ Forall (λ e, e.2 = true) new ∧
         ((Store.COMMIT, true) ∈ new) ∧
         Store.begun (db w) = None ∧
         ∃ groups total summary,
           sent w = sent w0 ++ [(chatId, GroupsCreated groups total summary)].

Lemma clean_broken w : clean w → broken w.
Proof.
  intros (new & ? & ? & ? & ? & ?). exists new. split_and!; auto.
Qed.

Lemma rolled_broken w : rolled w → broken w.
Proof.
  intros (new & ? & ? & ? & ? & ? & ?). exists new. split_and!; auto.
Qed.

Lemma hoare_query_clean q :
  data_statement q → hoare clean (query q) (λ _, clean) broken.
Proof.
  intros Hq w (new & Hlog & Hok & Hnc & Hb & Hs).
  unfold query, Store.query.
  destruct (Store.faults (db w) (length (Store.log (db w)))).
  - assert (broken (mkWorld (userState w) (rateLimitStore w)
              (Store.mkDb (Store.tables (db w)) (Store.begun (db w))
                 (Store.faults (db w)) (Store.log (db w) ++ [(q, false)]))
              (rng w) (sent w))) as Hbr.
    { exists (new ++ [(q, false)]). unfold issued in *. cbn.
      split_and!; [by rewrite Hlog, app_assoc| |by left|done].
      rewrite elem_of_app, list_elem_of_singleton. intros [?|?]; [done|congruence]. }
    by destruct q.
  - assert (∀ rows t,
              Store.run q (db w) = (rows, t, Store.begun (db w)) →
              clean (mkWorld (userState w) (rateLimitStore w)
                       (Store.mkDb t (Store.begun (db w)) (Store.faults (db w))
                          (Store.log (db w) ++ [(q, true)]))
                       (rng w) (sent w))) as Hcl.
    { intros rows t _. exists (new ++ [(q, true)]). unfold issued in *. cbn.
      split_and!; [by rewrite Hlog, app_assoc| | |done|done].
      - apply Forall_app. split; [done|]. by constructor.
      - rewrite elem_of_app, list_elem_of_singleton. intros [?|Heq]; [done|].
        injection Heq as <-. done. }
    destruct q; try done; cbn; by eapply Hcl.
Qed.

Lemma hoare_rollback_broken :
  hoare broken (query Store.ROLLBACK) (λ _, rolled) rolled.
Proof.
  intros w (new & Hlog & Hnc & Hb & Hs).
  unfold query, Store.query.
  assert (default (Store.tables (db w)) (Store.begun (db w))
          = Store.tables (db w0)) as Ht.
  { destruct Hb as [->|[-> ->]]; done. }
  assert (∀ ok, rolled (mkWorld (userState w) (rateLimitStore w)
              (Store.mkDb (Store.tables (db w0)) None
                 (Store.faults (db w)) (Store.log (db w) ++ [(Store.ROLLBACK, ok)]))
              (rng w) (sent w))) as Hr.
  { intros ok. exists (new ++ [(Store.ROLLBACK, ok)]). unfold issued in *. cbn.
    split_and!; [by rewrite Hlog, app_assoc| | |done|done|done].
    - rewrite elem_of_app, list_elem_of_singleton. intros [?|?]; [done|congruence].
    - exists ok. rewrite elem_of_app, list_elem_of_singleton. by right. }
  destruct (Store.faults (db w) (length (Store.log (db w)))); cbn;
    rewrite Ht; apply Hr.
Qed.

Lemma hoare_send_rolled m (E : World → Prop) :
  failure_notice m → hoare rolled (sendMessage chatId m) (λ _, undone) E.
Proof.
  intros Hm w (new & ? & ? & ? & ? & ? & Hs). cbn.
  exists new. split_and!; try done. exists m. by rewrite Hs.
Qed.

(** [await client.query('ROLLBACK'); bot.sendMessage(chatId, m)] and the
    value left for the loop. *)
Lemma hoare_abort {A} m (a : A) (Q : A → World → Prop) :
  failure_notice m → (∀ w, undone w → Q a w) →
  hoare clean
    (_ ← query Store.ROLLBACK; _ ← sendMessage chatId m; mret a) Q broken.
Proof.
  intros Hm HQ.
  eapply (hoare_bind _ _ _ (λ _, rolled)).
  { eapply hoare_weaken; [apply hoare_rollback_broken| | |].
    - apply clean_broken.
    - intros u w Hw. exact Hw.
    - apply rolled_broken. }
  intros ?. eapply hoare_bind; [by apply hoare_send_rolled|].
  intros ?. eapply hoare_weaken; [apply (hoare_ret a Q)|..]; eauto.
Qed.

Lemma hoare_draw_clean {A} (f : Rng → A * Rng) :
  hoare clean (draw f) (λ _, clean) broken.
Proof.
  intros w Hw. unfold draw. by destruct (f (rng w)).
Qed.

Variable participantMap : gmap string Z.
Variable restrictions : list (list string).

Lemma hoare_insert_members groupId groupNames :
  hoare clean (insert_members chatId participantMap groupId groupNames)
        (λ ok w, if ok then clean w else undone w) broken.
Proof.
  induction groupNames as [|name rest IH]; cbn [insert_members].
  { intros w Hw. exact Hw. }
  destruct (participantMap !! name) as [participantId|].
  - eapply hoare_bind; [by apply hoare_query_clean|]. intros ?. apply IH.
  - apply hoare_abort; done.
Qed.

Lemma hoare_insert_assignments groupId matches p :
  allGroupsProcessedSuccessfully p = true →
  hoare clean (insert_assignments chatId participantMap groupId matches p)
        (λ p' w, if allGroupsProcessedSuccessfully p' then clean w else undone w)
        broken.
Proof.
  revert p. induction matches as [|m rest IH]; intros p Hp;
    cbn [insert_assignments].
  { intros w Hw. cbn. by rewrite Hp. }
  destruct (participantMap !! Bot.giver m) as [giverId|];
    [destruct (participantMap !! Bot.receiver m) as [receiverId|]|].
  - eapply hoare_bind; [by apply hoare_query_clean|]. intros ?. by apply IH.
  - apply hoare_abort; done.
  - apply hoare_abort; done.
Qed.

Lemma hoare_process_groups groups i p :
  allGroupsProcessedSuccessfully p = true →
  hoare clean (process_groups chatId participantMap restrictions groups i p)
        (λ p' w, if allGroupsProcessedSuccessfully p' then clean w else undone w)
        broken.
Proof.
  revert i p. induction groups as [|groupNames rest IH]; intros i p Hp;
    cbn [process_groups].
  { intros w Hw. cbn. by rewrite Hp. }
  destruct (length groupNames <? 2)%nat; [by apply IH|].
  eapply hoare_bind; [apply hoare_draw_clean|]. intros [matches|matchError].
  2:{ apply hoare_abort; done. }
  destruct ((length matches =? 0)%nat && (2 <=? length groupNames)%nat).
  { apply hoare_abort; done. }
  eapply hoare_bind; [by apply hoare_query_clean|]. intros rows.
  eapply hoare_bind with (Q := λ _, clean).
  { destruct rows; try (eapply hoare_weaken;
      [apply (hoare_throw _ (λ _, clean) broken)|apply clean_broken|auto|auto]).
    apply (hoare_ret _ (λ _, clean)). }
  intros groupId.
  eapply hoare_bind; [apply hoare_insert_members|]. intros [|]; cbn [negb].
  2:{ intros w Hw. exact Hw. }
  eapply hoare_bind; [by apply hoare_insert_assignments|]. intros p'.
  cbv beta. destruct (allGroupsProcessedSuccessfully p') eqn:Hp'; cbn [negb].
  - by apply IH.
  - intros w Hw. cbn. by rewrite Hp'.
Qed.

Hypothesis no_transaction : Store.begun (db w0) = None.

Lemma hoare_begin :
  hoare (λ w, w = w0) (query Store.BEGIN) (λ _, clean) broken.
Proof.
  intros w ->. unfold query, Store.query.
  destruct (Store.faults (db w0) (length (Store.log (db w0)))); cbn.
  - exists [(Store.BEGIN, false)]. unfold issued. cbn.
    split_and!; [done| |by right|done].
    rewrite list_elem_of_singleton. congruence.
  - rewrite no_transaction. exists [(Store.BEGIN, true)]. unfold issued. cbn.
    split_and!; [done|by repeat constructor| |done|done].
    rewrite list_elem_of_singleton. congruence.
Qed.

Lemma hoare_commit groups total summary :
  hoare clean
    (_ ← query Store.COMMIT;
     sendMessage chatId (GroupsCreated groups total summary))
    (λ _, saved) broken.
Proof.
  intros w (new & Hlog & Hok & Hnc & Hb & Hs).
  unfold mbind, M_bind, query, Store.query.
  destruct (Store.faults (db w) (length (Store.log (db w)))); cbn.
  - exists (new ++ [(Store.COMMIT, false)]). unfold issued in *. cbn.
    split_and!; [by rewrite Hlog, app_assoc| |by left|done].
    rewrite elem_of_app, list_elem_of_singleton. intros [?|?]; [done|congruence].
  - exists (new ++ [(Store.COMMIT, true)]). unfold issued in *. cbn.
    split_and!; [by rewrite Hlog, app_assoc| | |done|].
    + apply Forall_app. split; [done|]. by constructor.
    + rewrite elem_of_app, list_elem_of_singleton. by right.
    + exists groups, total, summary. by rewrite Hs.
Qed.

Lemma hoare_create_groups_try participantNames numGroups :
  hoare (λ w, w = w0)
    (create_groups_try chatId participantNames participantMap numGroups
                       restrictions)
    (λ _ w, undone w ∨ saved w) broken.
Proof.
  unfold create_groups_try.
  eapply hoare_bind; [apply hoare_begin|]. intros ?.
  eapply hoare_bind; [by apply hoare_query_clean|]. intros ?.
  eapply hoare_bind; [apply hoare_draw_clean|]. intros r.
  eapply hoare_bind with (Q := λ _, clean).
  { destruct r as [groups|e].
    - apply (hoare_ret _ (λ _, clean)).
    - eapply hoare_weaken;
        [apply (hoare_throw _ (λ _, clean) broken)|apply clean_broken|auto|auto]. }
  intros createdGroupsByName.
  eapply hoare_bind; [by apply hoare_process_groups|]. intros p. cbv beta.
  destruct (allGroupsProcessedSuccessfully p).
  - eapply hoare_weaken; [apply hoare_commit|auto| |auto].
    intros ? w Hw. by right.
  - intros w Hw. by left.
Qed.

Lemma hoare_create_groups participantNames numGroups :
  hoare (λ w, w = w0)
    (create_groups chatId participantNames participantMap numGroups restrictions)
    (λ _ w, undone w ∨ saved w) (λ _, False).
Proof.
  unfold create_groups.
  eapply hoare_bind with (Q := λ _ w, undone w ∨ saved w).
  - eapply hoare_try_catch; [apply hoare_create_groups_try|]. intros error.
    eapply hoare_bind with (Q := λ _, rolled).
    + eapply hoare_try_catch.
      * eapply hoare_bind; [apply hoare_rollback_broken|]. intros ?.
        apply (hoare_ret _ (λ _, rolled)).
      * intros rbError. apply (hoare_ret _ (λ _, rolled)).
    + intros ?. eapply hoare_weaken;
        [by apply (hoare_send_rolled (UnexpectedError error) (λ _, False))
        |auto| |auto].
      intros ? w Hw. by left.
  - intros ? w [Hw|Hw]; cbn.
    + left. destruct Hw as (new & ?). by exists new.
    + right. destruct Hw as (new & ?). by exists new.
Qed.

End Run.

(** *** What a run is to write *)

Section Planned.
Variable participantMap : gmap string Z.
Variable restrictions : list (list string).

(** A membership row for each name, when each has an id. *)
Fixpoint planned_members (groupId : Z) (groupNames : list string)
         (t : Store.Tables) : option Store.Tables :=
  match groupNames with
  | [] => Some t
  | name :: rest =>
      match participantMap !! name with
      | Some participantId =>
          planned_members groupId rest (Store.insert_member groupId participantId t)
      | None => None
      end
  end.

(** An assignment row for each pair, when both names have an id. *)
Fixpoint planned_assignments (groupId : Z) (matches : list Bot.Match)
         (t : Store.Tables) : option Store.Tables :=
  match matches with
  | [] => Some t
  | m :: rest =>
      match participantMap !! Bot.giver m, participantMap !! Bot.receiver m with
      | Some giverId, Some receiverId =>
          planned_assignments groupId rest
            (Store.insert_assignment groupId giverId receiverId t)
      | _, _ => None
      end
  end.

(** Every group of at least two, in order: its matching, then its group
    row, its membership rows and its assignment rows.  [None] when the
    matching of a group fails or a name has no id. *)
Fixpoint planned_groups (groups : list (list string)) (i : Z) (g : Rng)
         (t : Store.Tables) : option Store.Tables :=
  match groups with
  | [] => Some t
  | groupNames :: rest =>
      if (length groupNames <? 2)%nat then planned_groups rest (i + 1) g t
      else
        match Bot.assignSecretAngels groupNames restrictions g with
        | (Throw _, _) => None
        | (Ok matches, g') =>
            let groupId := Store.next_group t in
            t ← planned_members groupId groupNames
                  (Store.insert_group (group_label i) t);
            t ← planned_assignments groupId matches t;
            planned_groups rest (i + 1) g' t
        end
  end.

(** The tables that a run is to leave, from the tables and the random
    source it starts with: the three tables emptied and then the rows of
    every group.  [None] when the grouping fails, the matching of some
    group fails, or a name has no id. *)
Definition planned_tables (participantNames : list string) (numGroups : Z)
           (g : Rng) (t : Store.Tables) : option Store.Tables :=
  match Bot.assignParticipantsToGroups participantNames numGroups g with
  | (Ok groups, g') => planned_groups groups 0 g' (Store.truncate_groups t)
  | (Throw _, _) => None
  end.

End Planned.

Section Exact.
Variable chatId : Z.
(** The world in which the run starts. *)
Variable w0 : World.
Variable participantMap : gmap string Z.
Variable restrictions : list (list string).

(** The run is under way with these tables and this random source. *)
Definition exact (t : Store.Tables) (g : Rng) (w : World) : Prop :=
  Store.tables (db w) = t ∧ rng w = g ∧ sent w = sent w0 ∧
  ∃ new, issued w0 w new.

(** A statement of the run has failed. *)
Definition failed_statement (w : World) : Prop :=
  ∃ new q, issued w0 w new ∧ (q, false) ∈ new.

Definition faulty (w : World) : Prop := sent w = sent w0 ∧ failed_statement w.

(** The run has reported that it saved nothing. *)
Definition gave_up (w : World) : Prop :=
  ∃ m, failure_notice m ∧ sent w = sent w0 ++ [(chatId, m)].

Lemma exact_query q (f : Store.Tables → Store.Tables) t g :
  (∀ d, (Store.run q d).1.2 = f (Store.tables d)) →
  hoare (exact t g) (query q)
    (λ rows w, exact (f t) g w ∧
               ∃ d, Store.tables d = t ∧ rows = (Store.run q d).1.1)
    faulty.
Proof.
  intros Hf w (Ht & Hg & Hs & new & Hlog). unfold query, Store.query.
  destruct (Store.faults (db w) (length (Store.log (db w)))).
  - assert (∀ d', Store.log d' = Store.log (db w) ++ [(q, false)] →
                  faulty (mkWorld (userState w) (rateLimitStore w) d' (rng w) (sent w)))
      as Hfaulty.
    { intros d' Hd'. split; [done|]. exists (new ++ [(q, false)]), q.
      unfold issued in *. cbn. rewrite Hd', Hlog, app_assoc. split; [done|].
      rewrite elem_of_app, list_elem_of_singleton. by right. }
    destruct q; by apply Hfaulty.
  - specialize (Hf (db w)).
    destruct (Store.run q (db w)) as [[rows t'] b] eqn:Hrun. cbn in Hf. cbn. split.
    + split_and!; [by rewrite Hf, Ht|done|done|].
      exists (new ++ [(q, true)]). unfold issued in *. cbn.
      by rewrite Hlog, app_assoc.
    + exists (db w). split; [done|]. by rewrite Hrun.
Qed.

Lemma exact_abort {A} m (a : A) (Q : A → World → Prop) t g :
  failure_notice m → (∀ w, gave_up w → Q a w) →
  hoare (exact t g)
    (_ ← query Store.ROLLBACK; _ ← sendMessage chatId m; mret a)
    Q faulty.
Proof.
  intros Hm HQ w (Ht & Hg & Hs & new & Hlog).
  unfold mbind, M_bind, query, Store.query.
  destruct (Store.faults (db w) (length (Store.log (db w)))); cbn.
  - split; [done|]. exists (new ++ [(Store.ROLLBACK, false)]), Store.ROLLBACK.
    unfold issued in *. cbn. rewrite Hlog, app_assoc. split; [done|].
    rewrite elem_of_app, list_elem_of_singleton. by right.
  - apply HQ. exists m. split; [done|]. by rewrite Hs.
Qed.

Lemma exact_draw {A} (f : Rng → A * Rng) t g :
  hoare (exact t g) (draw f) (λ a w, a = (f g).1 ∧ exact t (f g).2 w) faulty.
Proof.
  intros w (Ht & Hg & Hs & Hnew). unfold draw. rewrite Hg.
  destruct (f g) as [a g']. by split_and!.
Qed.

Lemma exact_insert_members groupId groupNames t g :
  hoare (exact t g) (insert_members chatId participantMap groupId groupNames)
    (λ ok w,
       if ok
       then ∃ t', planned_members participantMap groupId groupNames t = Some t' ∧
                  exact t' g w
       else gave_up w ∧ planned_members participantMap groupId groupNames t = None)
    faulty.
Proof.
  revert t. induction groupNames as [|name rest IH]; intros t;
    cbn [insert_members planned_members].
  { intros w Hw. by exists t. }
  destruct (participantMap !! name) as [participantId|].
  - eapply hoare_bind.
    { apply (exact_query _ (Store.insert_member groupId participantId)). done. }
    intros rows w [Hw _]. revert w Hw. apply IH.
  - apply (exact_abort (UnmappedParticipant name)); [done|]. intros w Hw. by split.
Qed.

Lemma exact_insert_assignments groupId matches p t g :
  allGroupsProcessedSuccessfully p = true →
  hoare (exact t g) (insert_assignments chatId participantMap groupId matches p)
    (λ p' w,
       if allGroupsProcessedSuccessfully p'
       then ∃ t', planned_assignments participantMap groupId matches t = Some t' ∧
                  exact t' g w
       else gave_up w ∧ planned_assignments participantMap groupId matches t = None)
    faulty.
Proof.
  revert t p. induction matches as [|m rest IH]; intros t p Hp;
    cbn [insert_assignments planned_assignments].
  { intros w Hw. cbn. rewrite Hp. by exists t. }
  destruct (participantMap !! Bot.giver m) as [giverId|];
    [destruct (participantMap !! Bot.receiver m) as [receiverId|]|].
  - eapply hoare_bind.
    { apply (exact_query _ (Store.insert_assignment groupId giverId receiverId)). done. }
    intros rows w [Hw _]. revert w Hw. by apply IH.
  - apply (exact_abort UnmappedAssignment); [done|]. intros w Hw. by split.
  - apply (exact_abort UnmappedAssignment); [done|]. intros w Hw. by split.
Qed.

Lemma exact_process_groups groups i p t g :
  allGroupsProcessedSuccessfully p = true →
  hoare (exact t g)
    (process_groups chatId participantMap restrictions groups i p)
    (λ p' w,
       if allGroupsProcessedSuccessfully p'
       then ∃ t' g', planned_groups participantMap restrictions groups i g t = Some t' ∧
                     exact t' g' w
       else gave_up w ∧
            planned_groups participantMap restrictions groups i g t = None)
    faulty.
Proof.
  revert i p t g. induction groups as [|groupNames rest IH]; intros i p t g Hp;
    cbn [process_groups planned_groups].
  { intros w Hw. cbn. rewrite Hp. by exists t, g. }
  destruct (Nat.ltb_spec (length groupNames) 2) as [Hshort|Hlong]; [by apply IH|].
  eapply hoare_bind; [apply exact_draw|]. intros r w [-> Hw]. revert w Hw.
  destruct (Bot.assignSecretAngels groupNames restrictions g)
    as [[matches|matchError] g'] eqn:Hmatch; cbn [fst snd].
  2:{ apply (exact_abort (MatchingFailed _ _ _)); [done|]. intros w Hw. by split. }
  assert (length matches = length groupNames) as Hlen.
  { eapply BotFacts.assignSecretAngels_Ok; [exact Hlong|]. by rewrite Hmatch. }
  destruct (Nat.eqb_spec (length matches) 0) as [?|_]; [lia|]. cbn [andb].
  eapply hoare_bind.
  { apply (exact_query _ (Store.insert_group (group_label i))). done. }
  intros rows.
  eapply hoare_bind with
    (Q := λ groupId w, groupId = Store.next_group t ∧
                       exact (Store.insert_group (group_label i) t) g' w).
  { intros w [Hw (d & Hd & ->)]. cbn. by rewrite Hd. }
  intros groupId w [-> Hw]. revert w Hw.
  eapply hoare_bind; [apply exact_insert_members|].
  intros [|]; cbn [negb].
  2:{ intros w [Hw ->]. done. }
  intros w (t1 & -> & Hw). cbn [mbind option_bind]. revert w Hw.
  eapply hoare_bind;
    [by apply (exact_insert_assignments _ _
                 (add_line (GroupHeader (group_label i) (length groupNames)) p))|].
  intros p'. cbv beta.
  destruct (allGroupsProcessedSuccessfully p') eqn:Hp'; cbn [negb].
  - intros w (t2 & -> & Hw). cbn [mbind option_bind]. revert w Hw. by apply IH.
  - intros w [Hw ->]. cbn. by rewrite Hp'.
Qed.

Variable participantNames : list string.
Variable numGroups : Z.

(** The tables that the run is to leave. *)
Definition planned : option Store.Tables :=
  planned_tables participantMap restrictions participantNames numGroups
                 (rng w0) (Store.tables (db w0)).

(** The run has committed what was planned and reported it. *)
Definition done_as_planned (w : World) : Prop :=
  planned = Some (Store.tables (db w)) ∧
  ∃ groups total summary,
    sent w = sent w0 ++ [(chatId, GroupsCreated groups total summary)].

(** The run failed for a reason: nothing could be planned, or a statement
    failed. *)
Definition failed_for_a_reason (w : World) : Prop :=
  planned = None ∨ failed_statement w.

Lemma exact_create_groups_try :
  hoare (λ w, w = w0)
    (create_groups_try chatId participantNames participantMap numGroups
                       restrictions)
    (λ _ w, gave_up w ∧ planned = None ∨ done_as_planned w)
    (λ w, sent w = sent w0 ∧ failed_for_a_reason w).
Proof.
  unfold create_groups_try.
  eapply hoare_weaken with
    (P' := exact (Store.tables (db w0)) (rng w0))
    (Q' := λ _ w, gave_up w ∧ planned = None ∨ done_as_planned w)
    (E' := λ w, sent w = sent w0 ∧ failed_for_a_reason w);
    [|intros w ->; split_and!; try done; by exists []; unfold issued; rewrite app_nil_r
     |auto|auto].
  assert (∀ w, faulty w → sent w = sent w0 ∧ failed_for_a_reason w) as Hfaulty.
  { intros w [? ?]. split; [done|by right]. }
  assert (∀ q f t g,
            (∀ d, (Store.run q d).1.2 = f (Store.tables d)) →
            hoare (exact t g) (query q) (λ _, exact (f t) g)
                  (λ w, sent w = sent w0 ∧ failed_for_a_reason w)) as Hquery.
  { intros q f t g Hf w Hw. pose proof (exact_query q f t g Hf w Hw) as H.
    destruct (query q w) as [[rows|e] w']; [by destruct H|by apply Hfaulty]. }
  eapply hoare_bind; [by apply (Hquery Store.BEGIN id)|]. intros ?.
  eapply hoare_bind; [by apply (Hquery Store.TRUNCATE_groups Store.truncate_groups)|].
  intros ?.
  eapply hoare_bind.
  { intros w Hw. pose proof (exact_draw
      (Bot.assignParticipantsToGroups participantNames numGroups) _ _ w Hw) as H.
    destruct (draw _ w) as [[r0|e] w1]; [exact H|by apply Hfaulty]. }
  intros r w [-> Hw]. revert w Hw.
  destruct (Bot.assignParticipantsToGroups participantNames numGroups (rng w0))
    as [[groups|e] g1] eqn:Hgrouping; cbn [fst snd].
  2:{ intros w (_ & _ & Hs & _). cbn. split; [done|]. left.
      unfold planned, planned_tables. by rewrite Hgrouping. }
  assert (planned = planned_groups participantMap restrictions groups 0 g1
                      (Store.truncate_groups (Store.tables (db w0)))) as Hplanned.
  { unfold planned, planned_tables. by rewrite Hgrouping. }
  eapply hoare_bind with
    (Q := λ created w, created = groups ∧
            exact (Store.truncate_groups (Store.tables (db w0))) g1 w).
  { intros w Hw. by split. }
  intros created w [-> Hw]. revert w Hw.
  eapply hoare_bind.
  { intros w Hw.
    pose proof (exact_process_groups groups 0 (mkProgress [] 0 true) _ _ eq_refl w Hw)
      as H.
    destruct (process_groups _ _ _ _ _ _ w) as [[p0|e] w1]; [exact H|by apply Hfaulty]. }
  intros p. cbv beta. destruct (allGroupsProcessedSuccessfully p).
  - intros w (t' & g' & Hplan & Hw). revert w Hw.
    eapply hoare_bind; [by apply (Hquery Store.COMMIT id)|].
    intros ? w (Ht & _ & Hs & _). cbn. right. split.
    + unfold id in Ht. rewrite Hplanned, Hplan. cbn [db sendMessage]. by rewrite Ht.
    + eexists _, _, _. by rewrite Hs.
  - intros w [Hw Hplan]. cbn. left. split; [done|]. by rewrite Hplanned.
Qed.

Lemma exact_create_groups :
  hoare (λ w, w = w0)
    (create_groups chatId participantNames participantMap numGroups restrictions)
    (λ _ w, gave_up w ∧ failed_for_a_reason w ∨ done_as_planned w)
    (λ _, False).
Proof.
  unfold create_groups.
  eapply hoare_bind with
    (Q := λ _ w, gave_up w ∧ failed_for_a_reason w ∨ done_as_planned w).
  - eapply hoare_try_catch.
    { intros w Hw. pose proof (exact_create_groups_try w Hw) as H.
      destruct (create_groups_try _ _ _ _ _ w) as [[[]|e] w1]; [|exact H].
      destruct H as [[? ?]|?]; [left; split; [done|by left]|by right]. }
    intros error w [Hs Hreason].
    assert (∀ ok, failed_for_a_reason
              (mkWorld (userState w) (rateLimitStore w)
                 (Store.mkDb (default (Store.tables (db w)) (Store.begun (db w))) None
                    (Store.faults (db w))
                    (Store.log (db w) ++ [(Store.ROLLBACK, ok)]))
                 (rng w) (sent w ++ [(chatId, UnexpectedError error)]))) as Hkeep.
    { intros ok. destruct Hreason as [?|(new & q & Hlog & Hq)]; [by left|right].
      exists (new ++ [(Store.ROLLBACK, ok)]), q. unfold issued in *. cbn.
      rewrite Hlog, app_assoc. split; [done|]. rewrite elem_of_app. by left. }
    unfold mbind, M_bind, try_catch, query, Store.query.
    destruct (Store.faults (db w) (length (Store.log (db w)))); cbn; left;
      (split; [exists (UnexpectedError error); split; [done|by rewrite Hs]
              |apply Hkeep]).
  - intros ? w H. cbn. destruct H as [[Hg Hr]|[Hp Hs]]; [left|right].
    + split; [exact Hg|]. destruct Hr as [?|(new & q & ? & ?)]; [by left|right].
      by exists new, q.
    + by split.
Qed.

End Exact.

(** C2, for a run that has the connection to itself.  A run of group
    creation that starts outside a transaction ends outside one, in one of
    two ways.  Either no COMMIT succeeded: then a ROLLBACK was issued,
    every table is exactly as it was before the run, one message reports
    the failure, and there is a reason: nothing could be planned (the
    matching of some group failed, a name has no id, the grouping failed)
    or a statement failed.  Or COMMIT succeeded: then every statement of
    the run succeeded, the tables are exactly the planned ones, with the
    rows of every group, and the only message is the summary. *)
Theorem create_groups_all_or_nothing chatId participantNames participantMap
        numGroups restrictions w :
  Store.begun (db w) = None →
  let run := create_groups chatId participantNames participantMap numGroups
                           restrictions w in
  let planned := planned_tables participantMap restrictions participantNames
                                numGroups (rng w) (Store.tables (db w)) in
  run.1 = Ok () ∧
  ∃ new,
    Store.log (db run.2) = Store.log (db w) ++ new ∧
    Store.begun (db run.2) = None ∧
    (((Store.COMMIT, true) ∉ new) ∧
     (∃ ok, (Store.ROLLBACK, ok) ∈ new) ∧
     Store.tables (db run.2) = Store.tables (db w) ∧
     (∃ m, failure_notice m ∧ sent run.2 = sent w ++ [(chatId, m)]) ∧
     (planned = None ∨ ∃ q, (q, false) ∈ new)
     ∨
     ((Store.COMMIT, true) ∈ new) ∧
     Forall (λ e, e.2 = true) new ∧
     planned = Some (Store.tables (db run.2)) ∧
     (∃ groups total summary,
        sent run.2 = sent w ++ [(chatId, GroupsCreated groups total summary)])).
Proof.
  intros Hb run planned'.
  pose proof (hoare_create_groups chatId w participantMap restrictions Hb
                participantNames numGroups w eq_refl) as H.
  pose proof (exact_create_groups chatId w participantMap restrictions
                participantNames numGroups w eq_refl) as H'.
  fold run in H, H'. destruct run as [[[]|e] w']; [|done]. cbn [fst snd].
  split; [done|].
  destruct H as [(new & Hlog & Hnc & Hrb & Hbegun & Ht & (m & Hm & Hs))
                |(new & Hlog & Hok & Hc & Hbegun & (groups & total & summary & Hs))];
    exists new; (split; [exact Hlog|]); (split; [exact Hbegun|]).
  - left. split_and!; try done; [by exists m|].
    destruct H' as [[_ [Hnone|(new' & q & Hlog' & Hq)]]|[_ (? & ? & ? & Hs')]].
    + by left.
    + right. exists q. unfold issued in *. rewrite Hlog in Hlog'.
      by apply app_inv_head in Hlog' as ->.
    + rewrite Hs in Hs'. apply app_inv_head in Hs'. injection Hs' as ->. done.
  - right. split_and!; try done; [|by exists groups, total, summary].
    destruct H' as [[(m & Hm & Hs') _]|[Hp _]]; [|done].
    rewrite Hs in Hs'. apply app_inv_head in Hs'. injection Hs' as <-. done.
Qed.

(** Alice, Bob, Carol and Dave in two groups, with Dave and Alice
    restricted: Bob and Carol are matched and their rows written, then
    matching fails for Dave and Alice.  Nothing was to be written, and
    the rows of the previous run are all still there. *)
Lemma create_groups_all_or_nothing_witness :
  let previous :=
    Store.mkTables
      [Store.mkParticipant 1 "Alice" ""; Store.mkParticipant 2 "Bob" "tea";
       Store.mkParticipant 3 "Carol" ""; Store.mkParticipant 4 "Dave" ""]
      [Store.mkGroup 1 "Secret Angel Group 1"]
      [Store.mkMember 1 1 1; Store.mkMember 2 1 2]
      [Store.mkAssignment 1 1 1 2; Store.mkAssignment 2 1 2 1]
      5 2 3 3 in
  let w := mkWorld ∅ ∅ (Store.mkDb previous None (λ _, false) [])
                   (mkRng (λ _, O) O) [] in
  let roster := [(1, "Alice"); (2, "Bob"); (3, "Carol"); (4, "Dave")] in
  let run := create_groups 5 (snd <$> roster) (participant_map roster) 2
                           [["Dave"; "Alice"]] w in
  let planned := planned_tables (participant_map roster) [["Dave"; "Alice"]]
                                (snd <$> roster) 2 (rng w) (Store.tables (db w)) in
  Store.tables (db run.2) = previous ∧
  Store.log (db run.2)
  = [(Store.BEGIN, true); (Store.TRUNCATE_groups, true);
     (Store.INSERT_group "Secret Angel Group 1", true);
     (Store.INSERT_member 1 2, true); (Store.INSERT_member 1 3, true);
     (Store.INSERT_assignment 1 3 2, true);
     (Store.INSERT_assignment 1 2 3, true); (Store.ROLLBACK, true)] ∧
  sent run.2 = [(5, MatchingFailed 2 ["Dave"; "Alice"]
                      (Bot.err_no_assignment ["Dave"; "Alice"]))] ∧
  planned = None ∧
  run.1 = Ok () ∧
  ∃ new,
    Store.log (db run.2) = Store.log (db w) ++ new ∧
    Store.begun (db run.2) = None ∧
    (((Store.COMMIT, true) ∉ new) ∧
     (∃ ok, (Store.ROLLBACK, ok) ∈ new) ∧
     Store.tables (db run.2) = Store.tables (db w) ∧
     (∃ m, failure_notice m ∧ sent run.2 = sent w ++ [(5, m)]) ∧
     (planned = None ∨ ∃ q, (q, false) ∈ new)
     ∨
     ((Store.COMMIT, true) ∈ new) ∧
     Forall (λ e, e.2 = true) new ∧
     planned = Some (Store.tables (db run.2)) ∧
     (∃ groups total summary,
        sent run.2 = sent w ++ [(5, GroupsCreated groups total summary)])).
Proof.
  intros previous w roster run planned.
  split; [vm_compute; reflexivity|]. split; [vm_compute; reflexivity|].
  split; [vm_compute; reflexivity|]. split; [vm_compute; reflexivity|].
  apply (create_groups_all_or_nothing 5 (snd <$> roster) (participant_map roster) 2
           [["Dave"; "Alice"]] w).
  reflexivity.
Defined.

(** ** Handlers that share the connection *)

(** *** A handler that has the connection to itself *)

Lemma run_bind {A B} (t : Async.Task A) (f : A → Async.Task B) w :
  Async.run (t ≫= f) w
  = match Async.run t w with
    | (Ok a, w') => Async.run (f a) w'
    | (Throw e, w') => (Throw e, w')
    end.
Proof.
  revert w. induction t as [[a|e]|C m k IH|q k IH]; intros w; try done.
  - cbn. destruct (m w) as [r w']. apply IH.
  - cbn. destruct (query q w) as [r w']. apply IH.
Qed.

Lemma run_bind_as {A B} (t : Async.Task A) (f : A → Async.Task B)
      (m : M A) (k : A → M B) :
  (∀ w, Async.run t w = m w) → (∀ a w, Async.run (f a) w = k a w) →
  ∀ w, Async.run (t ≫= f) w = (m ≫= k) w.
Proof.
  intros Ht Hf w. rewrite run_bind, Ht. unfold mbind at 1, M_bind.
  destruct (m w) as [[a|e] w']; [apply Hf|done].
Qed.

Lemma run_try_catch_as {A} (t : Async.Task A) (h : string → Async.Task A)
      (m : M A) (h' : string → M A) :
  (∀ w, Async.run t w = m w) → (∀ e w, Async.run (h e) w = h' e w) →
  ∀ w, Async.run (Async.try_catch t h) w = try_catch m h' w.
Proof.
  intros Ht Hh w. unfold try_catch. rewrite <-Ht. clear Ht m. revert w.
  induction t as [[a|e]|C m k IH|q k IH]; intros w; cbn.
  - done.
  - apply Hh.
  - destruct (m w) as [r w']. apply IH.
  - destruct (query q w) as [r w']. apply IH.
Qed.

Lemma run_attempt_as {A} (t : Async.Task A) (m : M A) :
  (∀ w, Async.run t w = m w) →
  ∀ w, Async.run (Async.attempt t) w = attempt m w.
Proof.
  intros Ht w. unfold attempt. rewrite <-Ht. clear Ht m. revert w.
  induction t as [r|C m k IH|q k IH]; intros w; cbn.
  - done.
  - destruct (m w) as [r w']. apply IH.
  - destruct (query q w) as [r w']. apply IH.
Qed.

Lemma run_await q w : Async.run (Async.await q) w = query q w.
Proof. cbn. by destruct (query q w). Qed.

Lemma run_act {B} (m : M B) w : Async.run (Async.act m) w = m w.
Proof. cbn. by destruct (m w). Qed.

Lemma run_field {A} what (o : option A) w :
  Async.run (Async.field what o) w = field what o w.
Proof. by destruct o. Qed.

#[local] Ltac alone :=
  repeat first
    [ progress intros
    | reflexivity
    | solve [auto]
    | apply run_await
    | apply run_act
    | apply run_field
    | apply run_bind_as
    | apply run_try_catch_as
    | apply run_attempt_as
    | match goal with
      | |- context [match ?x with _ => _ end] => destruct x
      end ].

Lemma run_insert_members chatId participantMap groupId groupNames w :
  Async.run (Async.insert_members chatId participantMap groupId groupNames) w
  = insert_members chatId participantMap groupId groupNames w.
Proof.
  revert w. induction groupNames as [|name rest IH];
    cbn [Async.insert_members insert_members]; alone.
Qed.

Lemma run_insert_assignments chatId participantMap groupId matches p w :
  Async.run (Async.insert_assignments chatId participantMap groupId matches p) w
  = insert_assignments chatId participantMap groupId matches p w.
Proof.
  revert p w. induction matches as [|m rest IH]; intros p;
    cbn [Async.insert_assignments insert_assignments]; alone.
Qed.

Lemma run_process_groups chatId participantMap restrictions groups i p w :
  Async.run (Async.process_groups chatId participantMap restrictions groups i p) w
  = process_groups chatId participantMap restrictions groups i p w.
Proof.
  revert i p w. induction groups as [|groupNames rest IH]; intros i p;
    cbn [Async.process_groups process_groups]; [done|].
  destruct (length groupNames <? 2)%nat; [apply IH|].
  apply run_bind_as; [apply run_act|]. intros [matches|matchError]; [|alone].
  destruct ((length matches =? 0)%nat && (2 <=? length groupNames)%nat); [alone|].
  apply run_bind_as; [apply run_await|]. intros rows.
  apply run_bind_as; [by destruct rows|]. intros groupId.
  apply run_bind_as; [apply run_insert_members|]. intros [|]; cbn [negb]; [|done].
  apply run_bind_as; [apply run_insert_assignments|]. intros p'.
  destruct (allGroupsProcessedSuccessfully p'); cbn [negb]; [apply IH|done].
Qed.

Lemma run_create_groups chatId participantNames participantMap numGroups
      restrictions w :
  Async.run (Async.create_groups chatId participantNames participantMap numGroups
                                 restrictions) w
  = create_groups chatId participantNames participantMap numGroups restrictions w.
Proof.
  revert w. unfold Async.create_groups, create_groups.
  apply run_bind_as; [|intros; apply run_act].
  apply run_try_catch_as; [|alone].
  unfold Async.create_groups_try, create_groups_try.
  apply run_bind_as; [apply run_await|]. intros ?.
  apply run_bind_as; [apply run_await|]. intros ?.
  apply run_bind_as; [apply run_act|]. intros r.
  apply run_bind_as; [by destruct r|]. intros groups.
  apply run_bind_as; [apply run_process_groups|]. intros p.
  destruct (allGroupsProcessedSuccessfully p); alone.
Qed.

(** Run without another handler in between, a handler does what
    [Handler.on_message] says. *)
Lemma run_on_message ADMIN_USER_ID now msg w :
  Async.run (Async.on_message ADMIN_USER_ID now msg) w
  = on_message ADMIN_USER_ID now msg w.
Proof.
  revert w. unfold Async.on_message, on_message, on_message_with.
  apply run_bind_as; [apply run_act|]. intros [|]; [apply run_act|].
  destruct (match text msg with Some t => JS.startsWith t "/" | None => false end).
  { alone. }
  apply run_bind_as; [apply run_act|]. intros [stateData|]; [|done].
  unfold Async.dispatch, dispatch. destruct (branch_of (state stateData)).
  - apply run_act.
  - unfold Async.on_awaiting_wishlist, on_awaiting_wishlist. alone.
  - unfold Async.on_awaiting_name_for_assignment, on_awaiting_name_for_assignment.
    alone.
  - unfold Async.on_awaiting_clear_confirmation, on_awaiting_clear_confirmation.
    alone.
  - apply run_act.
  - unfold Async.on_awaiting_restrictions, on_awaiting_restrictions.
    destruct (negb (isAdmin ADMIN_USER_ID (from_id msg))); [alone|].
    apply run_bind_as; [apply run_field|]. intros roster.
    apply run_bind_as; [apply run_field|]. intros k.
    destruct (Security.validateRestrictionsInput _ _); [|apply run_act].
    apply run_bind_as; [apply run_act|]. intros ?.
    apply run_bind_as; [apply run_act|]. intros ?.
    intros w. apply run_create_groups.
  - unfold Async.on_awaiting_num_groups_again, on_awaiting_num_groups_again.
    alone.
  - done.
Qed.

Lemma steps_nothing_waiting n w :
  Async.steps (replicate n Async.Completion) ([], w) = ([], w).
Proof. induction n as [|n IH]; [done|]. exact IH. Qed.

(** A handler that arrives when no other waits, and that no arrival
    interrupts, ends in the world of [Async.run], however many further
    completions are awaited. *)
Lemma alone_is_run (t : Async.Task unit) w :
  ∃ n, ∀ n', (n ≤ n')%nat →
    Async.steps (Async.Arrival t :: replicate n' Async.Completion) ([], w)
    = ([], (Async.run t w).2).
Proof.
  unfold Async.steps. cbn [foldl Async.step].
  revert w. induction t as [r|C m k IH|q k IH]; intros w.
  - exists O. intros n' _. apply steps_nothing_waiting.
  - unfold Async.settle in *. cbn [Async.turn Async.run].
    destruct (m w) as [r w']. apply IH.
  - unfold Async.settle in *. cbn [Async.turn Async.run].
    destruct (query q w) as [r w']. cbn [app].
    destruct (IH r w') as [n Hn]. exists (S n). intros [|n'] Hle; [lia|].
    destruct (Async.finished (k r)) eqn:Hfin.
    + destruct (k r) as [r'| |]; try done. cbn. apply steps_nothing_waiting.
    + cbn [replicate foldl Async.step]. unfold Async.settle.
      specialize (Hn n' ltac:(lia)).
      destruct (Async.turn (k r) w') as [t' w''].
      exact Hn.
Qed.

(** *** Rows of a run that never commits are read meanwhile *)

(** The admin's restrictions put Dave and Alice, the second group, out of
    reach of any matching.  While the run waits for the last insert of the
    first group, Bob asks for his assignment in another chat.  His query
    is executed on the same connection, inside the run's transaction, and
    finds the row that makes him Carol's Secret Angel.  Then the run
    rolls back: Bob has been told of an assignment that no table holds. *)
Lemma uncommitted_rows_are_read :
  let initial :=
    Store.mkTables
      [Store.mkParticipant 1 "Alice" ""; Store.mkParticipant 2 "Bob" "tea";
       Store.mkParticipant 3 "Carol" ""; Store.mkParticipant 4 "Dave" ""]
      [] [] [] 5 1 1 1 in
  let roster := [(1, "Alice"); (2, "Bob"); (3, "Carol"); (4, "Dave")] in
  let w :=
    mkWorld {[ 5 := mkStateData "awaiting_restrictions" None (Some 4)
                                (Some roster) (Some 2);
               6 := mkStateData "awaiting_name_for_assignment" None None None None ]}
            ∅ (Store.mkDb initial None (λ _, false) []) (mkRng (λ _, O) O) [] in
  let admin := Async.on_message (Some 7) 1000 (mkMsg 5 7 (Some "Dave, Alice")) in
  let bob := Async.on_message (Some 7) 1001 (mkMsg 6 8 (Some "Bob")) in
  let final :=
    Async.steps ([Async.Arrival admin] ++ replicate 6 Async.Completion
                 ++ [Async.Arrival bob] ++ replicate 3 Async.Completion)
                ([], w) in
  final.1 = [] ∧
  sent final.2
  = [(5, Processing 2 1);
     (6, YourAssignment "Bob" "Carol" "No wishlist provided.");
     (5, MatchingFailed 2 ["Dave"; "Alice"]
           (Bot.err_no_assignment ["Dave"; "Alice"]))] ∧
  Store.log (db final.2)
  = [(Store.BEGIN, true); (Store.TRUNCATE_groups, true);
     (Store.INSERT_group "Secret Angel Group 1", true);
     (Store.INSERT_member 1 2, true); (Store.INSERT_member 1 3, true);
     (Store.INSERT_assignment 1 3 2, true);
     (Store.INSERT_assignment 1 2 3, true);
     (Store.SELECT_assignment "Bob", true); (Store.ROLLBACK, true)] ∧
  Store.tables (db final.2) = initial ∧
  Store.tg_assignments (Store.tables (db final.2)) = [].
Proof. vm_compute. by split_and!. Qed.

(** *** No handler leaves a transaction open *)

(** The connection is outside a transaction. *)
Definition idle (w : World) : Prop := Store.begun (db w) = None.

(** [m] starts and ends outside a transaction, also when it throws. *)
Definition keeps_idle {A} (m : M A) : Prop := hoare idle m (λ _, idle) idle.

Lemma keeps_idle_ret {A} (a : A) : keeps_idle (mret a).
Proof. intros w Hw. exact Hw. Qed.

Lemma keeps_idle_throw {A} (e : string) : keeps_idle (throw (A:=A) e).
Proof. intros w Hw. exact Hw. Qed.

Lemma keeps_idle_bind {A B} (m : M A) (f : A → M B) :
  keeps_idle m → (∀ a, keeps_idle (f a)) → keeps_idle (m ≫= f).
Proof. intros Hm Hf. eapply hoare_bind; [exact Hm|exact Hf]. Qed.

Lemma keeps_idle_try_catch {A} (body : M A) (handler : string → M A) :
  keeps_idle body → (∀ e, keeps_idle (handler e)) →
  keeps_idle (try_catch body handler).
Proof. intros Hb Hh. eapply hoare_try_catch; [exact Hb|exact Hh]. Qed.

Lemma keeps_idle_attempt {A} (body : M A) :
  keeps_idle body → keeps_idle (attempt body).
Proof.
  intros Hb w Hw. specialize (Hb w Hw). unfold attempt.
  by destruct (body w) as [[a|e] w'].
Qed.

Lemma keeps_idle_send chatId m : keeps_idle (sendMessage chatId m).
Proof. intros w Hw. exact Hw. Qed.

Lemma keeps_idle_get chatId : keeps_idle (get_state chatId).
Proof. intros w Hw. exact Hw. Qed.

Lemma keeps_idle_put chatId sd : keeps_idle (put_state chatId sd).
Proof. intros w Hw. exact Hw. Qed.

Lemma keeps_idle_delete chatId : keeps_idle (delete_state chatId).
Proof. intros w Hw. exact Hw. Qed.

Lemma keeps_idle_field {A} what (o : option A) : keeps_idle (field what o).
Proof. destruct o; [apply keeps_idle_ret|apply keeps_idle_throw]. Qed.

Lemma keeps_idle_rate now userId : keeps_idle (isRateLimited now userId).
Proof.
  intros w Hw. unfold isRateLimited.
  by destruct (RateLimit.isRateLimited now userId (rateLimitStore w)).
Qed.

Lemma keeps_idle_query q : q ≠ Store.BEGIN → keeps_idle (query q).
Proof.
  intros Hq w Hw. unfold idle in Hw. unfold query, Store.query.
  destruct (Store.faults (db w) (length (Store.log (db w))));
    destruct q; try done; cbn; unfold idle; cbn; by rewrite ?Hw.
Qed.

Lemma keeps_idle_create_groups chatId participantNames participantMap numGroups
      restrictions :
  keeps_idle (create_groups chatId participantNames participantMap numGroups
                            restrictions).
Proof.
  intros w Hw.
  pose proof (hoare_create_groups chatId w participantMap restrictions Hw
                participantNames numGroups w eq_refl) as H.
  destruct (create_groups _ _ _ _ _ w) as [[[]|e] w']; [|done].
  destruct H as [(new & _ & _ & _ & Hb & _)|(new & _ & _ & _ & Hb & _)]; exact Hb.
Qed.

Ltac keeps_idle_step :=
  first
    [ apply keeps_idle_ret | apply keeps_idle_throw | apply keeps_idle_send
    | apply keeps_idle_get | apply keeps_idle_put | apply keeps_idle_delete
    | apply keeps_idle_field | apply keeps_idle_rate
    | apply keeps_idle_create_groups
    | apply keeps_idle_query; discriminate
    | apply keeps_idle_attempt
    | apply keeps_idle_bind; [|intros ?]
    | apply keeps_idle_try_catch; [|intros ?]
    | match goal with
      | |- keeps_idle (match ?x with _ => _ end) => destruct x
      end ].

(** Every message is handled from outside a transaction to outside a
    transaction, so each run of group creation starts outside one. *)
Lemma on_message_keeps_idle ADMIN_USER_ID now msg :
  keeps_idle (on_message ADMIN_USER_ID now msg).
Proof.
  unfold on_message, on_message_with, dispatch,
    on_awaiting_name, on_awaiting_wishlist, on_awaiting_name_for_assignment,
    on_awaiting_clear_confirmation, on_awaiting_num_groups,
    on_awaiting_restrictions, on_awaiting_num_groups_again.
  repeat keeps_idle_step.
Qed.

(** *** Runs on concrete data *)

Definition five : list (Z * string) :=
  [(1, "Alice"); (2, "Bob"); (3, "Carol"); (4, "Dave"); (5, "Erin")].

Definition five_rows : list Store.ParticipantRow :=
  (λ p, Store.mkParticipant p.1 p.2 "") <$> five.

Definition world_of (t : Store.Tables) (faults : nat → bool) : World :=
  mkWorld ∅ ∅ (Store.mkDb t None faults []) (mkRng (λ k, k) O) [].

(** Five participants in two groups, no restriction: two groups, five
    memberships, five assignments, nobody their own receiver. *)
Example create_groups_five_in_two :
  let w := world_of (Store.mkTables five_rows [] [] [] 6 1 1 1) (λ _, false) in
  let run := create_groups 5 (snd <$> five) (participant_map five) 2 [] w in
  let t := Store.tables (db run.2) in
  length (Store.tg_groups t) = 2%nat ∧
  length (Store.tg_group_members t) = 5%nat ∧
  length (Store.tg_assignments t) = 5%nat ∧
  forallb (λ a, negb (Store.giver_participant_id a =? Store.receiver_participant_id a))
          (Store.tg_assignments t) = true ∧
  Store.begun (db run.2) = None ∧
  ∃ summary, sent run.2 = [(5, GroupsCreated 2 5 summary)].
Proof. vm_compute. split_and!; try reflexivity. by eexists. Qed.

(** The same run when its eighth statement, the INSERT of an assignment
    of the first group, fails: the tables are those of before the run,
    previous groups included. *)
Example create_groups_fault_rolls_back :
  let previous :=
    Store.mkTables five_rows [Store.mkGroup 1 "Secret Angel Group 1"]
                   [Store.mkMember 1 1 1; Store.mkMember 2 1 2]
                   [Store.mkAssignment 1 1 1 2; Store.mkAssignment 2 1 2 1]
                   6 2 3 3 in
  let w := world_of previous (λ k, (k =? 7)%nat) in
  let run := create_groups 5 (snd <$> five) (participant_map five) 2 [] w in
  Store.tables (db run.2) = previous ∧
  Store.begun (db run.2) = None ∧
  sent run.2 = [(5, UnexpectedError Store.store_error)].
Proof. vm_compute. by split_and!. Qed.

(** A group member whose name the roster snapshot does not map to an id:
    the run is rolled back at that member. *)
Example create_groups_unmapped_name :
  let previous :=
    Store.mkTables five_rows [Store.mkGroup 1 "Secret Angel Group 1"] [] [] 6 2 1 1 in
  let w := world_of previous (λ _, false) in
  let run := create_groups 5 ["Alice"; "Bob"] (participant_map [(1, "Alice")]) 1 [] w in
  Store.tables (db run.2) = previous ∧
  Store.begun (db run.2) = None ∧
  sent run.2 = [(5, UnmappedParticipant "Bob")].
Proof. vm_compute. by split_and!. Qed.

(** Registering Alice with the reply skip stores an empty wishlist;
    registering her again with socks rewrites that row and adds none. *)
Example register_skip_then_socks :
  let w := mkWorld {[ 5 := mkStateData "awaiting_wishlist" (Some "Alice") None None None ]}
                   ∅ (Store.mkDb (Store.mkTables [] [] [] [] 1 1 1 1) None (λ _, false) [])
                   (mkRng (λ _, O) O) [] in
  let w1 := (on_message (Some 1) 1000 (mkMsg 5 7 (Some "Skip")) w).2 in
  let again := mkWorld {[ 5 := mkStateData "awaiting_wishlist" (Some "Alice") None None None ]}
                       (rateLimitStore w1) (db w1) (rng w1) (sent w1) in
  let w2 := (on_message (Some 1) 2000 (mkMsg 5 7 (Some "socks")) again).2 in
  Store.tg_participants (Store.tables (db w1)) = [Store.mkParticipant 1 "Alice" ""] ∧
  userState w1 !! 5 = None ∧
  Store.tg_participants (Store.tables (db w2)) = [Store.mkParticipant 1 "Alice" "socks"] ∧
  userState w2 !! 5 = None.
Proof. vm_compute. by split_and!. Qed.

End HandlerFacts.

(** * Further properties of matching and grouping *)

Module BotMore.
Import Bot BotFacts.

(** ** [shuffle] and [isRestricted] *)

(** [shuffle] returns a permutation of its argument, of the same length,
    after exactly [length - 1] draws from the same tape (none for an array
    of at most one element, which it returns as it is). *)
Theorem shuffle_permutes {A} (array : list A) (g : Rng) :
  (shuffle array g).1 ≡ₚ array ∧
  length (shuffle array g).1 = length array ∧
  cursor (shuffle array g).2 = (cursor g + (length array - 1))%nat ∧
  ((length array ≤ 1)%nat → shuffle array g = (array, g)).
Proof.
  split_and!.
  - apply shuffle_perm.
  - apply shuffle_length.
  - apply shuffle_cursor.
  - intros Hlen. unfold shuffle.
    replace (length array - 1)%nat with O by lia. reflexivity.
Qed.

(** [isRestricted] does not depend on the order of its two names nor on
    the order inside a listed pair: it holds exactly when the pair is
    listed in one of its two orientations.  Entries that are not pairs are
    passed over. *)
Theorem isRestricted_symmetric (a b : string) (restrictions : list (list string)) :
  isRestricted a b restrictions = isRestricted b a restrictions ∧
  (isRestricted a b restrictions = true ↔
   [a; b] ∈ restrictions ∨ [b; a] ∈ restrictions) ∧
  isRestricted a b (filter (λ p, length p = 2%nat) restrictions)
  = isRestricted a b restrictions.
Proof.
  split_and!.
  - destruct (isRestricted b a restrictions) eqn:E.
    + apply isRestricted_spec. apply isRestricted_spec in E. tauto.
    + apply isRestricted_false. apply isRestricted_false in E. tauto.
  - apply isRestricted_spec.
  - induction restrictions as [|p rest IH]; [done|].
    rewrite filter_cons. destruct (decide (length p = 2%nat)) as [Hp|Hp].
    + destruct p as [|p0 [|p1 [|p2 p]]]; try discriminate Hp.
      cbn [isRestricted]. by rewrite IH.
    + rewrite IH. destruct p as [|p0 [|p1 [|p2 p]]]; try done.
Qed.

(** ** When matching must fail and when it cannot *)

Lemma attempt_loop_first group restrictions left g :
  accepted restrictions (shuffle group g).1 →
  attempt_loop (S left) group restrictions g
  = (Ok (cycle_pairs (shuffle group g).1), (shuffle group g).2).
Proof.
  intros Hacc. cbn [attempt_loop].
  pose proof (shuffle_length group g) as Hlen.
  destruct (shuffle group g) as [sg g'] eqn:Hs. cbn [fst snd] in *.
  rewrite <-Hlen, potential_matches_all.
  apply accepted_forallb in Hacc. by rewrite Hacc.
Qed.

Lemma infeasible_exhausts group restrictions g :
  (2 ≤ length group)%nat →
  (∀ l, l ≡ₚ group → ¬ accepted restrictions l) →
  assignSecretAngels group restrictions g
  = (Throw (err_no_assignment group), rng_at group g maxRetries).
Proof.
  intros Hlen Hnone. unfold assignSecretAngels.
  destruct (Nat.ltb_spec (length group) 2) as [?|_]; [lia|].
  destruct (attempt_loop_end group restrictions maxRetries g)
    as [k Hk Hbefore Hacc|Hrej]; [|done].
  destruct (Hnone _ (attempt_perm group g k) Hacc).
Qed.

(** When no cyclic arrangement of the group is allowed, matching fails
    whatever is drawn: it throws the error that names the group, after
    all 100 shuffles. *)
Theorem infeasible_group_always_fails group restrictions g :
  (2 ≤ length group)%nat → ¬ feasible group restrictions →
  (assignSecretAngels group restrictions g).1 = Throw (err_no_assignment group) ∧
  cursor (assignSecretAngels group restrictions g).2
  = (cursor g + 100 * (length group - 1))%nat.
Proof.
  intros Hlen Hinf.
  rewrite (infeasible_exhausts group restrictions g Hlen).
  - split; [done|]. cbn [snd]. by rewrite rng_at_cursor.
  - intros l Hl Hacc. apply Hinf. by exists l.
Qed.

Lemma pair_of_two_blocked restrictions (x y a b : string) :
  a ∈ [x; y] → b ∈ [x; y] → a ≠ b → [a; b] ∈ restrictions →
  ¬ accepted restrictions [x; y].
Proof.
  intros Ha Hb Hab HR Hacc. unfold accepted in Hacc. cbn in Hacc.
  apply Forall_cons in Hacc as [(_ & H1 & H2) _]. cbn in H1, H2.
  set_unfold. destruct Ha as [->|[->|[]]], Hb as [->|[->|[]]]; done.
Qed.

Lemma pair_of_three_blocked restrictions (x y z a b : string) :
  a ∈ [x; y; z] → b ∈ [x; y; z] → a ≠ b → [a; b] ∈ restrictions →
  ¬ accepted restrictions [x; y; z].
Proof.
  intros Ha Hb Hab HR Hacc. unfold accepted in Hacc. cbn in Hacc.
  apply Forall_cons in Hacc as [(_ & H1 & H2) Hacc]. cbn in H1, H2.
  apply Forall_cons in Hacc as [(_ & H3 & H4) Hacc]. cbn in H3, H4.
  apply Forall_cons in Hacc as [(_ & H5 & H6) _]. cbn in H5, H6.
  set_unfold.
  destruct Ha as [->|[->|[->|[]]]], Hb as [->|[->|[->|[]]]]; done.
Qed.

(** In a group of two or three, every member is next to every other in
    any cyclic arrangement: one restricted pair of two different members
    makes matching fail, whatever is drawn. *)
Theorem small_group_restriction_blocks group restrictions g a b :
  (2 ≤ length group ≤ 3)%nat →
  a ∈ group → b ∈ group → a ≠ b → [a; b] ∈ restrictions →
  (assignSecretAngels group restrictions g).1 = Throw (err_no_assignment group).
Proof.
  intros Hlen Ha Hb Hab HR.
  rewrite (infeasible_exhausts group restrictions g); [done|lia|].
  intros l Hl. rewrite <-Hl in Ha, Hb, Hlen.
  destruct l as [|x [|y [|z [|? ?]]]]; simpl in Hlen; try lia.
  - by apply (pair_of_two_blocked restrictions x y a b).
  - by apply (pair_of_three_blocked restrictions x y z a b).
Qed.

Lemma small_group_restriction_blocks_witness :
  (assignSecretAngels ["Alice"; "Bob"; "Carol"] [["Carol"; "Alice"]]
                      (mkRng (λ k, k) O)).1
  = Throw (err_no_assignment ["Alice"; "Bob"; "Carol"]).
Proof.
  apply (small_group_restriction_blocks ["Alice"; "Bob"; "Carol"]
           [["Carol"; "Alice"]] (mkRng (λ k, k) O) "Carol" "Alice").
  - simpl. lia.
  - set_solver.
  - set_solver.
  - discriminate.
  - set_solver.
Defined.

Lemma infeasible_group_always_fails_witness :
  let group := ["Alice"; "Bob"] in
  let restrictions := [["Bob"; "Alice"]] in
  let g := mkRng (λ k, k) O in
  (assignSecretAngels group restrictions g).1 = Throw (err_no_assignment group) ∧
  cursor (assignSecretAngels group restrictions g).2
  = (cursor g + 100 * (length group - 1))%nat.
Proof.
  intros group restrictions g.
  apply (infeasible_group_always_fails group restrictions g).
  - simpl. lia.
  - intros (l & Hl & Hacc).
    assert (length l = 2%nat) as Hlen by (by rewrite Hl).
    destruct l as [|x [|y [|? ?]]]; try discriminate Hlen.
    apply (pair_of_two_blocked restrictions x y "Bob" "Alice");
      [rewrite Hl; set_solver|rewrite Hl; set_solver|discriminate|set_solver|done].
Defined.

Lemma cycle_pairs_elem l m :
  m ∈ cycle_pairs l →
  ∃ i, l !! i = Some (giver m) ∧
       l !! ((i + 1) mod length l)%nat = Some (receiver m).
Proof.
  intros [i Hi]%list_elem_of_lookup. exists i.
  unfold cycle_pairs in Hi.
  apply lookup_zip_with_Some in Hi as (x & y & -> & Hx & Hy).
  split; [done|].
  rewrite successors_lookup in Hy by eauto using lookup_lt_Some. done.
Qed.

Lemma unrelated_restrictions_accepted group restrictions l :
  NoDup group → (2 ≤ length group)%nat → l ≡ₚ group →
  (∀ a b, [a; b] ∈ restrictions → a ∉ group ∨ b ∉ group) →
  accepted restrictions l.
Proof.
  intros Hnd Hlen Hl Hfree. unfold accepted. apply Forall_forall.
  intros m Hm. destruct (cycle_pairs_elem l m Hm) as (i & Hg & Hr).
  assert (i < length l)%nat as Hi by eauto using lookup_lt_Some.
  assert (length l = length group) as Hll by (by rewrite Hl).
  assert (giver m ∈ group ∧ receiver m ∈ group) as [Hgin Hrin].
  { rewrite <-Hl. split; eapply list_elem_of_lookup_2; eauto. }
  split_and!.
  - intros Heq. rewrite <-Heq in Hr.
    rewrite <-Hl in Hnd.
    pose proof (NoDup_lookup l _ _ _ Hnd Hg Hr) as Hij.
    destruct (decide (i + 1 < length l)%nat).
    + rewrite Nat.mod_small in Hij by lia. lia.
    + replace (i + 1)%nat with (length l) in Hij by lia.
      rewrite Nat.Div0.mod_same in Hij. lia.
  - intros HR. destruct (Hfree _ _ HR); done.
  - intros HR. destruct (Hfree _ _ HR); done.
Qed.

(** Restrictions that never name two members of the group do not get in
    the way: for distinct names, matching returns at its first shuffle,
    with the cyclic pairs of that shuffle.  This covers the empty
    restriction list and restrictions between members of other groups. *)
Theorem unrelated_restrictions_first_attempt group restrictions g :
  NoDup group → (2 ≤ length group)%nat →
  (∀ a b, [a; b] ∈ restrictions → a ∉ group ∨ b ∉ group) →
  assignSecretAngels group restrictions g
  = (Ok (cycle_pairs (shuffle group g).1), (shuffle group g).2).
Proof.
  intros Hnd Hlen Hfree. unfold assignSecretAngels.
  destruct (Nat.ltb_spec (length group) 2) as [?|_]; [lia|].
  change maxRetries with (S 99). apply attempt_loop_first.
  apply (unrelated_restrictions_accepted group); [done|done|apply shuffle_perm|done].
Qed.

Lemma unrelated_restrictions_first_attempt_witness :
  let group := ["Alice"; "Bob"; "Carol"] in
  let restrictions := [["Alice"; "Dave"]; ["Erin"; "Frank"]] in
  let g := mkRng (λ k, k) O in
  assignSecretAngels group restrictions g
  = (Ok [mkMatch "Carol" "Bob"; mkMatch "Bob" "Alice"; mkMatch "Alice" "Carol"],
     mkRng (λ k, k) 2) ∧
  assignSecretAngels group restrictions g
  = (Ok (cycle_pairs (shuffle group g).1), (shuffle group g).2).
Proof.
  intros group restrictions g. split; [vm_compute; reflexivity|].
  apply (unrelated_restrictions_first_attempt group restrictions g).
  - apply (bool_decide_unpack _). vm_compute. exact I.
  - simpl. lia.
  - intros a b Hab. set_unfold.
    destruct Hab as [[= -> ->]|[[= -> ->]|[]]].
    + right. intros [?|[?|[?|[]]]]; discriminate.
    + right. intros [?|[?|[?|[]]]]; discriminate.
Defined.

(** ** Every arrangement can be drawn *)

(** [shuffle_from] reads the tape only from the cursor on. *)
Lemma shuffle_from_tape {A} (i : nat) (array : list A) (t t' : nat → nat) (c : nat) :
  (∀ k, (c ≤ k)%nat → t k = t' k) →
  (shuffle_from i array (mkRng t c)).1 = (shuffle_from i array (mkRng t' c)).1.
Proof.
  revert array c. induction i as [|i IH]; intros array c Ht; [done|].
  cbn [shuffle_from randomInt tape cursor]. rewrite (Ht c) by lia.
  apply IH. intros k Hk. apply Ht. lia.
Qed.

Lemma swap_lookup_last {A} (array : list A) (i j : nat) (x : A) :
  (j ≤ i)%nat → (i < length array)%nat → array !! j = Some x →
  swap array i j !! i = Some x ∧
  take (S i) (swap array i j) ≡ₚ take (S i) array ∧
  drop (S i) (swap array i j) = drop (S i) array ∧
  length (swap array i j) = length array.
Proof.
  intros Hji Hi Hj. unfold swap.
  destruct (lookup_lt_is_Some_2 array i Hi) as [y Hy]. rewrite Hy, Hj.
  split_and!.
  - destruct (decide (j = i)) as [->|Hne].
    + rewrite list_lookup_insert_eq by (rewrite length_insert; lia). congruence.
    + rewrite list_lookup_insert_ne by done. by rewrite list_lookup_insert_eq.
  - rewrite !take_insert_lt by lia.
    apply Permutation_insert_swap; rewrite lookup_take_lt by lia; done.
  - by rewrite !drop_insert_lt by lia.
  - by rewrite !length_insert.
Qed.

Lemma shuffle_from_reaches {A} (i : nat) (array l : list A) (c : nat) :
  (i < length array)%nat → length l = length array →
  take (S i) l ≡ₚ take (S i) array → drop (S i) l = drop (S i) array →
  ∃ t, (shuffle_from i array (mkRng t c)).1 = l.
Proof.
  revert array c. induction i as [|i IH]; intros array c Hi Hlen Htake Hdrop.
  - exists (λ _, O). cbn.
    rewrite <-(take_drop 1 l), <-(take_drop 1 array), Hdrop. f_equal.
    destruct l as [|x l], array as [|y array]; try (simpl in *; lia).
    cbn in *. by apply Permutation_singleton_l in Htake.
  - destruct (lookup_lt_is_Some_2 l (S i)) as [x Hx]; [lia|].
    assert (x ∈ take (S (S i)) array) as Hin.
    { rewrite <-Htake. apply elem_of_take. exists (S i). split; [done|lia]. }
    apply elem_of_take in Hin as (j & Hj & Hji).
    destruct (swap_lookup_last array (S i) j x) as (Hsx & Hst & Hsd & Hsl);
      [lia|done|done|].
    destruct (IH (swap array (S i) j) (S c)) as [t Ht].
    + lia.
    + congruence.
    + rewrite (take_S_r _ _ _ Hx) in Htake.
      rewrite (take_S_r _ _ _ Hsx) in Hst.
      rewrite <-Htake in Hst. by apply (inj (.++ [x])) in Hst.
    + rewrite (drop_S _ _ _ Hx), (drop_S _ _ _ Hsx). congruence.
    + exists (λ k, if decide (k = c) then j else t k).
      cbn [shuffle_from randomInt tape cursor].
      rewrite decide_True by done. rewrite Nat.mod_small by lia. cbn [Nat.add].
      rewrite <-Ht. apply shuffle_from_tape.
      intros k Hk. rewrite decide_False by lia. done.
Qed.

Lemma shuffle_surjective {A} (array l : list A) (c : nat) :
  l ≡ₚ array → ∃ t, (shuffle array (mkRng t c)).1 = l.
Proof.
  intros Hl. unfold shuffle.
  destruct array as [|a array].
  { apply Permutation_nil_r in Hl as ->. by exists (λ _, O). }
  apply shuffle_from_reaches.
  - simpl. lia.
  - by rewrite Hl.
  - replace (S (length (a :: array) - 1)) with (length (a :: array)) by (simpl; lia).
    rewrite firstn_all. rewrite <-(Permutation_length Hl), firstn_all. done.
  - replace (S (length (a :: array) - 1)) with (length (a :: array)) by (simpl; lia).
    rewrite drop_all. rewrite <-(Permutation_length Hl), drop_all. done.
Qed.

(** [shuffle] can return every permutation of its argument: for each one
    there is a tape of draws that produces it. *)
Theorem shuffle_reaches_every_permutation {A} (array l : list A) (c : nat) :
  l ≡ₚ array → ∃ t, (shuffle array (mkRng t c)).1 = l.
Proof. apply shuffle_surjective. Qed.

Lemma shuffle_reaches_every_permutation_witness :
  ∃ t, (shuffle ["Alice"; "Bob"; "Carol"] (mkRng t 0)).1 = ["Carol"; "Alice"; "Bob"].
Proof.
  apply (shuffle_reaches_every_permutation ["Alice"; "Bob"; "Carol"]
           ["Carol"; "Alice"; "Bob"] 0).
  apply (bool_decide_unpack _). vm_compute. exact I.
Defined.

(** For a group of at least two, the restriction set leaves some cyclic
    arrangement allowed exactly when some sequence of draws makes
    [assignSecretAngels] return. *)
Theorem feasible_iff_some_draws_succeed group restrictions :
  (2 ≤ length group)%nat →
  (feasible group restrictions ↔
   ∃ g ms, (assignSecretAngels group restrictions g).1 = Ok ms).
Proof.
  intros Hlen. split.
  - intros (l & Hl & Hacc).
    destruct (shuffle_surjective group l 0 Hl) as [t Ht].
    exists (mkRng t 0), (cycle_pairs l).
    unfold assignSecretAngels.
    destruct (Nat.ltb_spec (length group) 2) as [?|_]; [lia|].
    change maxRetries with (S 99).
    rewrite attempt_loop_first; rewrite Ht; done.
  - intros (g & ms & Hrun). unfold assignSecretAngels in Hrun.
    destruct (Nat.ltb_spec (length group) 2) as [?|_]; [lia|].
    destruct (attempt_loop_end group restrictions maxRetries g)
      as [k Hk Hbefore Hacc|Hrej]; [|discriminate Hrun].
    exists (attempt group g k). split; [apply attempt_perm|done].
Qed.

Lemma feasible_iff_some_draws_succeed_witness :
  let group := ["Alice"; "Bob"; "Carol"; "Dave"] in
  let restrictions := [["Alice"; "Bob"]] in
  (assignSecretAngels group restrictions (mkRng (λ k, k) O)).1
  = Ok [mkMatch "Alice" "Carol"; mkMatch "Carol" "Bob";
        mkMatch "Bob" "Dave"; mkMatch "Dave" "Alice"] ∧
  (feasible group restrictions ↔
   ∃ g ms, (assignSecretAngels group restrictions g).1 = Ok ms).
Proof.
  intros group restrictions. split; [vm_compute; reflexivity|].
  apply (feasible_iff_some_draws_succeed group restrictions). simpl. lia.
Defined.

Lemma unrelated_restrictions_no_throw group restrictions g e :
  NoDup group →
  (∀ a b, [a; b] ∈ restrictions → a ∉ group ∨ b ∉ group) →
  (assignSecretAngels group restrictions g).1 ≠ Throw e.
Proof.
  intros Hnd Hfree. unfold assignSecretAngels.
  destruct (Nat.ltb_spec (length group) 2) as [?|Hlen]; [done|].
  change maxRetries with (S 99). rewrite attempt_loop_first; [done|].
  apply (unrelated_restrictions_accepted group); [done|done|apply shuffle_perm|done].
Qed.

Lemma grouping_in_range participants numGroups g :
  0 < Z.of_nat (length participants) →
  1 ≤ numGroups ≤ Z.of_nat (length participants) →
  ∃ groups,
    (assignParticipantsToGroups participants numGroups g).1 = Ok groups ∧
    Z.of_nat (length groups) = numGroups ∧
    concat groups ≡ₚ participants ∧
    Forall (λ grp, (0 < length grp)%nat) groups.
Proof.
  intros HP HN. unfold assignParticipantsToGroups.
  set (P := Z.of_nat (length participants)) in *.
  destruct (Z.eqb_spec P 0) as [?|_]; [lia|].
  destruct (Z.ltb_spec numGroups 1) as [?|_]; [lia|].
  destruct (Z.gtb_spec numGroups P) as [?|_]; [lia|].
  destruct (shuffle participants g) as [sh g'] eqn:Hs.
  assert (sh ≡ₚ participants) as Hperm.
  { pose proof (shuffle_perm participants g) as H. by rewrite Hs in H. }
  rewrite Z.rem_mod_nonneg by lia.
  pose proof (Z.div_mod P numGroups ltac:(lia)) as Hdm.
  pose proof (Z.mod_pos_bound P numGroups ltac:(lia)) as Hmod.
  assert (1 ≤ P / numGroups) as Hbase.
  { apply Z.div_le_lower_bound; lia. }
  destruct (slice_groups_spec sh P (P / numGroups) (P mod numGroups)
              ltac:(unfold P; by rewrite Hperm) Hbase ltac:(lia)
              (Z.to_nat numGroups) 0 0 [])
    as (new & Heq & Hlen & Hcat & Hsizes); [lia|lia|lia|lia|].
  rewrite Heq, app_nil_l. simpl in Hcat. rewrite drop_0 in Hcat.
  assert (Forall (λ grp, (0 < length grp)%nat) new) as Hpos.
  { apply Forall_lookup. intros k grp Hk. apply Hsizes in Hk.
    unfold slice_size in Hk. destruct (_ <? _); lia. }
  rewrite (filter_nonEmpty_id _ Hpos).
  exists new. cbn. split_and!; [done|lia|by rewrite Hcat|done].
Qed.

Lemma elem_of_concat {A} (x : A) (ls : list (list A)) :
  x ∈ concat ls ↔ ∃ l, x ∈ l ∧ l ∈ ls.
Proof.
  induction ls as [|l0 ls IH]; cbn.
  - split; [by intros ?%elem_of_nil|]. by intros (? & _ & ?%elem_of_nil).
  - rewrite elem_of_app, IH. split.
    + intros [?|(l & ? & ?)]; [exists l0|exists l]; split; try done; by constructor.
    + intros (l & ? & [->|?]%elem_of_cons); [by left|right; by exists l].
Qed.

Lemma grouping_returned participants numGroups g groups :
  (assignParticipantsToGroups participants numGroups g).1 = Ok groups →
  concat groups ≡ₚ participants ∧ Forall (λ grp, (0 < length grp)%nat) groups.
Proof.
  intros Hrun.
  destruct (decide (length participants = 0%nat)) as [H0|H0].
  - unfold assignParticipantsToGroups in Hrun. rewrite H0 in Hrun.
    cbn in Hrun. injection Hrun as <-.
    destruct participants; [done|discriminate H0].
  - destruct (decide (1 ≤ numGroups ≤ Z.of_nat (length participants))) as [HN|HN].
    + destruct (grouping_in_range participants numGroups g ltac:(lia) HN)
        as (groups' & Hrun' & _ & ? & ?).
      rewrite Hrun in Hrun'. by injection Hrun' as <-.
    + unfold assignParticipantsToGroups in Hrun.
      destruct (Z.eqb_spec (Z.of_nat (length participants)) 0); [lia|].
      destruct (Z.ltb_spec numGroups 1); [done|].
      destruct (Z.gtb_spec numGroups (Z.of_nat (length participants))); [done|lia].
Qed.

Lemma NoDup_concat_elem {A} (ls : list (list A)) l :
  NoDup (concat ls) → l ∈ ls → NoDup l.
Proof.
  induction ls as [|l0 ls IH]; cbn; [by intros _ ?%elem_of_nil|].
  intros (? & _ & ?)%NoDup_app [->|?]%elem_of_cons; auto.
Qed.

Lemma groups_nodup participants numGroups g groups group :
  (assignParticipantsToGroups participants numGroups g).1 = Ok groups →
  NoDup participants → group ∈ groups →
  (∀ name, name ∈ group → name ∈ participants) ∧ NoDup group.
Proof.
  intros [Hcat _]%grouping_returned Hnd Hin. split.
  - intros name Hname. rewrite <-Hcat. apply elem_of_concat. by exists group.
  - apply (NoDup_concat_elem groups); [by rewrite Hcat|done].
Qed.

(** Whenever [assignParticipantsToGroups] returns, its groups are not
    empty and put together they are the participants, each as often as in
    the input; so distinct participants are each in exactly one group. *)
Theorem groups_partition_participants participants numGroups g groups :
  (assignParticipantsToGroups participants numGroups g).1 = Ok groups →
  concat groups ≡ₚ participants ∧
  Forall (λ grp, grp ≠ []) groups ∧
  (NoDup participants →
   NoDup (concat groups) ∧
   ∀ name, name ∈ participants →
     ∃ i grp, groups !! i = Some grp ∧ name ∈ grp ∧
              ∀ j grp', groups !! j = Some grp' → name ∈ grp' → j = i).
Proof.
  intros Hrun.
  destruct (grouping_returned participants numGroups g groups Hrun) as [Hcat Hpos].
  split_and!; [done| |].
  - eapply Forall_impl; [exact Hpos|]. intros [|? ?] ?; [simpl in *; lia|done].
  - intros Hnd. assert (NoDup (concat groups)) as Hndc by (by rewrite Hcat).
    split; [done|]. intros name Hname. rewrite <-Hcat in Hname.
    apply elem_of_concat in Hname as (grp & Hin & Hgrp).
    apply list_elem_of_lookup in Hgrp as [i Hi].
    exists i, grp. split_and!; [done|done|].
    intros j grp' Hj Hin'.
    clear -Hndc Hi Hj Hin Hin'. revert i j Hi Hj.
    induction groups as [|g0 groups IH]; intros i j Hi Hj; [done|].
    cbn in Hndc. apply NoDup_app in Hndc as (Hnd0 & Hdisj & Hndr).
    destruct i as [|i], j as [|j]; cbn in Hi, Hj; simplify_eq; try done.
    + destruct (Hdisj name Hin). apply elem_of_concat. exists grp'.
      split; [done|]. by eapply list_elem_of_lookup_2.
    + destruct (Hdisj name Hin'). apply elem_of_concat. exists grp.
      split; [done|]. by eapply list_elem_of_lookup_2.
    + f_equal. by apply IH.
Qed.

Lemma groups_partition_participants_witness :
  let participants := ["Alice"; "Bob"; "Carol"; "Dave"; "Erin"] in
  let groups := [["Bob"; "Carol"; "Dave"]; ["Erin"; "Alice"]] in
  concat groups ≡ₚ participants ∧
  Forall (λ grp, grp ≠ []) groups ∧
  (NoDup participants →
   NoDup (concat groups) ∧
   ∀ name, name ∈ participants →
     ∃ i grp, groups !! i = Some grp ∧ name ∈ grp ∧
              ∀ j grp', groups !! j = Some grp' → name ∈ grp' → j = i).
Proof.
  intros participants groups.
  apply (groups_partition_participants participants 2 (mkRng (λ _, O) O) groups).
  vm_compute. reflexivity.
Defined.

End BotMore.

(** * Further properties of input validation *)

Module SecurityMore.
Import Security.

(** The five characters that [sanitizeInput] escapes. *)
Definition dangerous (c : ascii) : bool :=
  Ascii.eqb c "<" || Ascii.eqb c ">" || Ascii.eqb c JS.double_quote
  || Ascii.eqb c "'" || Ascii.eqb c "/".

Definition harmless (s : string) : Prop :=
  JS.all_chars (λ c, negb (dangerous c)) s = true.

(** [c] occurs in [s]. *)
Definition occurs (c : ascii) (s : string) : bool :=
  negb (JS.all_chars (λ x, negb (Ascii.eqb x c)) s).

Lemma all_chars_app f (s1 s2 : string) :
  JS.all_chars f (s1 ++ s2)%string = JS.all_chars f s1 && JS.all_chars f s2.
Proof.
  induction s1 as [|c s1 IH]; [done|].
  change (f c && JS.all_chars f (s1 ++ s2)%string
          = f c && JS.all_chars f s1 && JS.all_chars f s2).
  rewrite IH. by rewrite andb_assoc.
Qed.

Lemma all_chars_impl (f g : ascii → bool) (s : string) :
  (∀ c, f c = true → g c = true) →
  JS.all_chars f s = true → JS.all_chars g s = true.
Proof.
  intros Hfg. induction s as [|c s IH]; [done|]. cbn.
  rewrite !andb_true_iff. intros [? ?]. auto.
Qed.

Lemma all_chars_trimStart f s :
  JS.all_chars f s = true → JS.all_chars f (JS.trimStart s) = true.
Proof.
  induction s as [|c s IH]; [done|]. cbn [JS.trimStart].
  destruct (JS.is_whitespace c); [|done].
  cbn. rewrite andb_true_iff. intros [_ ?]. auto.
Qed.

Lemma all_chars_trimEnd f s :
  JS.all_chars f s = true → JS.all_chars f (JS.trimEnd s) = true.
Proof.
  induction s as [|c s IH]; [done|]. cbn [JS.trimEnd JS.all_chars].
  rewrite andb_true_iff. intros [Hc Hs].
  destruct (JS.is_whitespace c && String.eqb (JS.trimEnd s) ""); [done|].
  cbn. rewrite Hc. auto.
Qed.

Lemma all_chars_trim f s :
  JS.all_chars f s = true → JS.all_chars f (JS.trim s) = true.
Proof. intros. by apply all_chars_trimEnd, all_chars_trimStart. Qed.

Lemma all_chars_replaceAll (f g : ascii → bool) c by' s :
  JS.all_chars g s = true →
  (∀ x, g x = true → Ascii.eqb x c = false → f x = true) →
  JS.all_chars f by' = true →
  JS.all_chars f (JS.replaceAll c by' s) = true.
Proof.
  intros Hs Hgf Hby. induction s as [|x s IH]; [done|].
  cbn in Hs. apply andb_true_iff in Hs as [Hx Hs]. cbn [JS.replaceAll].
  destruct (Ascii.eqb x c) eqn:E; cbv iota.
  - rewrite all_chars_app, Hby. auto.
  - cbn [JS.all_chars]. rewrite (Hgf x Hx E). auto.
Qed.

Lemma replaceAll_absent c by' s :
  JS.all_chars (λ x, negb (Ascii.eqb x c)) s = true → JS.replaceAll c by' s = s.
Proof.
  induction s as [|x s IH]; [done|]. cbn.
  rewrite andb_true_iff, negb_true_iff. intros [-> ?]. f_equal. auto.
Qed.

(** *** [trim] is idempotent *)

Definition no_leading_space (s : string) : Prop :=
  match s with
  | EmptyString => True
  | String c _ => JS.is_whitespace c = false
  end.

Lemma trimStart_no_leading_space s : no_leading_space (JS.trimStart s).
Proof.
  induction s as [|c s IH]; [done|]. cbn [JS.trimStart].
  by destruct (JS.is_whitespace c) eqn:E.
Qed.

Lemma trimStart_id s : no_leading_space s → JS.trimStart s = s.
Proof.
  destruct s as [|c s]; [done|]. cbn [no_leading_space JS.trimStart].
  by intros ->.
Qed.

Lemma trimEnd_no_leading_space s :
  no_leading_space s → no_leading_space (JS.trimEnd s).
Proof.
  destruct s as [|c s]; [done|]. cbn [no_leading_space JS.trimEnd].
  intros H. by rewrite H.
Qed.

Lemma trimEnd_idempotent s : JS.trimEnd (JS.trimEnd s) = JS.trimEnd s.
Proof.
  induction s as [|c s IH]; [done|]. cbn [JS.trimEnd].
  destruct (JS.is_whitespace c && String.eqb (JS.trimEnd s) "") eqn:E; [done|].
  cbn [JS.trimEnd]. by rewrite IH, E.
Qed.

Lemma trim_idempotent s : JS.trim (JS.trim s) = JS.trim s.
Proof.
  unfold JS.trim.
  rewrite (trimStart_id (JS.trimEnd (JS.trimStart s))).
  - apply trimEnd_idempotent.
  - apply trimEnd_no_leading_space, trimStart_no_leading_space.
Qed.

Lemma length_trimStart s : (String.length (JS.trimStart s) ≤ String.length s)%nat.
Proof.
  induction s as [|c s IH]; [done|]. cbn [JS.trimStart].
  destruct (JS.is_whitespace c); simpl; lia.
Qed.

Lemma length_trimEnd s : (String.length (JS.trimEnd s) ≤ String.length s)%nat.
Proof.
  induction s as [|c s IH]; [done|]. cbn [JS.trimEnd].
  destruct (JS.is_whitespace c && String.eqb (JS.trimEnd s) ""); simpl; lia.
Qed.

(** *** [sanitizeInput] *)

Lemma sanitizeInput_harmless s : harmless (sanitizeInput s).
Proof.
  unfold harmless, sanitizeInput. apply all_chars_trim.
  eapply (all_chars_replaceAll _
            (λ x, negb (Ascii.eqb x "<" || Ascii.eqb x ">"
                        || Ascii.eqb x JS.double_quote || Ascii.eqb x "'")));
    [|intros x Hx E; unfold dangerous; rewrite E;
      by rewrite orb_false_r|reflexivity].
  eapply (all_chars_replaceAll _
            (λ x, negb (Ascii.eqb x "<" || Ascii.eqb x ">"
                        || Ascii.eqb x JS.double_quote)));
    [|intros x Hx E; rewrite E; by rewrite orb_false_r|reflexivity].
  eapply (all_chars_replaceAll _
            (λ x, negb (Ascii.eqb x "<" || Ascii.eqb x ">")));
    [|intros x Hx E; rewrite E; by rewrite orb_false_r|reflexivity].
  eapply (all_chars_replaceAll _ (λ x, negb (Ascii.eqb x "<")));
    [|intros x Hx E; rewrite E; by rewrite orb_false_r|reflexivity].
  eapply (all_chars_replaceAll _ (λ _, true));
    [|intros x Hx E; by rewrite E|reflexivity].
  by induction s as [|c s IH].
Qed.

Lemma harmless_absent s c :
  dangerous c = true → harmless s →
  JS.all_chars (λ x, negb (Ascii.eqb x c)) s = true.
Proof.
  intros Hc. apply all_chars_impl. intros x Hx.
  destruct (Ascii.eqb_spec x c) as [->|]; [|done]. by rewrite Hc in Hx.
Qed.

Lemma sanitizeInput_of_harmless s : harmless s → sanitizeInput s = JS.trim s.
Proof.
  intros Hs. unfold sanitizeInput.
  rewrite (replaceAll_absent "<" _ s) by (by apply harmless_absent).
  rewrite (replaceAll_absent ">" _ s) by (by apply harmless_absent).
  rewrite (replaceAll_absent JS.double_quote _ s) by (by apply harmless_absent).
  rewrite (replaceAll_absent "'" _ s) by (by apply harmless_absent).
  by rewrite (replaceAll_absent "/" _ s) by (by apply harmless_absent).
Qed.

(** What [sanitizeInput] returns holds none of the five characters it
    escapes (less-than, greater-than, double quote, apostrophe, slash) and
    has no white space at either end; a text without those characters is
    only trimmed, so sanitizing twice is sanitizing once. *)
Theorem sanitizeInput_escapes (s : string) :
  harmless (sanitizeInput s) ∧
  JS.trim (sanitizeInput s) = sanitizeInput s ∧
  sanitizeInput (sanitizeInput s) = sanitizeInput s ∧
  (JS.all_chars (λ c, negb (dangerous c)) s = true → sanitizeInput s = JS.trim s).
Proof.
  assert (JS.trim (sanitizeInput s) = sanitizeInput s) as Htrim.
  { unfold sanitizeInput. apply trim_idempotent. }
  split_and!.
  - apply sanitizeInput_harmless.
  - exact Htrim.
  - rewrite sanitizeInput_of_harmless by apply sanitizeInput_harmless. exact Htrim.
  - apply sanitizeInput_of_harmless.
Qed.

(** *** [validateName] *)

Lemma sanitizeInput_fixpoint s : sanitizeInput (sanitizeInput s) = sanitizeInput s.
Proof.
  rewrite sanitizeInput_of_harmless by apply sanitizeInput_harmless.
  unfold sanitizeInput. apply trim_idempotent.
Qed.

Lemma validateName_Some name n :
  validateName (Some name) = Some n →
  n = sanitizeInput (JS.trim name) ∧
  1 ≤ JS.length n ≤ MAX_NAME_LENGTH ∧
  JS.all_chars name_char n = true.
Proof.
  unfold validateName.
  destruct (String.eqb name ""); [done|].
  destruct (Z.eqb_spec (JS.length (sanitizeInput (JS.trim name))) 0); [done|].
  destruct (Z.gtb_spec (JS.length (sanitizeInput (JS.trim name))) MAX_NAME_LENGTH);
    [done|].
  cbn [orb]. destruct (JS.all_chars name_char _) eqn:E; [|done].
  cbn [negb]. intros [= <-]. split_and!; try done.
  unfold JS.length in *. lia.
Qed.

(** A name that [validateName] returns has between 1 and 100 characters,
    all of them word characters, white space or hyphens, none of the
    escaped characters (so no apostrophe either), no white space
    at its ends, and validates to itself. *)
Theorem validateName_result name n :
  validateName (Some name) = Some n →
  1 ≤ JS.length n ≤ MAX_NAME_LENGTH ∧
  JS.all_chars (λ c, JS.is_word c || JS.is_whitespace c || Ascii.eqb c "-") n = true ∧
  JS.trim n = n ∧
  validateName (Some n) = Some n.
Proof.
  intros Hv. destruct (validateName_Some name n Hv) as (Hn & Hlen & Hchars).
  assert (harmless n) as Hh by (rewrite Hn; apply sanitizeInput_harmless).
  assert (JS.trim n = n) as Htrim.
  { rewrite Hn. unfold sanitizeInput. apply trim_idempotent. }
  split_and!; [lia|lia| |done|].
  - unfold harmless in Hh. clear -Hchars Hh.
    induction n as [|c n IH]; [done|]. cbn in *.
    apply andb_true_iff in Hchars as [Hc Hn], Hh as [Hd Hh].
    rewrite IH by done. rewrite andb_true_r.
    unfold name_char in Hc. unfold dangerous in Hd.
    destruct (Ascii.eqb c "'"); [by rewrite !orb_true_r in Hd|].
    by rewrite orb_false_r in Hc.
  - unfold validateName.
    destruct (String.eqb_spec n "") as [->|_].
    { unfold JS.length in Hlen. simpl in Hlen. lia. }
    rewrite Htrim, (sanitizeInput_of_harmless n Hh), Htrim.
    destruct (Z.eqb_spec (JS.length n) 0); [lia|].
    destruct (Z.gtb_spec (JS.length n) MAX_NAME_LENGTH); [lia|].
    cbn [orb]. by rewrite Hchars.
Qed.

Lemma validateName_result_witness :
  validateName (Some "  Mary-Jane ") = Some "Mary-Jane" ∧
  1 ≤ JS.length "Mary-Jane" ≤ MAX_NAME_LENGTH ∧
  JS.all_chars (λ c, JS.is_word c || JS.is_whitespace c || Ascii.eqb c "-")
               "Mary-Jane" = true ∧
  JS.trim "Mary-Jane" = "Mary-Jane" ∧
  validateName (Some "Mary-Jane") = Some "Mary-Jane".
Proof.
  split; [reflexivity|].
  apply (validateName_result "  Mary-Jane " "Mary-Jane"). reflexivity.
Defined.

Lemma all_chars_of_trimStart f s :
  JS.all_chars f (JS.trimStart s) = true →
  JS.all_chars (λ c, JS.is_whitespace c || f c) s = true.
Proof.
  induction s as [|c s IH]; [done|]. cbn [JS.trimStart JS.all_chars].
  destruct (JS.is_whitespace c) eqn:E.
  - intros H. cbn [orb]. auto.
  - cbn [JS.all_chars orb]. intros [-> H]%andb_true_iff. cbn [andb].
    revert H. apply all_chars_impl. intros x ->. apply orb_true_r.
Qed.

Lemma all_chars_of_trimEnd f s :
  JS.all_chars f (JS.trimEnd s) = true →
  JS.all_chars (λ c, JS.is_whitespace c || f c) s = true.
Proof.
  induction s as [|c s IH]; [done|]. cbn [JS.trimEnd JS.all_chars].
  destruct (JS.is_whitespace c) eqn:E; cbn [andb orb].
  - destruct (String.eqb_spec (JS.trimEnd s) "") as [He|He].
    + intros _. apply IH. by rewrite He.
    + cbn [JS.all_chars]. intros [_ H]%andb_true_iff. auto.
  - cbn [JS.all_chars]. intros [-> H]%andb_true_iff. cbn [andb]. auto.
Qed.

Lemma all_chars_of_trim f s :
  (∀ c, JS.is_whitespace c = true → f c = true) →
  JS.all_chars f (JS.trim s) = true → JS.all_chars f s = true.
Proof.
  intros Hws H. apply all_chars_of_trimEnd, all_chars_of_trimStart in H.
  revert H. apply all_chars_impl. intros c.
  destruct (JS.is_whitespace c) eqn:E; [auto|done].
Qed.

Lemma all_chars_of_replaceAll f c by' s :
  JS.all_chars f by' = false →
  JS.all_chars f (JS.replaceAll c by' s) = true →
  JS.all_chars (λ x, negb (Ascii.eqb x c) && f x) s = true.
Proof.
  intros Hby. induction s as [|x s IH]; [done|]. cbn [JS.replaceAll].
  destruct (Ascii.eqb x c) eqn:E; cbv iota.
  - rewrite all_chars_app, Hby. done.
  - cbn [JS.all_chars]. rewrite E. cbn [negb andb].
    intros [-> H]%andb_true_iff. cbn [andb]. auto.
Qed.

Lemma name_chars_only_from_harmless s :
  JS.all_chars name_char (sanitizeInput s) = true →
  JS.all_chars (λ c, negb (dangerous c)) s = true.
Proof.
  unfold sanitizeInput. intros H.
  apply all_chars_of_trim in H;
    [|intros c Hc; unfold name_char; rewrite Hc; by rewrite !orb_true_r].
  apply all_chars_of_replaceAll in H; [|reflexivity].
  apply all_chars_of_replaceAll in H; [|reflexivity].
  apply all_chars_of_replaceAll in H; [|reflexivity].
  apply all_chars_of_replaceAll in H; [|reflexivity].
  apply all_chars_of_replaceAll in H; [|reflexivity].
  revert H. apply all_chars_impl. intros c. unfold dangerous.
  destruct (Ascii.eqb c "<"), (Ascii.eqb c ">"), (Ascii.eqb c JS.double_quote),
    (Ascii.eqb c "'"), (Ascii.eqb c "/"); cbn; done.
Qed.

Lemma validateName_escaped_None (before after : string) (c : ascii) :
  dangerous c = true →
  validateName (Some (before ++ String c after)%string) = None.
Proof.
  intros Hc.
  destruct (validateName (Some (before ++ String c after)%string))
    as [n|] eqn:Hv; [|done].
  destruct (validateName_Some _ _ Hv) as (Hn & _ & Hchars).
  rewrite Hn in Hchars. apply name_chars_only_from_harmless in Hchars.
  apply all_chars_of_trim in Hchars.
  - rewrite all_chars_app in Hchars. cbn [JS.all_chars] in Hchars.
    rewrite Hc in Hchars. cbn in Hchars. by rewrite andb_false_r in Hchars.
  - intros x Hx. unfold dangerous.
    destruct x as [[] [] [] [] [] [] [] []]; try discriminate Hx; reflexivity.
Qed.

(** A name in which one of the five escaped characters occurs is always
    rejected: the escape puts an ampersand and a semicolon in its place,
    which the pattern does not allow.  The apostrophe that the pattern
    lists is among them. *)
Theorem validateName_rejects_escaped (before after : string) (c : ascii) :
  dangerous c = true →
  validateName (Some (before ++ String c after)%string) = None.
Proof. apply validateName_escaped_None. Qed.

Lemma validateName_rejects_escaped_witness :
  validateName (Some "O'Neil") = None.
Proof.
  apply (validateName_rejects_escaped "O" "Neil" "'"). reflexivity.
Defined.

(** *** [validateWishlist] *)

Lemma length_take_string n s : (String.length (JS.take_string n s) ≤ n)%nat.
Proof.
  revert s. induction n as [|n IH]; intros [|c s]; simpl; try lia.
  specialize (IH s). lia.
Qed.

Lemma all_chars_take_string f n s :
  JS.all_chars f s = true → JS.all_chars f (JS.take_string n s) = true.
Proof.
  revert s. induction n as [|n IH]; intros [|c s]; try done.
  cbn. rewrite !andb_true_iff. intros [? ?]. auto.
Qed.

(** The wishlist that is stored never has more than 1000 characters and
    holds none of the five escaped characters, also when the cut at 1000
    falls inside an escape. *)
Theorem validateWishlist_bounded (wishlist : option string) :
  JS.length (validateWishlist wishlist) ≤ MAX_WISHLIST_LENGTH ∧
  JS.all_chars (λ c, negb (dangerous c)) (validateWishlist wishlist) = true.
Proof.
  unfold validateWishlist. destruct wishlist as [w|]; [|by split].
  destruct (String.eqb w ""); [by split|].
  destruct (Z.gtb_spec (JS.length (sanitizeInput (JS.trim w))) MAX_WISHLIST_LENGTH).
  - split.
    + unfold JS.length.
      pose proof (length_take_string (Z.to_nat MAX_WISHLIST_LENGTH)
                    (sanitizeInput (JS.trim w))).
      unfold MAX_WISHLIST_LENGTH in *. lia.
    + apply all_chars_take_string, sanitizeInput_harmless.
  - split; [lia|apply sanitizeInput_harmless].
Qed.

(** *** [validateNumber] *)

Definition is_digit (c : ascii) : bool :=
  match JS.digit_of c with Some _ => true | None => false end.

(** The text after the digits starts with something that is not a digit. *)
Definition no_digit_ahead (rest : string) : Prop :=
  match rest with
  | EmptyString => True
  | String c _ => is_digit c = false
  end.

Lemma parse_digits_suffix d rest acc :
  JS.all_chars is_digit d = true → no_digit_ahead rest →
  JS.parse_digits (d ++ rest)%string acc = JS.parse_digits d acc.
Proof.
  revert acc. induction d as [|c d IH]; intros acc Hd Hrest.
  - change (JS.parse_digits rest acc = acc).
    destruct rest as [|c rest]; [done|]. cbn in *. unfold is_digit in Hrest.
    by destruct (JS.digit_of c).
  - change (JS.parse_digits (String c (d ++ rest)%string) acc
            = JS.parse_digits (String c d) acc).
    cbn in Hd. apply andb_true_iff in Hd as [Hc Hd]. cbn [JS.parse_digits].
    destruct (JS.digit_of c); [by apply IH|done].
Qed.

Lemma parseInt_digit_head c s :
  is_digit c = true →
  JS.parseInt (Some (String c s)) = JS.parse_digits (String c s) None.
Proof.
  intros Hc.
  destruct c as [[] [] [] [] [] [] [] []]; try discriminate Hc; reflexivity.
Qed.

(** [validateNumber] reads the digits at the head of the reply and ignores
    whatever follows them: a reply such as 3 groups or 2.9 is taken as 3
    or 2. *)
Theorem validateNumber_ignores_suffix (d rest : string) (min : Z) (max : option Z) :
  d ≠ "" → JS.all_chars is_digit d = true → no_digit_ahead rest →
  validateNumber (Some (d ++ rest)%string) min max = validateNumber (Some d) min max.
Proof.
  intros Hne Hd Hrest. unfold validateNumber.
  destruct d as [|c d]; [done|].
  assert (is_digit c = true) as Hc.
  { cbn in Hd. by apply andb_true_iff in Hd as [? _]. }
  change (String c d ++ rest)%string with (String c (d ++ rest)%string).
  rewrite !parseInt_digit_head by done.
  change (String c (d ++ rest)%string) with (String c d ++ rest)%string.
  by rewrite parse_digits_suffix.
Qed.

Lemma validateNumber_ignores_suffix_witness :
  validateNumber (Some "2.9") 1 (Some 5) = Some 2 ∧
  validateNumber (Some ("3" ++ " groups")%string) 1 (Some 5)
  = validateNumber (Some "3") 1 (Some 5).
Proof.
  split; [reflexivity|].
  apply (validateNumber_ignores_suffix "3" " groups" 1 (Some 5)); done.
Defined.

End SecurityMore.

(** * Properties of the rate limiter *)

Module RateLimitFacts.
Import RateLimit.

(** The verdicts of successive calls for one user, at the given times. *)
Fixpoint calls (times : list Z) (userId : Z) (rateLimitStore : gmap Z UserData)
  : list bool * gmap Z UserData :=
  match times with
  | [] => ([], rateLimitStore)
  | now :: rest =>
      let (limited, store') := isRateLimited now userId rateLimitStore in
      let (verdicts, store'') := calls rest userId store' in
      (limited :: verdicts, store'')
  end.

Lemma calls_in_window times userId store c r :
  store !! userId = Some (mkUserData c r) →
  Forall (λ t, t < r) times →
  ∀ (k : nat) v, (calls times userId store).1 !! k = Some v →
                 v = (c + Z.of_nat k + 1 >? RATE_LIMIT_MAX_REQUESTS).
Proof.
  revert store c. induction times as [|t times IH]; intros store c Hu Hin k v.
  { cbn. by rewrite lookup_nil. }
  apply Forall_cons in Hin as [Ht Hin]. cbn [calls].
  unfold isRateLimited at 1. rewrite Hu. cbn [resetTime count].
  destruct (Z.leb_spec r t); [lia|].
  destruct (calls times userId _) as [verdicts store''] eqn:Hc. cbn [fst].
  destruct k as [|k]; cbn.
  - intros [= <-]. f_equal. lia.
  - intros Hk.
    specialize (IH (<[userId := mkUserData (c + 1) r]> store) (c + 1)).
    rewrite Hc in IH. cbn [fst] in IH.
    rewrite (IH (lookup_insert_eq _ _ _) Hin k v Hk). f_equal. lia.
Qed.

(** From a call that finds no open window for the user (no entry, or one
    whose window is over), the calls that follow within the next minute
    are let through up to the tenth and refused from the eleventh on. *)
Theorem ten_calls_per_window (t0 : Z) (times : list Z) (userId : Z)
        (store : gmap Z UserData) :
  (∀ d, store !! userId = Some d → resetTime d ≤ t0) →
  Forall (λ t, t < t0 + RATE_LIMIT_WINDOW) times →
  ∀ (k : nat) v, (calls (t0 :: times) userId store).1 !! k = Some v →
                 v = bool_decide (10 ≤ k)%nat.
Proof.
  intros Hfresh Hin k v. cbn [calls].
  assert (isRateLimited t0 userId store
          = (false, <[userId := mkUserData 1 (t0 + RATE_LIMIT_WINDOW)]> store)) as ->.
  { unfold isRateLimited. destruct (store !! userId) as [d|] eqn:Hd; [|done].
    specialize (Hfresh d eq_refl). by destruct (Z.leb_spec (resetTime d) t0); [|lia]. }
  destruct (calls times userId _) as [verdicts store''] eqn:Hc. cbn [fst].
  destruct k as [|k]; cbn.
  - by intros [= <-].
  - intros Hk.
    pose proof (calls_in_window times userId
                  (<[userId := mkUserData 1 (t0 + RATE_LIMIT_WINDOW)]> store)
                  1 (t0 + RATE_LIMIT_WINDOW)
                  (lookup_insert_eq _ _ _) Hin k v) as H.
    rewrite Hc in H. rewrite (H Hk). unfold RATE_LIMIT_MAX_REQUESTS.
    destruct (Z.gtb_spec (1 + Z.of_nat k + 1) 10);
      [rewrite bool_decide_true|rewrite bool_decide_false]; (done || lia).
Qed.

Lemma ten_calls_per_window_witness :
  (calls [0; 1; 2; 3; 4; 5; 6; 7; 8; 9; 10; 59999; 60000] 7 ∅).1
  = [false; false; false; false; false; false; false; false; false; false;
     true; true; false] ∧
  ∀ (k : nat) v, (calls (0 :: [1; 2; 3; 4; 5; 6; 7; 8; 9; 10; 59999]) 7 ∅).1 !! k
                 = Some v →
                 v = bool_decide (10 ≤ k)%nat.
Proof.
  split; [vm_compute; reflexivity|].
  apply (ten_calls_per_window 0 [1; 2; 3; 4; 5; 6; 7; 8; 9; 10; 59999] 7 ∅).
  - intros d Hd. by rewrite lookup_empty in Hd.
  - unfold RATE_LIMIT_WINDOW. repeat (constructor; [lia|]). constructor.
Defined.

(** The periodic cleanup deletes exactly the entries whose window is
    over, and no later call can tell: its verdict and the entry it leaves
    for the user are the same with and without the cleanup. *)
Theorem cleanup_is_transparent (now now' userId : Z) (store : gmap Z UserData) :
  now ≤ now' →
  (∀ k d, cleanupRateLimitStore now store !! k = Some d ↔
          store !! k = Some d ∧ now < resetTime d) ∧
  (isRateLimited now' userId (cleanupRateLimitStore now store)).1
  = (isRateLimited now' userId store).1 ∧
  (isRateLimited now' userId (cleanupRateLimitStore now store)).2 !! userId
  = (isRateLimited now' userId store).2 !! userId.
Proof.
  intros Hle.
  assert (∀ k d, cleanupRateLimitStore now store !! k = Some d ↔
                 store !! k = Some d ∧ now < resetTime d) as Hclean.
  { intros k d. unfold cleanupRateLimitStore.
    rewrite map_lookup_filter_Some. cbn. split; intros [? ?]; split; (done || lia). }
  split; [exact Hclean|].
  unfold isRateLimited.
  destruct (cleanupRateLimitStore now store !! userId) as [d|] eqn:Hc.
  - apply Hclean in Hc as [-> _].
    destruct (Z.leb_spec (resetTime d) now'); cbn; by rewrite !lookup_insert_eq.
  - destruct (store !! userId) as [d|] eqn:Hs.
    + assert (resetTime d ≤ now) as Hexp.
      { destruct (decide (now < resetTime d)) as [Hlt|]; [|lia].
        pose proof (proj2 (Hclean userId d) (conj Hs Hlt)) as H. congruence. }
      destruct (Z.leb_spec (resetTime d) now'); [|lia].
      cbn. by rewrite !lookup_insert_eq.
    + cbn. by rewrite !lookup_insert_eq.
Qed.

Lemma cleanup_is_transparent_witness :
  let store : gmap Z UserData :=
    {[ 7 := mkUserData 11 60000; 8 := mkUserData 3 500 ]} in
  cleanupRateLimitStore 1000 store = {[ 7 := mkUserData 11 60000 ]} ∧
  (∀ k d, cleanupRateLimitStore 1000 store !! k = Some d ↔
          store !! k = Some d ∧ 1000 < resetTime d) ∧
  (isRateLimited 2000 8 (cleanupRateLimitStore 1000 store)).1
  = (isRateLimited 2000 8 store).1 ∧
  (isRateLimited 2000 8 (cleanupRateLimitStore 1000 store)).2 !! 8
  = (isRateLimited 2000 8 store).2 !! 8.
Proof.
  intros store. split; [vm_compute; reflexivity|].
  apply (cleanup_is_transparent 1000 2000 8 store). lia.
Defined.

End RateLimitFacts.

(** * Further properties of the message handler *)

Module HandlerMore.
Import Handler HandlerFacts.

(** ** How a message reaches a state branch *)

(** The world after the rate limiter has counted the message. *)
Definition after_count (now : Z) (msg : Msg) (w : World) : World :=
  mkWorld (userState w) (counted now msg w) (db w) (rng w) (sent w).

Definition is_command (text : option string) : bool :=
  match text with
  | Some t => JS.startsWith t "/"
  | None => false
  end.

Lemma on_message_dispatch ADMIN_USER_ID now msg w entry :
  limited now msg w = false → is_command (text msg) = false →
  userState w !! chat_id msg = Some entry →
  on_message ADMIN_USER_ID now msg w
  = dispatch ADMIN_USER_ID (on_awaiting_num_groups_again ADMIN_USER_ID)
             (chat_id msg) (from_id msg) (text msg) entry (after_count now msg w).
Proof.
  intros Hlim Hcmd Hentry.
  unfold on_message, on_message_with, mbind, M_bind, isRateLimited, after_count.
  unfold limited in Hlim. unfold counted.
  destruct (RateLimit.isRateLimited now (from_id msg) (rateLimitStore w))
    as [lim store']. cbn [fst snd] in *. subst lim.
  unfold is_command in Hcmd. rewrite Hcmd.
  unfold get_state. cbn [userState]. by rewrite Hentry.
Qed.

Lemma on_message_idle_chat ADMIN_USER_ID now msg w :
  limited now msg w = false → is_command (text msg) = false →
  userState w !! chat_id msg = None →
  on_message ADMIN_USER_ID now msg w = (Ok (), after_count now msg w).
Proof.
  intros Hlim Hcmd Hentry.
  unfold on_message, on_message_with, mbind, M_bind, isRateLimited, after_count.
  unfold limited in Hlim. unfold counted.
  destruct (RateLimit.isRateLimited now (from_id msg) (rateLimitStore w))
    as [lim store']. cbn [fst snd] in *. subst lim.
  unfold is_command in Hcmd. rewrite Hcmd.
  unfold get_state. cbn [userState]. by rewrite Hentry.
Qed.

(** ** Invariants of the tables *)

Section TableInvariant.
Variable J : Store.Tables → Prop.

(** [J] holds of the tables the connection sees. *)
Definition holds (w : World) : Prop := J (Store.tables (db w)).

(** [m] keeps [J], also when it throws. *)
Definition keeps {A} (m : M A) : Prop := hoare holds m (λ _, holds) holds.

Lemma keeps_ret {A} (a : A) : keeps (mret a).
Proof. intros w Hw. exact Hw. Qed.

Lemma keeps_throw {A} (e : string) : keeps (throw (A:=A) e).
Proof. intros w Hw. exact Hw. Qed.

Lemma keeps_bind {A B} (m : M A) (f : A → M B) :
  keeps m → (∀ a, keeps (f a)) → keeps (m ≫= f).
Proof. intros Hm Hf. eapply hoare_bind; [exact Hm|exact Hf]. Qed.

Lemma keeps_try_catch {A} (body : M A) (handler : string → M A) :
  keeps body → (∀ e, keeps (handler e)) → keeps (try_catch body handler).
Proof. intros Hb Hh. eapply hoare_try_catch; [exact Hb|exact Hh]. Qed.

Lemma keeps_attempt {A} (body : M A) : keeps body → keeps (attempt body).
Proof.
  intros Hb w Hw. specialize (Hb w Hw). unfold attempt.
  by destruct (body w) as [[a|e] w'].
Qed.

Lemma keeps_send chatId m : keeps (sendMessage chatId m).
Proof. intros w Hw. exact Hw. Qed.

Lemma keeps_get chatId : keeps (get_state chatId).
Proof. intros w Hw. exact Hw. Qed.

Lemma keeps_put chatId sd : keeps (put_state chatId sd).
Proof. intros w Hw. exact Hw. Qed.

Lemma keeps_delete chatId : keeps (delete_state chatId).
Proof. intros w Hw. exact Hw. Qed.

Lemma keeps_field {A} what (o : option A) : keeps (field what o).
Proof. destruct o; [apply keeps_ret|apply keeps_throw]. Qed.

Lemma keeps_rate now userId : keeps (isRateLimited now userId).
Proof.
  intros w Hw. unfold isRateLimited.
  by destruct (RateLimit.isRateLimited now userId (rateLimitStore w)).
Qed.

(** A statement that is not ROLLBACK and whose effect keeps [J]. *)
Lemma keeps_query q :
  q ≠ Store.ROLLBACK →
  (∀ d, J (Store.tables d) → J (Store.run q d).1.2) →
  keeps (query q).
Proof.
  intros Hq Hrun w Hw. unfold holds in *. unfold query, Store.query.
  destruct (Store.faults (db w) (length (Store.log (db w)))).
  - by destruct q.
  - specialize (Hrun (db w) Hw).
    destruct (Store.run q (db w)) as [[rows t] b]. exact Hrun.
Qed.

End TableInvariant.

(** ** What a sender who is not the admin can do *)

(** [t'] has the groups, memberships and assignments of [t], and its
    participants are those of [t], with their keys and names, followed by
    new ones. *)
Definition grows (t t' : Store.Tables) : Prop :=
  Store.tg_groups t' = Store.tg_groups t ∧
  Store.tg_group_members t' = Store.tg_group_members t ∧
  Store.tg_assignments t' = Store.tg_assignments t ∧
  (Store.id <$> Store.tg_participants t) `prefix_of`
    (Store.id <$> Store.tg_participants t') ∧
  (Store.name <$> Store.tg_participants t) `prefix_of`
    (Store.name <$> Store.tg_participants t').

Lemma grows_upsert t0 t n wl :
  grows t0 t → grows t0 (Store.upsert_participant n wl t).
Proof.
  intros (Hg & Hm & Ha & Hid & Hname).
  unfold grows, Store.upsert_participant. cbn.
  split_and!; try done.
  - destruct (Store.has_name n _).
    + by rewrite (proj1 (proj2 (set_wishlist_rows n wl _))).
    + rewrite fmap_app. etrans; [exact Hid|]. by apply prefix_app_r.
  - destruct (Store.has_name n _).
    + by rewrite (proj1 (proj2 (proj2 (set_wishlist_rows n wl _)))).
    + rewrite fmap_app. etrans; [exact Hname|]. by apply prefix_app_r.
Qed.

Ltac keeps_step :=
  first
    [ apply keeps_ret | apply keeps_throw | apply keeps_send
    | apply keeps_get | apply keeps_put | apply keeps_delete
    | apply keeps_field | apply keeps_rate
    | apply keeps_attempt
    | apply keeps_bind; [|intros ?]
    | apply keeps_try_catch; [|intros ?]
    | match goal with
      | |- keeps _ (match ?x with _ => _ end) => destruct x
      end ].

Lemma non_admin_keeps ADMIN_USER_ID now msg t0 :
  isAdmin ADMIN_USER_ID (from_id msg) = false →
  keeps (grows t0) (on_message ADMIN_USER_ID now msg).
Proof.
  intros Hadmin.
  unfold on_message, on_message_with, dispatch,
    on_awaiting_name, on_awaiting_wishlist, on_awaiting_name_for_assignment,
    on_awaiting_clear_confirmation, on_awaiting_num_groups,
    on_awaiting_restrictions, on_awaiting_num_groups_again.
  cbv zeta. rewrite Hadmin. cbn [negb].
  repeat first
    [ keeps_step
    | apply keeps_query; [discriminate|intros d Hd; cbn; (exact Hd || by apply grows_upsert)] ].
Qed.

(** A message from a sender who is not the admin, whatever its text and
    whatever state the chat is in, leaves the groups, the memberships and
    the assignments as they are, and removes or renames no participant:
    it can at most add a participant or rewrite a wishlist. *)
Theorem non_admin_cannot_reset ADMIN_USER_ID now msg w :
  isAdmin ADMIN_USER_ID (from_id msg) = false →
  grows (Store.tables (db w))
        (Store.tables (db (on_message ADMIN_USER_ID now msg w).2)).
Proof.
  intros Hadmin.
  pose proof (non_admin_keeps ADMIN_USER_ID now msg (Store.tables (db w)) Hadmin w)
    as H.
  destruct (on_message ADMIN_USER_ID now msg w) as [[[]|e] w']; apply H;
    unfold holds, grows; by split_and!.
Qed.

Lemma non_admin_cannot_reset_witness :
  let entry := mkStateData "awaiting_clear_confirmation" None None None None in
  let t := Store.mkTables [Store.mkParticipant 1 "Alice" ""]
                          [Store.mkGroup 1 "Secret Angel Group 1"] [] [] 2 2 1 1 in
  let w := mkWorld {[ 5 := entry ]} ∅ (Store.mkDb t None (λ _, false) [])
                   (mkRng (λ _, O) O) [] in
  let run := on_message (Some 1) 1000 (mkMsg 5 7 (Some "yes")) w in
  sent run.2 = [(5, ClearNotAdmin)] ∧ userState run.2 !! 5 = None ∧
  grows (Store.tables (db w)) (Store.tables (db run.2)).
Proof.
  intros entry t w run. split; [vm_compute; reflexivity|].
  split; [vm_compute; reflexivity|].
  apply (non_admin_cannot_reset (Some 1) 1000 (mkMsg 5 7 (Some "yes")) w).
  reflexivity.
Defined.

(** A handled message leaves the connection outside a transaction when it
    found it outside one, whether the handler returns or throws. *)
Theorem handler_closes_its_transaction ADMIN_USER_ID now msg w :
  Store.begun (db w) = None →
  Store.begun (db (on_message ADMIN_USER_ID now msg w).2) = None.
Proof.
  intros Hidle.
  pose proof (on_message_keeps_idle ADMIN_USER_ID now msg w Hidle) as H.
  by destruct (on_message ADMIN_USER_ID now msg w) as [[[]|e] w'].
Qed.

Lemma handler_closes_its_transaction_witness :
  let entry := mkStateData "awaiting_restrictions" None (Some 2)
                 (Some [(1, "Alice"); (2, "Bob")]) (Some 1) in
  let t := Store.mkTables [Store.mkParticipant 1 "Alice" "";
                           Store.mkParticipant 2 "Bob" ""] [] [] [] 3 1 1 1 in
  let w := mkWorld {[ 5 := entry ]} ∅ (Store.mkDb t None (λ k, (k =? 3)%nat) [])
                   (mkRng (λ _, O) O) [] in
  let run := on_message (Some 7) 1000 (mkMsg 5 7 (Some "none")) w in
  sent run.2 = [(5, Processing 1 0); (5, UnexpectedError Store.store_error)] ∧
  Store.begun (db run.2) = None.
Proof.
  intros entry t w run. split; [vm_compute; reflexivity|].
  apply (handler_closes_its_transaction (Some 7) 1000 (mkMsg 5 7 (Some "none")) w).
  reflexivity.
Defined.

(** ** Replies that are not valid *)

(** The world after the handler has counted the message and sent [m]. *)
Definition reprompted (now : Z) (msg : Msg) (w : World) (m : Message) : World :=
  mkWorld (userState w) (counted now msg w) (db w) (rng w)
          (sent w ++ [(chat_id msg, m)]).

(** A reply that its state does not accept, with the answer it gets. *)
Inductive refused (ADMIN_USER_ID : option Z) (msg : Msg) (entry : StateData)
  : Message → Prop :=
| refused_name :
    state entry = "awaiting_name" →
    Security.validateName (text msg) = None →
    refused ADMIN_USER_ID msg entry InvalidName
| refused_lookup_name :
    state entry = "awaiting_name_for_assignment" →
    Security.validateName (text msg) = None →
    refused ADMIN_USER_ID msg entry InvalidName
| refused_number :
    state entry = "awaiting_num_groups" →
    isAdmin ADMIN_USER_ID (from_id msg) = true →
    Security.validateNumber (text msg) 1 (participantCount entry) = None →
    refused ADMIN_USER_ID msg entry (InvalidNumGroups (participantCount entry))
| refused_restrictions roster k :
    state entry = "awaiting_restrictions" →
    isAdmin ADMIN_USER_ID (from_id msg) = true →
    participants entry = Some roster → numGroups entry = Some k →
    Security.validateRestrictionsInput (text msg) (snd <$> roster) = None →
    refused ADMIN_USER_ID msg entry InvalidRestrictions.

(** A reply that fails validation is answered with the prompt of its
    state and changes nothing else: the chat stays in its state with the
    same data, no statement is issued and nothing is drawn. *)
Theorem invalid_reply_keeps_state ADMIN_USER_ID now msg w entry m :
  limited now msg w = false → is_command (text msg) = false →
  userState w !! chat_id msg = Some entry →
  refused ADMIN_USER_ID msg entry m →
  on_message ADMIN_USER_ID now msg w = (Ok (), reprompted now msg w m).
Proof.
  intros Hlim Hcmd Hentry Href.
  rewrite (on_message_dispatch _ _ _ _ entry) by done.
  unfold dispatch, reprompted, after_count.
  destruct Href as [Hs Hv|Hs Hv|Hs Ha Hv|roster k Hs Ha Hr Hk Hv]; rewrite Hs.
  - change (branch_of "awaiting_name") with BranchName. cbv iota.
    unfold on_awaiting_name. by rewrite Hv.
  - change (branch_of "awaiting_name_for_assignment") with BranchNameForAssignment.
    cbv iota. unfold on_awaiting_name_for_assignment. by rewrite Hv.
  - change (branch_of "awaiting_num_groups") with BranchNumGroups. cbv iota.
    unfold on_awaiting_num_groups. rewrite Ha, Hv. done.
  - change (branch_of "awaiting_restrictions") with BranchRestrictions. cbv iota.
    unfold on_awaiting_restrictions. rewrite Ha. cbn [negb].
    unfold mbind, M_bind, field. rewrite Hr, Hk. unfold mret, M_ret.
    by rewrite Hv.
Qed.

Lemma invalid_reply_keeps_state_witness :
  let entry := mkStateData "awaiting_restrictions" None (Some 2)
                 (Some [(1, "Alice"); (2, "Bob")]) (Some 1) in
  let w := mkWorld {[ 5 := entry ]} ∅
             (Store.mkDb (Store.mkTables [] [] [] [] 1 1 1 1) None (λ _, false) [])
             (mkRng (λ _, O) O) [] in
  let msg := mkMsg 5 7 (Some "Alice, Zed") in
  on_message (Some 7) 1000 msg w = (Ok (), reprompted 1000 msg w InvalidRestrictions).
Proof.
  intros entry w msg.
  apply (invalid_reply_keeps_state (Some 7) 1000 msg w entry InvalidRestrictions).
  - vm_compute. reflexivity.
  - reflexivity.
  - vm_compute. reflexivity.
  - apply (refused_restrictions _ _ _ [(1, "Alice"); (2, "Bob")] 1); reflexivity.
Defined.

(** ** The number of groups *)

Lemma validateNumber_within input min max n :
  Security.validateNumber input min max = Some n →
  min ≤ n ≤ default 1000 max.
Proof.
  unfold Security.validateNumber.
  destruct (JS.parseInt input) as [num|]; [|done].
  destruct (Z.ltb_spec num min); [done|].
  destruct (Z.gtb_spec num (default 1000 max)); [done|].
  intros [= <-]. lia.
Qed.

(** The admin's reply to the group-count prompt moves the chat to
    awaiting_restrictions only with a count between 1 and the number of
    participants of the snapshot, which the entry keeps together with the
    roster. *)
Theorem num_groups_reply_moves_on ADMIN_USER_ID now msg w entry count k :
  limited now msg w = false → is_command (text msg) = false →
  userState w !! chat_id msg = Some entry →
  state entry = "awaiting_num_groups" →
  isAdmin ADMIN_USER_ID (from_id msg) = true →
  participantCount entry = Some count →
  Security.validateNumber (text msg) 1 (Some count) = Some k →
  1 ≤ k ≤ count ∧
  on_message ADMIN_USER_ID now msg w
  = (Ok (),
     mkWorld (<[chat_id msg :=
                  mkStateData "awaiting_restrictions" (name entry) (Some count)
                              (participants entry) (Some k)]> (userState w))
             (counted now msg w) (db w) (rng w)
             (sent w ++ [(chat_id msg, AskRestrictions k)])).
Proof.
  intros Hlim Hcmd Hentry Hs Ha Hc Hv.
  split; [apply (validateNumber_within _ _ _ _ Hv)|].
  rewrite (on_message_dispatch _ _ _ _ entry) by done.
  unfold dispatch, after_count. rewrite Hs.
  change (branch_of "awaiting_num_groups") with BranchNumGroups. cbv iota.
  unfold on_awaiting_num_groups. rewrite Ha, Hc, Hv. cbn [negb].
  unfold set_state_numGroups. by rewrite Hc.
Qed.

Lemma num_groups_reply_moves_on_witness :
  let entry := mkStateData "awaiting_num_groups" None (Some 2)
                 (Some [(1, "Alice"); (2, "Bob")]) None in
  let w := mkWorld {[ 5 := entry ]} ∅
             (Store.mkDb (Store.mkTables [] [] [] [] 1 1 1 1) None (λ _, false) [])
             (mkRng (λ _, O) O) [] in
  let msg := mkMsg 5 7 (Some " 2 groups") in
  1 ≤ 2 ≤ 2 ∧
  on_message (Some 7) 1000 msg w
  = (Ok (),
     mkWorld (<[chat_id msg :=
                  mkStateData "awaiting_restrictions" (name entry) (Some 2)
                              (participants entry) (Some 2)]> (userState w))
             (counted 1000 msg w) (db w) (rng w)
             (sent w ++ [(chat_id msg, AskRestrictions 2)])).
Proof.
  intros entry w msg.
  apply (num_groups_reply_moves_on (Some 7) 1000 msg w entry 2 2);
    first [reflexivity | vm_compute; reflexivity].
Defined.

(** ** Clearing the data *)

(** [text && text.toLowerCase() === 'yes'] *)
Definition says_yes (text : option string) : bool :=
  match text with
  | Some t => negb (String.eqb t "") && String.eqb (JS.toLowerCase t) "yes"
  | None => false
  end.

(** The admin's reply to the clear-data warning: yes in any letter case
    empties the four tables and restarts their keys (or reports the
    failure of the statement and leaves them); any other reply, a message
    without text included, cancels without touching the store.  The chat
    leaves the state in every case. *)
Theorem clear_confirmation_outcome ADMIN_USER_ID now msg w entry :
  limited now msg w = false → is_command (text msg) = false →
  userState w !! chat_id msg = Some entry →
  state entry = "awaiting_clear_confirmation" →
  isAdmin ADMIN_USER_ID (from_id msg) = true →
  let run := on_message ADMIN_USER_ID now msg w in
  run.1 = Ok () ∧
  userState run.2 = delete (chat_id msg) (userState w) ∧
  if says_yes (text msg) then
    if Store.faults (db w) (length (Store.log (db w))) then
      Store.tables (db run.2) = Store.tables (db w) ∧
      sent run.2 = sent w ++ [(chat_id msg, ClearFailed)]
    else
      Store.tables (db run.2) = Store.mkTables [] [] [] [] 1 1 1 1 ∧
      sent run.2 = sent w ++ [(chat_id msg, Cleared)]
  else
    db run.2 = db w ∧ sent run.2 = sent w ++ [(chat_id msg, ClearCancelled)].
Proof.
  intros Hlim Hcmd Hentry Hs Ha run. subst run.
  rewrite (on_message_dispatch _ _ _ _ entry) by done.
  unfold dispatch, after_count. rewrite Hs.
  change (branch_of "awaiting_clear_confirmation") with BranchClearConfirmation.
  cbv iota. unfold on_awaiting_clear_confirmation. rewrite Ha. cbn [negb].
  fold (says_yes (text msg)). destruct (says_yes (text msg)).
  - unfold mbind, M_bind, try_catch, query, Store.query. cbn [db].
    destruct (Store.faults (db w) (length (Store.log (db w)))); cbn; by split_and!.
  - cbn. by split_and!.
Qed.

Lemma clear_confirmation_outcome_witness :
  let entry := mkStateData "awaiting_clear_confirmation" None None None None in
  let t := Store.mkTables [Store.mkParticipant 4 "Alice" ""]
                          [Store.mkGroup 1 "Secret Angel Group 1"] [] [] 5 2 1 1 in
  let w := mkWorld {[ 5 := entry ]} ∅ (Store.mkDb t None (λ _, false) [])
                   (mkRng (λ _, O) O) [] in
  let msg := mkMsg 5 7 (Some "YES") in
  let run := on_message (Some 7) 1000 msg w in
  run.1 = Ok () ∧
  userState run.2 = delete (chat_id msg) (userState w) ∧
  if says_yes (text msg) then
    if Store.faults (db w) (length (Store.log (db w))) then
      Store.tables (db run.2) = Store.tables (db w) ∧
      sent run.2 = sent w ++ [(chat_id msg, ClearFailed)]
    else
      Store.tables (db run.2) = Store.mkTables [] [] [] [] 1 1 1 1 ∧
      sent run.2 = sent w ++ [(chat_id msg, Cleared)]
  else
    db run.2 = db w ∧ sent run.2 = sent w ++ [(chat_id msg, ClearCancelled)].
Proof.
  intros entry t w msg.
  apply (clear_confirmation_outcome (Some 7) 1000 msg w entry);
    first [reflexivity | vm_compute; reflexivity].
Defined.

(** ** Looking up an assignment *)

(** Some participant has this name, letter case apart. *)
Definition known (n : string) (t : Store.Tables) : Prop :=
  ∃ row, row ∈ Store.tg_participants t ∧
         JS.toLowerCase (Store.name row) = JS.toLowerCase n.

Lemma select_participant_exists_known n t :
  Store.select_participant_exists n t ≠ [] ↔ known n t.
Proof.
  unfold Store.select_participant_exists, known. split.
  - intros Hne. destruct (omap _ _) as [|[] l] eqn:E; [done|].
    assert (() ∈ omap (λ row, if String.eqb (JS.toLowerCase (Store.name row))
                                            (JS.toLowerCase n)
                              then Some () else None) (Store.tg_participants t))
      as Hin by (rewrite E; left).
    apply list_elem_of_omap in Hin as (row & Hrow & Hf).
    exists row. split; [done|].
    destruct (String.eqb_spec (JS.toLowerCase (Store.name row)) (JS.toLowerCase n));
      done.
  - intros (row & Hrow & Heq) Hempty.
    assert (() ∈ omap (λ row, if String.eqb (JS.toLowerCase (Store.name row))
                                            (JS.toLowerCase n)
                              then Some () else None) (Store.tg_participants t))
      as Hin.
    { apply list_elem_of_omap. exists row. split; [done|].
      by rewrite Heq, String.eqb_refl. }
    rewrite Hempty in Hin. by apply elem_of_nil in Hin.
Qed.

Lemma select_assignment_known n t r :
  r ∈ Store.select_assignment n t → known n t.
Proof.
  unfold Store.select_assignment. intros (a & _ & Hf)%list_elem_of_omap.
  unfold Store.find_participant in Hf.
  destruct (List.find _ _) as [giver|] eqn:Hg; [|done].
  destruct (List.find (λ row, Store.id row =? Store.receiver_participant_id a) _);
    [|done].
  destruct (String.eqb_spec (JS.toLowerCase (Store.name giver)) (JS.toLowerCase n));
    [|done].
  apply find_some in Hg as [Hin _]. exists giver.
  split; [by apply list_elem_of_In|done].
Qed.

(** A valid name sent in awaiting_name_for_assignment, when both queries
    succeed: a name that some participant has, in any letter case, is
    answered with the assignment or with the notice that none is made yet,
    and only a name that nobody has is answered as not registered.
    Nothing is written and the chat leaves the state. *)
Theorem lookup_knows_the_registered ADMIN_USER_ID now msg w entry n :
  limited now msg w = false → is_command (text msg) = false →
  userState w !! chat_id msg = Some entry →
  state entry = "awaiting_name_for_assignment" →
  Security.validateName (text msg) = Some n →
  Store.faults (db w) (length (Store.log (db w))) = false →
  Store.faults (db w) (S (length (Store.log (db w)))) = false →
  let run := on_message ADMIN_USER_ID now msg w in
  userState run.2 = delete (chat_id msg) (userState w) ∧
  Store.tables (db run.2) = Store.tables (db w) ∧
  ∃ m, sent run.2 = sent w ++ [(chat_id msg, m)] ∧
       (known n (Store.tables (db w)) ∧
        (m = NoAssignmentYet n ∨ ∃ receiver wishlist, m = YourAssignment n receiver wishlist)
        ∨ ¬ known n (Store.tables (db w)) ∧ m = NotRegistered n).
Proof.
  intros Hlim Hcmd Hentry Hs Hv Hf1 Hf2 run. subst run.
  rewrite (on_message_dispatch _ _ _ _ entry) by done.
  unfold dispatch, after_count. rewrite Hs.
  change (branch_of "awaiting_name_for_assignment") with BranchNameForAssignment.
  cbv iota. unfold on_awaiting_name_for_assignment. rewrite Hv.
  unfold mbind, M_bind, try_catch, query, Store.query. cbn [db]. rewrite Hf1.
  cbn [Store.run Store.tables Store.begun Store.faults Store.log].
  destruct (Store.select_assignment n (Store.tables (db w)))
    as [|[receiver wishlist] rest] eqn:Hsel.
  - cbn [db Store.faults Store.log]. rewrite length_app. cbn [length].
    replace (length (Store.log (db w)) + 1)%nat
      with (S (length (Store.log (db w)))) by lia.
    rewrite Hf2. cbn [Store.run Store.tables].
    destruct (Store.select_participant_exists n (Store.tables (db w)))
      as [|u rest] eqn:Hex; cbn.
    + split_and!; try done. eexists. split; [done|]. right. split; [|done].
      intros Hk. apply select_participant_exists_known in Hk. by rewrite Hex in Hk.
    + split_and!; try done. eexists. split; [done|]. left. split; [|by left].
      apply select_participant_exists_known. by rewrite Hex.
  - cbn. split_and!; try done. eexists. split; [done|]. left. split; [|right; eauto].
    apply (select_assignment_known n _ (receiver, wishlist)). rewrite Hsel. left.
Qed.

Lemma lookup_knows_the_registered_witness :
  let entry := mkStateData "awaiting_name_for_assignment" None None None None in
  let t := Store.mkTables [Store.mkParticipant 1 "Alice" ""; Store.mkParticipant 2 "Bob" "tea"]
                          [Store.mkGroup 1 "Secret Angel Group 1"]
                          [Store.mkMember 1 1 1; Store.mkMember 2 1 2]
                          [Store.mkAssignment 1 1 1 2; Store.mkAssignment 2 1 2 1]
                          3 2 3 3 in
  let w := mkWorld {[ 5 := entry ]} ∅ (Store.mkDb t None (λ _, false) [])
                   (mkRng (λ _, O) O) [] in
  let msg := mkMsg 5 9 (Some " alice ") in
  let run := on_message (Some 7) 1000 msg w in
  sent run.2 = [(5, YourAssignment "alice" "Bob" "tea")] ∧
  userState run.2 = delete (chat_id msg) (userState w) ∧
  Store.tables (db run.2) = Store.tables (db w) ∧
  ∃ m, sent run.2 = sent w ++ [(chat_id msg, m)] ∧
       (known "alice" (Store.tables (db w)) ∧
        (m = NoAssignmentYet "alice"
         ∨ ∃ receiver wishlist, m = YourAssignment "alice" receiver wishlist)
        ∨ ¬ known "alice" (Store.tables (db w)) ∧ m = NotRegistered "alice").
Proof.
  intros entry t w msg run. split; [vm_compute; reflexivity|].
  apply (lookup_knows_the_registered (Some 7) 1000 msg w entry "alice");
    first [reflexivity | vm_compute; reflexivity].
Defined.

(** ** Registration, from the name to the row *)

Lemma valid_name_no_command t n :
  Security.validateName (Some t) = Some n → JS.startsWith t "/" = false.
Proof.
  intros Hv. destruct t as [|c t]; [done|]. cbn.
  destruct (Ascii.eqb_spec c "/") as [->|]; [|done].
  pose proof (SecurityMore.validateName_escaped_None "" t "/" eq_refl) as H.
  change ("" ++ String "/" t)%string with (String "/" t) in H. congruence.
Qed.

Lemma upsert_has_row n wl t :
  ∃ row, row ∈ Store.tg_participants (Store.upsert_participant n wl t) ∧
         Store.name row = n ∧ Store.wishlist row = wl.
Proof.
  unfold Store.upsert_participant. cbn.
  destruct (Store.has_name n (Store.tg_participants t)) eqn:Hhas.
  - induction (Store.tg_participants t) as [|row rows IH]; [done|].
    cbn in Hhas. cbn [Store.set_wishlist].
    destruct (String.eqb_spec (Store.name row) n) as [Heq|Hne].
    + eexists. split; [left|]. done.
    + cbn in Hhas. destruct (IH Hhas) as (r & Hr & ?). exists r. split; [by right|done].
  - eexists. split; [apply elem_of_app; right; left|]. done.
Qed.

(** The two replies of a registration, each let through by the rate
    limiter: after a name that validates to [n] and a text that is not a
    command, with the INSERT succeeding, the table has a row named [n]
    whose wishlist is empty for skip and the sanitized text otherwise, the
    chat is back to no state, and the two answers are the wishlist prompt
    and the confirmation. *)
Theorem registration_stores_validated_name ADMIN_USER_ID now1 now2 chat user
        t1 t2 n w entry :
  userState w !! chat = Some entry → state entry = "awaiting_name" →
  Security.validateName (Some t1) = Some n →
  JS.startsWith t2 "/" = false →
  Store.faults (db w) (length (Store.log (db w))) = false →
  let msg1 := mkMsg chat user (Some t1) in
  let msg2 := mkMsg chat user (Some t2) in
  let w1 := (on_message ADMIN_USER_ID now1 msg1 w).2 in
  let w2 := (on_message ADMIN_USER_ID now2 msg2 w1).2 in
  let wishlist :=
    if String.eqb (JS.toLowerCase t2) "skip" then "" else sanitized_wishlist t2 in
  limited now1 msg1 w = false → limited now2 msg2 w1 = false →
  userState w1 !! chat
  = Some (mkStateData "awaiting_wishlist" (Some n) (participantCount entry)
                      (participants entry) (numGroups entry)) ∧
  userState w2 !! chat = None ∧
  sent w2 = sent w ++ [(chat, AskWishlist n);
                       (chat, Registered n (negb (String.eqb wishlist "")))] ∧
  ∃ row, row ∈ Store.tg_participants (Store.tables (db w2)) ∧
         Store.name row = n ∧ Store.wishlist row = wishlist.
Proof.
  intros Hentry Hs Hv Hcmd2 Hfault msg1 msg2 w1 w2 wishlist Hlim1 Hlim2.
  assert (wishlist = stored_wishlist t2) as Hw.
  { unfold wishlist, stored_wishlist. by rewrite validateWishlist_sanitized. }
  clearbody wishlist. subst wishlist.
  pose proof (valid_name_no_command t1 n Hv) as Hcmd1.
  assert (on_message ADMIN_USER_ID now1 msg1 w
          = (Ok (), mkWorld (<[chat := set_state_name "awaiting_wishlist" n entry]>
                               (userState w))
                            (counted now1 msg1 w) (db w) (rng w)
                            (sent w ++ [(chat, AskWishlist n)]))) as H1.
  { rewrite (on_message_dispatch _ _ _ _ entry); [|done|done|done].
    unfold dispatch, after_count. rewrite Hs.
    change (branch_of "awaiting_name") with BranchName. cbv iota.
    unfold on_awaiting_name. cbn [text msg1]. by rewrite Hv. }
  subst w2. revert Hlim2. subst w1. rewrite H1. cbn [snd].
  set (w1 := mkWorld _ _ _ _ _). intros Hlim2.
  assert (userState w1 !! chat
          = Some (set_state_name "awaiting_wishlist" n entry)) as Hentry1.
  { unfold w1. cbn. apply lookup_insert_eq. }
  rewrite (on_message_dispatch _ _ _ _ _ Hlim2 Hcmd2 Hentry1).
  unfold dispatch, after_count.
  change (branch_of (state (set_state_name "awaiting_wishlist" n entry)))
    with BranchWishlist. cbv iota.
  unfold on_awaiting_wishlist, mbind, M_bind, field. cbn [name set_state_name].
  unfold mret, M_ret, attempt, query, Store.query. cbn [text msg2 db w1].
  replace (if negb (String.eqb (JS.toLowerCase t2) "skip")
           then Security.validateWishlist (Some t2) else "")
    with (stored_wishlist t2)
    by (unfold stored_wishlist; by destruct (String.eqb (JS.toLowerCase t2) "skip")).
  rewrite Hfault. cbn.
  split_and!.
  - apply lookup_insert_eq.
  - apply lookup_delete_eq.
  - by rewrite <-app_assoc.
  - apply upsert_has_row.
Qed.

(** The sender has an open window in which two requests are counted
    already; the two replies follow within the same minute. *)
Lemma registration_stores_validated_name_witness :
  let entry := mkStateData "awaiting_name" None None None None in
  let w := mkWorld {[ 5 := entry ]} {[ 7 := RateLimit.mkUserData 2 60500 ]}
             (Store.mkDb (Store.mkTables [Store.mkParticipant 1 "Bob" "tea"] [] [] [] 2 1 1 1)
                         None (λ _, false) [])
             (mkRng (λ _, O) O) [] in
  let w1 := (on_message (Some 1) 1000 (mkMsg 5 7 (Some " Mary-Jane ")) w).2 in
  let w2 := (on_message (Some 1) 2000 (mkMsg 5 7 (Some "a <b>")) w1).2 in
  Store.tg_participants (Store.tables (db w2))
  = [Store.mkParticipant 1 "Bob" "tea"; Store.mkParticipant 2 "Mary-Jane" "a &lt;b&gt;"] ∧
  rateLimitStore w2 !! 7 = Some (RateLimit.mkUserData 4 60500) ∧
  userState w1 !! 5
  = Some (mkStateData "awaiting_wishlist" (Some "Mary-Jane") None None None) ∧
  userState w2 !! 5 = None ∧
  sent w2 = sent w ++ [(5, AskWishlist "Mary-Jane");
                       (5, Registered "Mary-Jane" (negb (String.eqb "a &lt;b&gt;" "")))] ∧
  ∃ row, row ∈ Store.tg_participants (Store.tables (db w2)) ∧
         Store.name row = "Mary-Jane" ∧ Store.wishlist row = "a &lt;b&gt;".
Proof.
  intros entry w w1 w2. split; [vm_compute; reflexivity|].
  split; [vm_compute; reflexivity|].
  apply (registration_stores_validated_name (Some 1) 1000 2000 5 7
           " Mary-Jane " "a <b>" "Mary-Jane" w entry);
    first [reflexivity | vm_compute; reflexivity].
Defined.

End HandlerMore.

(** * A run of group creation as the handler starts it

    The handler builds both the list of names and the name-to-id map from
    the roster it has kept, and the number of groups has passed
    [validateNumber] against the roster's size.  Under these conditions the
    defensive branches of the loop are never taken. *)

Module RosterRun.
Import Bot BotFacts BotMore Handler HandlerFacts.

(** As [hoare], with the exception's message visible to [E]. *)
Definition triple {A} (P : World → Prop) (m : M A)
           (Q : A → World → Prop) (E : string → World → Prop) : Prop :=
  ∀ w, P w →
    match m w with
    | (Ok a, w') => Q a w'
    | (Throw e, w') => E e w'
    end.

Lemma triple_ret {A} (a : A) (Q : A → World → Prop) E : triple (Q a) (mret a) Q E.
Proof. intros w Hw. exact Hw. Qed.

Lemma triple_bind {A B} P (m : M A) (f : A → M B) Q R E :
  triple P m Q E → (∀ a, triple (Q a) (f a) R E) → triple P (m ≫= f) R E.
Proof.
  intros Hm Hf w Hw. specialize (Hm w Hw). unfold mbind, M_bind.
  destruct (m w) as [[a|e] w']; [|done]. by apply Hf.
Qed.

Lemma triple_weaken {A} (P P' : World → Prop) (m : M A)
      (Q Q' : A → World → Prop) (E : string → World → Prop) :
  triple P' m Q' E → (∀ w, P w → P' w) → (∀ a w, Q' a w → Q a w) →
  triple P m Q E.
Proof.
  intros Hm HP HQ w Hw. specialize (Hm w (HP w Hw)).
  destruct (m w) as [[a|e] w']; auto.
Qed.

Lemma triple_try_catch {A} P (body : M A) (handler : string → M A) Q E1 E2 :
  triple P body Q E1 → (∀ e, triple (E1 e) (handler e) Q E2) →
  triple P (try_catch body handler) Q E2.
Proof.
  intros Hb Hh w Hw. specialize (Hb w Hw). unfold try_catch.
  destruct (body w) as [[a|e] w']; [done|]. by apply Hh.
Qed.

(** The map built from the roster. *)
Lemma participant_map_fold (roster : list (Z * string)) (acc : gmap string Z) name :
  (∀ x, foldl (λ m p, <[p.2 := p.1]> m) acc roster !! name = Some x →
        (x, name) ∈ roster ∨ acc !! name = Some x) ∧
  (name ∈ roster.*2 ∨ is_Some (acc !! name) →
   is_Some (foldl (λ m p, <[p.2 := p.1]> m) acc roster !! name)).
Proof.
  revert acc. induction roster as [|[x0 n0] roster IH]; intros acc; cbn.
  { split; [auto|]. intros [?%elem_of_nil|?]; done. }
  destruct (IH (<[n0 := x0]> acc)) as [IH1 IH2]. split.
  - intros x Hx. destruct (IH1 x Hx) as [?|Hacc]; [left; by constructor|].
    destruct (decide (n0 = name)) as [->|Hne].
    + rewrite lookup_insert_eq in Hacc. injection Hacc as ->. left. by constructor.
    + rewrite lookup_insert_ne in Hacc by done. by right.
  - intros H. apply IH2.
    destruct (decide (n0 = name)) as [->|Hne].
    + right. by rewrite lookup_insert_eq.
    + rewrite lookup_insert_ne by done.
      destruct H as [[?|?]%elem_of_cons|?]; [done|by left|by right].
Qed.

Lemma participant_map_elem roster name x :
  participant_map roster !! name = Some x → (x, name) ∈ roster.
Proof.
  intros H. destruct (proj1 (participant_map_fold roster ∅ name) x H) as [?|H'];
    [done|]. by rewrite lookup_empty in H'.
Qed.

Lemma participant_map_mapped roster name :
  name ∈ roster.*2 → is_Some (participant_map roster !! name).
Proof. intros H. apply participant_map_fold. by left. Qed.

Lemma roster_id_names (roster : list (Z * string)) x n1 n2 :
  NoDup roster.*1 → (x, n1) ∈ roster → (x, n2) ∈ roster → n1 = n2.
Proof.
  induction roster as [|[x0 n0] roster IH]; cbn; [by intros _ ?%elem_of_nil|].
  intros [Hnotin Hnd]%NoDup_cons [H1|H1]%elem_of_cons [H2|H2]%elem_of_cons.
  - congruence.
  - injection H1 as -> ->. destruct Hnotin.
    apply list_elem_of_fmap. by exists (x0, n2).
  - injection H2 as -> ->. destruct Hnotin.
    apply list_elem_of_fmap. by exists (x0, n1).
  - by apply IH.
Qed.

Section Roster.
Variable chatId : Z.
Variable roster : list (Z * string).
Variable restrictions : list (list string).
(** The world in which the run starts. *)
Variable w0 : World.

(** Nothing has been sent since the run started; the statements issued
    since then are in the log, and the store fails where it did. *)
Definition quiet (w : World) : Prop :=
  sent w = sent w0 ∧
  Store.faults (db w) = Store.faults (db w0) ∧
  (length (Store.log (db w0)) ≤ length (Store.log (db w)))%nat.

(** One of the statements of the run fails. *)
Definition faulted : Prop :=
  ∃ n, (length (Store.log (db w0)) ≤ n)%nat ∧ Store.faults (db w0) n = true.

(** An assignment row between two different people of the roster. *)
Definition sound_row (a : Store.AssignmentRow) : Prop :=
  Store.giver_participant_id a ≠ Store.receiver_participant_id a ∧
  Store.giver_participant_id a ∈ roster.*1 ∧
  Store.receiver_participant_id a ∈ roster.*1.

(** The tables during and after the run: the participants are those of the
    start, and the assignments are [total] sound rows. *)
Definition run_tables (total : Z) (t : Store.Tables) : Prop :=
  Store.tg_participants t = Store.tg_participants (Store.tables (db w0)) ∧
  Forall sound_row (Store.tg_assignments t) ∧
  Z.of_nat (length (Store.tg_assignments t)) = total.

Definition running (p : Progress) (w : World) : Prop :=
  quiet w ∧ run_tables (totalAssignments p) (Store.tables (db w)).

(** The exception that reaches the outer [catch]. *)
Definition store_fault (e : string) (w : World) : Prop :=
  e = Store.store_error ∧ quiet w ∧ faulted.

(** The run has reported a group of [all] that matching gave up on. *)
Definition unmatched_in (all : list (list string)) (w : World) : Prop :=
  ∃ i group g,
    sent w = sent w0 ++ [(chatId, MatchingFailed i group (err_no_assignment group))] ∧
    group ∈ all ∧
    (assignSecretAngels group restrictions g).1 = Throw (err_no_assignment group).

(** What a statement does to a quiet world. *)
Lemma query_cases q w :
  quiet w →
  (∃ w', query q w = (Throw Store.store_error, w') ∧ quiet w' ∧ faulted)
  ∨ (∃ w', query q w = (Ok (Store.run q (db w)).1.1, w') ∧ quiet w' ∧
           Store.tables (db w') = (Store.run q (db w)).1.2).
Proof.
  intros (Hs & Hf & Hl). unfold query, Store.query.
  destruct (Store.faults (db w) (length (Store.log (db w)))) eqn:Hfault.
  - left.
    assert (faulted) as Hfaulted.
    { exists (length (Store.log (db w))). split; [done|]. by rewrite <-Hf. }
    destruct q; eexists; (split; [reflexivity|]); (split; [|done]);
      (split_and!; cbn; [done|done|rewrite length_app; lia]).
  - right. destruct (Store.run q (db w)) as [[rows t] b].
    eexists. split; [reflexivity|]. split; [|done].
    split_and!; cbn; [done|done|rewrite length_app; lia].
Qed.

Lemma triple_draw {A} (f : Rng → A * Rng) (P : World → Prop) E :
  (∀ w g, P w →
     P (mkWorld (userState w) (rateLimitStore w) (db w) g (sent w))) →
  triple P (draw f) (λ a w, P w ∧ ∃ g, a = (f g).1) E.
Proof.
  intros HP w Hw. unfold draw. destruct (f (rng w)) as [a g'] eqn:Hf.
  split; [by apply HP|]. exists (rng w). by rewrite Hf.
Qed.

(** A statement that takes the tables from [running p] to [running p']
    when it succeeds. *)
Lemma triple_query_running q p p' (Q : Store.Rows → Prop) :
  (∀ d, run_tables (totalAssignments p) (Store.tables d) →
        run_tables (totalAssignments p') (Store.run q d).1.2 ∧
        Q (Store.run q d).1.1) →
  triple (running p) (query q) (λ rows w, running p' w ∧ Q rows) store_fault.
Proof.
  intros Hq w [Hs Ht].
  destruct (query_cases q w Hs) as [(w' & -> & ? & ?)|(w' & -> & ? & Htables)].
  - done.
  - destruct (Hq (db w) Ht) as [Ht' HQ]. split; [|done]. split; [done|].
    by rewrite Htables.
Qed.

(** [await client.query('ROLLBACK')] where the loop gives up. *)
Lemma triple_rollback (P : World → Prop) :
  (∀ w, P w → quiet w) →
  triple P (query Store.ROLLBACK) (λ _, quiet) store_fault.
Proof.
  intros HP w Hw%HP.
  by destruct (query_cases Store.ROLLBACK w Hw)
    as [(w' & -> & ? & ?)|(w' & -> & ? & _)].
Qed.

Lemma triple_insert_members p groupId groupNames :
  Forall (λ name, name ∈ roster.*2) groupNames →
  triple (running p)
    (insert_members chatId (participant_map roster) groupId groupNames)
    (λ ok w, ok = true ∧ running p w) store_fault.
Proof.
  induction groupNames as [|name rest IH]; intros Hall; cbn [insert_members].
  { intros w Hw. by split. }
  apply Forall_cons in Hall as [Hname Hrest].
  destruct (participant_map_mapped roster name Hname) as [participantId ->].
  eapply triple_bind.
  { apply (triple_query_running _ p p (λ _, True)). intros d Hd. by cbn. }
  intros ?. eapply triple_weaken; [by apply IH|by intros w [? _]|auto].
Qed.

Lemma triple_insert_assignments groupId matches p :
  NoDup roster.*1 →
  Forall (λ m, giver m ∈ roster.*2 ∧ receiver m ∈ roster.*2 ∧ giver m ≠ receiver m)
         matches →
  allGroupsProcessedSuccessfully p = true →
  triple (running p)
    (insert_assignments chatId (participant_map roster) groupId matches p)
    (λ p' w, allGroupsProcessedSuccessfully p' = true ∧ running p' w) store_fault.
Proof.
  intros Hnd. revert p. induction matches as [|m rest IH]; intros p Hall Hp;
    cbn [insert_assignments].
  { intros w Hw. by split. }
  apply Forall_cons in Hall as [(Hg & Hr & Hne) Hrest].
  destruct (participant_map_mapped roster _ Hg) as [giverId HgId].
  destruct (participant_map_mapped roster _ Hr) as [receiverId HrId].
  rewrite HgId, HrId.
  apply participant_map_elem in HgId, HrId.
  eapply triple_bind.
  { apply (triple_query_running _ p
             (add_assignment (PairLine (giver m) (receiver m)) p) (λ _, True)).
    intros d (Hparts & Hrows & Htotal). split; [|done].
    unfold run_tables, Store.run, Store.insert_assignment. cbn.
    split_and!; [done| |rewrite length_app; cbn; lia].
    apply Forall_app. split; [done|]. constructor; [|done].
    split_and!; cbn.
    - intros ->. apply Hne. by eapply roster_id_names.
    - apply list_elem_of_fmap. by exists (giverId, giver m).
    - apply list_elem_of_fmap. by exists (receiverId, receiver m). }
  intros ?. eapply triple_weaken; [by apply IH|by intros w [? _]|auto].
Qed.

Lemma triple_process_groups all groups i p :
  NoDup roster.*1 →
  Forall (λ group, group ∈ all ∧ Forall (λ name, name ∈ roster.*2) group) groups →
  allGroupsProcessedSuccessfully p = true →
  triple (running p)
    (process_groups chatId (participant_map roster) restrictions groups i p)
    (λ p' w, allGroupsProcessedSuccessfully p' = true ∧ running p' w
             ∨ allGroupsProcessedSuccessfully p' = false ∧ unmatched_in all w)
    store_fault.
Proof.
  intros Hnd. revert i p. induction groups as [|groupNames rest IH];
    intros i p Hall Hp; cbn [process_groups].
  { intros w Hw. left. by split. }
  apply Forall_cons in Hall as [[Hin Hgroup] Hrest].
  destruct (Nat.ltb_spec (length groupNames) 2) as [Hshort|Hlong].
  { eapply triple_weaken; [by apply IH|done|auto]. }
  set (p1 := add_line (GroupHeader (group_label i) (length groupNames)) p).
  eapply triple_bind.
  { apply (triple_draw _ (running p1)). by intros w g. }
  intros [matches|matchError].
  2:{ intros w [Hw [g Hg]]. symmetry in Hg.
      pose proof (assignSecretAngels_Throw _ _ _ _ Hg) as ->. revert w Hw.
      eapply triple_bind; [apply triple_rollback; by intros w [? _]|].
      intros ? w (Hw & _ & _). cbn. right. split; [done|].
      exists (i + 1), groupNames, g. by rewrite Hw. }
  cbv beta.
  eapply triple_weaken with
    (P' := λ w, running p1 w ∧
                length matches = length groupNames ∧
                Forall (λ m, giver m ∈ groupNames ∧ receiver m ∈ groupNames ∧
                             giver m ≠ receiver m) matches)
    (Q' := λ p' w, allGroupsProcessedSuccessfully p' = true ∧ running p' w
                   ∨ allGroupsProcessedSuccessfully p' = false ∧ unmatched_in all w);
    [|intros w [Hw [g Hg]]; split; [done|];
      by eapply assignSecretAngels_Ok|auto].
  intros w (Hw & Hlen & Hms). revert w Hw.
  destruct (Nat.eqb_spec (length matches) 0) as [?|_]; [lia|]. cbn [andb].
  eapply triple_bind.
  { apply (triple_query_running _ p1 p1 (λ rows, ∃ id, rows = Store.GroupIdRows id)).
    intros d Hd. cbn. split; [done|by eexists]. }
  intros rows.
  eapply triple_bind with (Q := λ _, running p1).
  { intros w [Hw [id ->]]. exact Hw. }
  intros groupId.
  eapply triple_bind; [by apply triple_insert_members|].
  intros ok. eapply triple_weaken with (P' := λ w, ok = true ∧ running p1 w)
    (Q' := λ p' w, allGroupsProcessedSuccessfully p' = true ∧ running p' w
                   ∨ allGroupsProcessedSuccessfully p' = false ∧ unmatched_in all w);
    [|auto|auto].
  intros w [-> Hw]. revert w Hw. cbn [negb].
  eapply triple_bind.
  { apply triple_insert_assignments; [done| |done].
    eapply Forall_impl; [exact Hms|]. intros m (Hg & Hr & Hne).
    rewrite Forall_forall in Hgroup. split_and!; auto. }
  intros p'. intros w [Hp' Hw]. rewrite Hp'. cbn [negb].
  revert w Hw. by apply IH.
Qed.

Hypothesis roster_keys : NoDup roster.*1.
Variable numGroups : Z.
Hypothesis roster_not_empty : 0 < Z.of_nat (length roster).
Hypothesis numGroups_in_range : 1 ≤ numGroups ≤ Z.of_nat (length roster).

(** Committed and reported: the message carries the number of groups asked
    for and the number of assignment rows that are now in the table. *)
Definition completed (w : World) : Prop :=
  ∃ total summary,
    sent w = sent w0 ++ [(chatId, GroupsCreated (Z.to_nat numGroups) total summary)] ∧
    run_tables total (Store.tables (db w)).

(** Given up on one of the groups that the participants were put in. *)
Definition unmatched (w : World) : Prop :=
  ∃ g groups,
    (assignParticipantsToGroups roster.*2 numGroups g).1 = Ok groups ∧
    unmatched_in groups w.

(** The store failed, and the failure is reported. *)
Definition failed (w : World) : Prop :=
  sent w = sent w0 ++ [(chatId, UnexpectedError Store.store_error)] ∧ faulted.

Lemma triple_create_groups_try :
  triple (λ w, w = w0)
    (create_groups_try chatId roster.*2 (participant_map roster) numGroups
                       restrictions)
    (λ _ w, completed w ∨ unmatched w) store_fault.
Proof.
  unfold create_groups_try.
  eapply triple_bind with (Q := λ _ w, quiet w ∧
    Store.tg_participants (Store.tables (db w))
    = Store.tg_participants (Store.tables (db w0))).
  { intros w ->.
    assert (quiet w0) as Hq by (by split_and!).
    destruct (query_cases Store.BEGIN w0 Hq)
      as [(w' & -> & ? & ?)|(w' & -> & ? & Htables)]; [done|].
    split; [done|]. by rewrite Htables. }
  intros ?.
  eapply triple_bind with (Q := λ _, running (mkProgress [] 0 true)).
  { intros w [Hq Hparts].
    destruct (query_cases Store.TRUNCATE_groups w Hq)
      as [(w' & -> & ? & ?)|(w' & -> & ? & Htables)]; [done|].
    split; [done|]. rewrite Htables. cbn.
    split_and!; [done|by constructor|done]. }
  intros ?.
  eapply triple_bind.
  { apply (triple_draw _ (running (mkProgress [] 0 true))). by intros w g. }
  intros r.
  eapply triple_bind with
    (Q := λ groups w, running (mkProgress [] 0 true) w ∧
                      Z.of_nat (length groups) = numGroups ∧
                      (∃ g, (assignParticipantsToGroups roster.*2 numGroups g).1
                            = Ok groups) ∧
                      Forall (λ group, Forall (λ name, name ∈ roster.*2) group) groups).
  { intros w [Hw [g Hg]].
    destruct (grouping_in_range roster.*2 numGroups g) as (groups & Hrun & Hlen & Hcat & _);
      [by rewrite length_fmap|by rewrite length_fmap|].
    rewrite Hrun in Hg. subst r. cbn. split_and!; [done|done|by exists g|].
    apply Forall_forall. intros group Hgroup. apply Forall_forall. intros name Hname.
    rewrite <-Hcat. apply elem_of_concat. by exists group. }
  intros groups.
  eapply triple_weaken with
    (P' := λ w, (Z.of_nat (length groups) = numGroups ∧
                 (∃ g, (assignParticipantsToGroups roster.*2 numGroups g).1
                       = Ok groups) ∧
                 Forall (λ group, Forall (λ name, name ∈ roster.*2) group) groups) ∧
                running (mkProgress [] 0 true) w)
    (Q' := λ _ w, completed w ∨ unmatched w); [|by intros w (? & ? & ? & ?)|auto].
  intros w [(Hlen & [g Hg] & Hall) Hw]. revert w Hw.
  eapply triple_bind.
  { apply (triple_process_groups groups); [done| |done].
    apply Forall_forall. intros group Hgroup. split; [done|].
    rewrite Forall_forall in Hall. by apply Hall. }
  intros p w [[Hp [Hq Ht]]|[Hp Hw]]; rewrite Hp;
    [|right; by exists g, groups].
  unfold mbind, M_bind.
  destruct (query_cases Store.COMMIT w Hq)
    as [(w' & -> & ? & ?)|(w' & -> & (Hs & _) & Htables)]; [done|].
  unfold sendMessage. left. exists (totalAssignments p), (assignmentsSummary p).
  cbn [db sent]. split; [|rewrite Htables; exact Ht].
  rewrite Hs. do 4 f_equal. lia.
Qed.

Lemma triple_create_groups :
  triple (λ w, w = w0)
    (create_groups chatId roster.*2 (participant_map roster) numGroups restrictions)
    (λ _ w, userState w !! chatId = None ∧
            (completed w ∨ unmatched w ∨ failed w))
    (λ _ _, False).
Proof.
  unfold create_groups.
  eapply triple_bind with (Q := λ _ w, completed w ∨ unmatched w ∨ failed w).
  - eapply triple_try_catch.
    { eapply triple_weaken; [apply triple_create_groups_try|auto|].
      intros ? w [?|?]; auto. }
    intros error w (-> & Hq & Hfaulted).
    unfold mbind, M_bind, try_catch.
    destruct (query_cases Store.ROLLBACK w Hq)
      as [(w' & -> & (Hs & _) & _)|(w' & -> & (Hs & _) & _)]; cbn;
      right; right; (split; [by rewrite Hs|done]).
  - intros ? w H. cbn. split; [apply lookup_delete_eq|].
    destruct H as [(total & summary & ? & ?)|[(g & groups & ? & i & group & g' & ? & ? & ?)|[? ?]]].
    + left. by exists total, summary.
    + right. left. exists g, groups. split; [done|]. by exists i, group, g'.
    + right. right. by split.
Qed.

End Roster.

(** A run started with the handler's arguments (names and map both from
    the roster, whose ids are distinct, and a number of groups between 1
    and the roster's size) sends exactly one message.  It is the success
    report with the number of groups asked for; or the report of a group
    that matching gave up on; or the store's error, after a statement that
    failed.  The reports of an empty matching, of a name or a pair missing
    from the map, and of a wrong number of groups are never sent. *)
Theorem run_reports_one_outcome chatId roster restrictions numGroups w :
  NoDup roster.*1 →
  0 < Z.of_nat (length roster) →
  1 ≤ numGroups ≤ Z.of_nat (length roster) →
  let run := create_groups chatId roster.*2 (participant_map roster) numGroups
                           restrictions w in
  run.1 = Ok () ∧
  ∃ m, sent run.2 = sent w ++ [(chatId, m)] ∧
       ((∃ total summary, m = GroupsCreated (Z.to_nat numGroups) total summary)
        ∨ (∃ i group g,
             m = MatchingFailed i group (err_no_assignment group) ∧
             (assignSecretAngels group restrictions g).1
             = Throw (err_no_assignment group))
        ∨ (m = UnexpectedError Store.store_error ∧
           ∃ n, (length (Store.log (db w)) ≤ n)%nat ∧
                Store.faults (db w) n = true)).
Proof.
  intros Hnd Hlen HN run.
  pose proof (triple_create_groups chatId roster restrictions w Hnd numGroups
                Hlen HN w eq_refl) as H.
  fold run in H. destruct run as [[[]|e] w']; [|done]. split; [done|]. cbn.
  destruct H as [_ [(total & summary & Hs & _)
                   |[(g0 & groups & _ & i & group & g & Hs & _ & Hg)|[Hs Hf]]]];
    eexists; (split; [exact Hs|]); eauto 10.
Qed.

Lemma run_reports_one_outcome_witness :
  let roster := [(1, "Alice"); (2, "Bob"); (3, "Carol")] in
  let w := mkWorld ∅ ∅ (Store.mkDb (Store.mkTables [] [] [] [] 1 1 1 1) None
                                   (λ _, false) [])
                   (mkRng (λ k, k) O) [] in
  let run := create_groups 5 roster.*2 (participant_map roster) 1
                           [["Alice"; "Bob"]] w in
  run.1 = Ok () ∧
  ∃ m, sent run.2 = sent w ++ [(5, m)] ∧
       ((∃ total summary, m = GroupsCreated (Z.to_nat 1) total summary)
        ∨ (∃ i group g,
             m = MatchingFailed i group (err_no_assignment group) ∧
             (assignSecretAngels group [["Alice"; "Bob"]] g).1
             = Throw (err_no_assignment group))
        ∨ (m = UnexpectedError Store.store_error ∧
           ∃ n, (length (Store.log (db w)) ≤ n)%nat ∧
                Store.faults (db w) n = true)).
Proof.
  intros roster w.
  apply (run_reports_one_outcome 5 roster [["Alice"; "Bob"]] 1 w).
  - apply (bool_decide_unpack _). vm_compute. exact I.
  - vm_compute. reflexivity.
  - vm_compute. split; discriminate.
Defined.

(** When such a run reports success, the participants table is the one it
    started from, every row of the assignments table joins two different
    ids of the roster, and the total in the report is the number of
    rows. *)
Theorem reported_success_rows chatId roster restrictions numGroups w groups total summary :
  NoDup roster.*1 →
  0 < Z.of_nat (length roster) →
  1 ≤ numGroups ≤ Z.of_nat (length roster) →
  let run := create_groups chatId roster.*2 (participant_map roster) numGroups
                           restrictions w in
  sent run.2 = sent w ++ [(chatId, GroupsCreated groups total summary)] →
  let t := Store.tables (db run.2) in
  Store.tg_participants t = Store.tg_participants (Store.tables (db w)) ∧
  Z.of_nat (length (Store.tg_assignments t)) = total ∧
  Forall (λ a, Store.giver_participant_id a ≠ Store.receiver_participant_id a ∧
               Store.giver_participant_id a ∈ roster.*1 ∧
               Store.receiver_participant_id a ∈ roster.*1)
         (Store.tg_assignments t).
Proof.
  intros Hnd Hlen HN run.
  pose proof (triple_create_groups chatId roster restrictions w Hnd numGroups
                Hlen HN w eq_refl) as H.
  fold run in H. destruct run as [[[]|e] w']; [|done]. cbn. intros Hsent.
  destruct H as [_ [(total' & summary' & Hs & Hp & Hrows & Htotal)
                   |[(g0 & groups' & _ & i & group & g & Hs & _)|[Hs _]]]];
    rewrite Hsent in Hs; apply app_inv_head in Hs; [|discriminate|discriminate].
  injection Hs as _ -> _. by split_and!.
Qed.

Lemma reported_success_rows_witness :
  let roster := [(1, "Alice"); (2, "Bob"); (3, "Carol")] in
  let w := mkWorld ∅ ∅ (Store.mkDb
                          (Store.mkTables
                             [Store.mkParticipant 1 "Alice" "";
                              Store.mkParticipant 2 "Bob" "tea";
                              Store.mkParticipant 3 "Carol" ""]
                             [] [] [Store.mkAssignment 1 1 2 2] 4 1 1 2)
                          None (λ _, false) [])
                   (mkRng (λ k, k) O) [] in
  let run := create_groups 5 roster.*2 (participant_map roster) 1 [] w in
  let t := Store.tables (db run.2) in
  Store.tg_participants t = Store.tg_participants (Store.tables (db w)) ∧
  Z.of_nat (length (Store.tg_assignments t)) = 3 ∧
  Forall (λ a, Store.giver_participant_id a ≠ Store.receiver_participant_id a ∧
               Store.giver_participant_id a ∈ roster.*1 ∧
               Store.receiver_participant_id a ∈ roster.*1)
         (Store.tg_assignments t).
Proof.
  intros roster w.
  eapply (reported_success_rows 5 roster [] 1 w).
  - apply (bool_decide_unpack _). vm_compute. exact I.
  - vm_compute. reflexivity.
  - vm_compute. split; discriminate.
  - vm_compute. reflexivity.
Defined.

(** With distinct names, restrictions that name no two people of the
    roster (none at all, for one) and a store that does not fail, the run
    always succeeds, whatever is drawn: it commits and reports the groups
    created. *)
Theorem unrestricted_run_succeeds chatId roster restrictions numGroups w :
  NoDup roster.*1 → NoDup roster.*2 →
  1 ≤ numGroups ≤ Z.of_nat (length roster) →
  (∀ a b, [a; b] ∈ restrictions → a ∉ roster.*2 ∨ b ∉ roster.*2) →
  (∀ n, (length (Store.log (db w)) ≤ n)%nat → Store.faults (db w) n = false) →
  let run := create_groups chatId roster.*2 (participant_map roster) numGroups
                           restrictions w in
  ∃ total summary,
    sent run.2 = sent w ++ [(chatId, GroupsCreated (Z.to_nat numGroups) total summary)] ∧
    Z.of_nat (length (Store.tg_assignments (Store.tables (db run.2)))) = total.
Proof.
  intros Hnd Hnames HN Hfree Hworks run.
  pose proof (triple_create_groups chatId roster restrictions w Hnd numGroups
                ltac:(lia) HN w eq_refl) as H.
  fold run in H. destruct run as [[[]|e] w']; [|done]. cbn.
  destruct H as [_ [(total & summary & Hs & _ & _ & Htotal)
                   |[(g0 & groups & Hgroups & i & group & g & _ & Hin & Hg)|[_ Hf]]]].
  - by exists total, summary.
  - exfalso.
    destruct (groups_nodup roster.*2 numGroups g0 groups group Hgroups Hnames Hin)
      as [Hsub Hndg].
    apply (unrelated_restrictions_no_throw group restrictions g
             (err_no_assignment group)); [done| |done].
    intros a b Hab. destruct (Hfree a b Hab) as [Ha|Hb]; [left|right];
      intros ?; [apply Ha|apply Hb]; by apply Hsub.
  - destruct Hf as (n & Hn & Hfault). by rewrite Hworks in Hfault.
Qed.

Lemma unrestricted_run_succeeds_witness :
  let roster := [(1, "Alice"); (2, "Bob"); (3, "Carol")] in
  let w := mkWorld ∅ ∅ (Store.mkDb (Store.mkTables [] [] [] [] 1 1 1 1) None
                                   (λ _, false) [])
                   (mkRng (λ k, k) O) [] in
  let run := create_groups 5 roster.*2 (participant_map roster) 1 [] w in
  ∃ total summary,
    sent run.2 = sent w ++ [(5, GroupsCreated (Z.to_nat 1) total summary)] ∧
    Z.of_nat (length (Store.tg_assignments (Store.tables (db run.2)))) = total.
Proof.
  intros roster w.
  apply (unrestricted_run_succeeds 5 roster [] 1 w).
  - apply (bool_decide_unpack _). vm_compute. exact I.
  - apply (bool_decide_unpack _). vm_compute. exact I.
  - vm_compute. split; discriminate.
  - intros a b Hab. by apply elem_of_nil in Hab.
  - intros n _. reflexivity.
Defined.

(** The admin's reply to the restrictions prompt, when it validates: the
    chat leaves the state, the bot announces the run and then reports it
    with one message, which is the success report with the number of
    groups kept in the entry, or a group that could not be matched, or the
    store's error.  The entry is the one the two earlier steps leave: a
    roster with distinct ids and a number of groups within its size. *)
Theorem restrictions_reply_runs_creation ADMIN_USER_ID now msg w entry roster k rs :
  limited now msg w = false → HandlerMore.is_command (text msg) = false →
  userState w !! chat_id msg = Some entry →
  state entry = "awaiting_restrictions" →
  isAdmin ADMIN_USER_ID (from_id msg) = true →
  participants entry = Some roster → numGroups entry = Some k →
  NoDup roster.*1 → 1 ≤ k ≤ Z.of_nat (length roster) →
  Security.validateRestrictionsInput (text msg) roster.*2 = Some rs →
  let run := on_message ADMIN_USER_ID now msg w in
  run.1 = Ok () ∧
  userState run.2 !! chat_id msg = None ∧
  ∃ m, sent run.2 = sent w ++ [(chat_id msg, Processing k (length rs));
                               (chat_id msg, m)] ∧
       ((∃ total summary, m = GroupsCreated (Z.to_nat k) total summary)
        ∨ (∃ i group, m = MatchingFailed i group (err_no_assignment group))
        ∨ m = UnexpectedError Store.store_error).
Proof.
  intros Hlim Hcmd Hentry Hs Ha Hparts Hnum Hnd Hk Hv run.
  set (w1' := mkWorld (delete (chat_id msg) (userState w)) (counted now msg w)
                      (db w) (rng w)
                      (sent w ++ [(chat_id msg, Processing k (length rs))])).
  assert (run = create_groups (chat_id msg) roster.*2 (participant_map roster)
                              k rs w1') as Hrun.
  { unfold run. rewrite (HandlerMore.on_message_dispatch _ _ _ _ entry) by done.
    unfold dispatch, HandlerMore.after_count. rewrite Hs.
    change (branch_of "awaiting_restrictions") with BranchRestrictions. cbv iota.
    unfold on_awaiting_restrictions. rewrite Ha, Hparts, Hnum. cbn [negb field].
    unfold mbind, M_bind. cbn [mret M_ret]. by rewrite Hv. }
  pose proof (triple_create_groups (chat_id msg) roster rs w1' Hnd k
                ltac:(lia) Hk w1' eq_refl) as H.
  rewrite <-Hrun in H. clearbody run. clear Hrun.
  destruct run as [[[]|e] w']; [|done].
  destruct H as [Hstate H]. split; [done|]. split; [done|]. cbn [snd].
  assert (∀ m, sent w' = sent w1' ++ [(chat_id msg, m)] →
               sent w' = sent w ++ [(chat_id msg, Processing k (length rs));
                                    (chat_id msg, m)]) as Hsent.
  { intros m ->. unfold w1'. cbn [sent]. by rewrite <-app_assoc. }
  destruct H as [(total & summary & Hs' & _)
                |[(g0 & groups & _ & i & group & g & Hs' & _)|[Hs' _]]];
    apply Hsent in Hs'; eexists; (split; [exact Hs'|]); eauto.
Qed.

Lemma restrictions_reply_runs_creation_witness :
  let roster := [(1, "Alice"); (2, "Bob"); (3, "Carol")] in
  let entry := mkStateData "awaiting_restrictions" None (Some 3)
                 (Some roster) (Some 1) in
  let w := mkWorld {[ 5 := entry ]} ∅
             (Store.mkDb (Store.mkTables [] [] [] [] 1 1 1 1) None (λ _, false) [])
             (mkRng (λ k, k) O) [] in
  let msg := mkMsg 5 7 (Some "none") in
  let run := on_message (Some 7) 1000 msg w in
  run.1 = Ok () ∧
  userState run.2 !! chat_id msg = None ∧
  ∃ m, sent run.2 = sent w ++ [(chat_id msg, Processing 1 (length (@nil (list string))));
                               (chat_id msg, m)] ∧
       ((∃ total summary, m = GroupsCreated (Z.to_nat 1) total summary)
        ∨ (∃ i group, m = MatchingFailed i group (err_no_assignment group))
        ∨ m = UnexpectedError Store.store_error).
Proof.
  intros roster entry w msg.
  apply (restrictions_reply_runs_creation (Some 7) 1000 msg w entry roster 1 []);
    first [reflexivity | vm_compute; reflexivity
          | apply (bool_decide_unpack _); vm_compute; exact I
          | vm_compute; split; discriminate].
Defined.

(** ** A group that cannot be matched *)

Lemma planned_groups_infeasible participantMap restrictions groups i g t group :
  group ∈ groups → (2 ≤ length group)%nat → ¬ feasible group restrictions →
  planned_groups participantMap restrictions groups i g t = None.
Proof.
  intros Hin Hlen Hinf. revert i g t.
  induction groups as [|groupNames rest IH]; intros i g t;
    [by apply elem_of_nil in Hin|].
  cbn [planned_groups].
  apply elem_of_cons in Hin as [<-|Hin].
  - destruct (Nat.ltb_spec (length group) 2) as [?|_]; [lia|].
    rewrite (infeasible_exhausts group restrictions g Hlen); [done|].
    intros l Hl Hacc. apply Hinf. by exists l.
  - destruct (length groupNames <? 2)%nat; [by apply IH|].
    destruct (assignSecretAngels groupNames restrictions g) as [[matches|e] g'];
      [|done].
    cbv zeta.
    destruct (planned_members _ _ _ _) as [t1|]; [|done]. cbn [mbind option_bind].
    destruct (planned_assignments _ _ _ _) as [t2|]; [|done]. cbn [mbind option_bind].
    by apply IH.
Qed.

(** When one of the groups that the participants are put in has no
    allowed arrangement at all, the run saves nothing, whatever the other
    groups are and whichever statements fail: every table is as it was
    before the run, the connection is outside a transaction again, and
    the one message sent reports a failure. *)
Theorem infeasible_group_rolls_back chatId participantNames participantMap
        numGroups restrictions w groups group :
  Store.begun (db w) = None →
  (assignParticipantsToGroups participantNames numGroups (rng w)).1 = Ok groups →
  group ∈ groups → (2 ≤ length group)%nat → ¬ feasible group restrictions →
  let run := create_groups chatId participantNames participantMap numGroups
                           restrictions w in
  run.1 = Ok () ∧
  Store.tables (db run.2) = Store.tables (db w) ∧
  Store.begun (db run.2) = None ∧
  ∃ m, failure_notice m ∧ sent run.2 = sent w ++ [(chatId, m)].
Proof.
  intros Hb Hgroups Hin Hlen Hinf run.
  assert (planned w participantMap restrictions participantNames numGroups = None)
    as Hplanned.
  { unfold planned, planned_tables.
    destruct (assignParticipantsToGroups participantNames numGroups (rng w))
      as [[groups'|e] g1]; [|done]. cbn in Hgroups. injection Hgroups as ->.
    by eapply planned_groups_infeasible. }
  pose proof (hoare_create_groups chatId w participantMap restrictions Hb
                participantNames numGroups w eq_refl) as H.
  pose proof (exact_create_groups chatId w participantMap restrictions
                participantNames numGroups w eq_refl) as H'.
  fold run in H, H'. destruct run as [[[]|e] w']; [|done]. cbn [fst snd].
  split; [done|].
  destruct H as [(new & _ & _ & _ & Hbegun & Ht & Hm)|(new & _ & _ & _ & _ & Hs)].
  - by split_and!.
  - destruct H' as [[(m & Hm & Hs') _]|[Hp _]].
    + destruct Hs as (? & ? & ? & Hs). rewrite Hs in Hs'.
      apply app_inv_head in Hs'. injection Hs' as <-. done.
    + unfold done_as_planned in Hp. congruence.
Qed.

Lemma infeasible_group_rolls_back_witness :
  let previous :=
    Store.mkTables
      [Store.mkParticipant 1 "Alice" ""; Store.mkParticipant 2 "Bob" "tea";
       Store.mkParticipant 3 "Carol" ""; Store.mkParticipant 4 "Dave" ""]
      [Store.mkGroup 1 "Secret Angel Group 1"]
      [Store.mkMember 1 1 1; Store.mkMember 2 1 2]
      [Store.mkAssignment 1 1 1 2; Store.mkAssignment 2 1 2 1]
      5 2 3 3 in
  let w := mkWorld ∅ ∅ (Store.mkDb previous None (λ k, bool_decide (k = 7%nat)) [])
                   (mkRng (λ _, O) O) [] in
  let roster := [(1, "Alice"); (2, "Bob"); (3, "Carol"); (4, "Dave")] in
  let run := create_groups 5 roster.*2 (participant_map roster) 2
                           [["Dave"; "Alice"]] w in
  Store.log (db run.2)
  = [(Store.BEGIN, true); (Store.TRUNCATE_groups, true);
     (Store.INSERT_group "Secret Angel Group 1", true);
     (Store.INSERT_member 1 2, true); (Store.INSERT_member 1 3, true);
     (Store.INSERT_assignment 1 3 2, true);
     (Store.INSERT_assignment 1 2 3, true); (Store.ROLLBACK, false);
     (Store.ROLLBACK, true)] ∧
  run.1 = Ok () ∧
  Store.tables (db run.2) = Store.tables (db w) ∧
  Store.begun (db run.2) = None ∧
  ∃ m, failure_notice m ∧ sent run.2 = sent w ++ [(5, m)].
Proof.
  intros previous w roster run. split; [vm_compute; reflexivity|].
  apply (infeasible_group_rolls_back 5 roster.*2 (participant_map roster) 2
           [["Dave"; "Alice"]] w [["Bob"; "Carol"]; ["Dave"; "Alice"]]
           ["Dave"; "Alice"]).
  - reflexivity.
  - vm_compute. reflexivity.
  - set_solver.
  - simpl. lia.
  - intros (l & Hl & Hacc).
    assert ("Dave" ∈ l ∧ "Alice" ∈ l) as [Hd Ha] by (rewrite Hl; set_solver).
    apply Permutation_length in Hl.
    destruct l as [|x [|y [|? ?]]]; try discriminate Hl.
    revert Hacc.
    apply (pair_of_two_blocked _ x y "Dave" "Alice");
      [exact Hd|exact Ha|discriminate|apply list_elem_of_singleton; reflexivity].
Defined.

End RosterRun.
